(** * ats-resume: the scoring engine and the keyword highlighter

    A shallow embedding of [src/components/ResultsStep.tsx] (with the data
    model of [src/types.ts]) and the proofs of its specification.

    - JavaScript numbers are IEEE 754 binary64 values.  They are modelled by
      the Standard Library's [spec_float] (precision 53, [emax] 1024), and
      [+], [*], [/] by [SFadd], [SFmul], [SFdiv]: every score below is computed
      bit for bit as the engine computes it.
    - JavaScript strings are sequences of code units.  The model keeps the
      code units below 256 (type [ascii], read as Latin-1), with the case
      mappings ECMAScript prescribes on that range.
    - [new RegExp], [RegExp.prototype.test] and [String.prototype.split] follow
      the ECMAScript algorithms on the fragment of the pattern language that
      the program's patterns use.
    - Objects that the program mutates live in a store ([heap]); the same
      functions are also given on plain values, and the two are related.

    Further on come the rest of the results page (the progress ring, the
    icons, the side navigation) and the pure parts of the scan
    ([src/App.tsx], [src/components/NewScanModal.tsx]): the loading
    progress and text, the error messages, the guards of the Scan button and
    the text of a PDF file. *)

From Stdlib Require Import ZArith QArith Qround Lia List Bool Ascii String SpecFloat.
From stdpp Require Import base option list gmap.
Import ListNotations.

(** ** JavaScript numbers *)

Definition prec : Z := 53.
Definition emax : Z := 1024.

Definition number : Type := spec_float.

Definition fadd : number -> number -> number := SFadd prec emax.
Definition fmul : number -> number -> number := SFmul prec emax.
Definition fdiv : number -> number -> number := SFdiv prec emax.

(** [x > y], [x >= y] on numbers (false when either side is NaN). *)
Definition fgt (x y : number) : bool := SFltb y x.
Definition fge (x y : number) : bool := SFleb y x.

(** The number denoted by an integer literal, or by an integer such as an
    array length: the integer rounded to binary64 (exact below [2^53]). *)
Definition number_of_Z (z : Z) : number := binary_normalize prec emax z 0 false.

Definition number_of_nat (n : nat) : number := number_of_Z (Z.of_nat n).

(** The integer a number stands for, when it is finite and integral. *)
Definition Z_of_number (x : number) : option Z :=
  match x with
  | S754_zero _ => Some 0%Z
  | S754_finite s m e =>
      if (0 <=? e)%Z then Some (cond_Zopp s (Zpos m * 2 ^ e))%Z
      else if (Zpos m mod 2 ^ (- e) =? 0)%Z
           then Some (cond_Zopp s (Zpos m / 2 ^ (- e)))%Z
           else None
  | _ => None
  end.

(** [Math.round]: non-finite and integral arguments are returned as they are;
    otherwise the nearest integer, a tie going towards +infinity, which is
    [floor (x + 1/2)] computed exactly; a result of zero keeps the sign of
    the argument. *)
Definition Math_round (x : number) : number :=
  match x with
  | S754_finite s m e =>
      if (0 <=? e)%Z then x
      else
        let z := ((2 * cond_Zopp s (Zpos m) + 2 ^ (- e)) / 2 ^ (1 - e))%Z in
        if (z =? 0)%Z then S754_zero s else number_of_Z z
  | _ => x
  end.

(** Decimal literals of the source, as the binary64 values nearest to them. *)
Definition lit_0_30 : number := S754_finite false 5404319552844595 (-54).
Definition lit_0_45 : number := S754_finite false 8106479329266893 (-54).
Definition lit_0_10 : number := S754_finite false 7205759403792794 (-56).
Definition lit_0_15 : number := S754_finite false 5404319552844595 (-55).

(** ** The data model ([src/types.ts]) *)

(** A string: its code units. *)
Definition jsstring : Type := list ascii.

Definition str (s : string) : jsstring := list_ascii_of_string s.

(** The status of a tip.  [SearchabilityTip] allows pass, fail and info,
    [RecruiterTip] allows pass, warning and info; one type with the four
    values covers both. *)
Inductive Status : Type := pass | fail | info | warning.

Record Tip : Type := {
  name : jsstring;
  status : Status;
  message : jsstring
}.

Definition SearchabilityTip : Type := Tip.
Definition RecruiterTip : Type := Tip.

Record Skill : Type := {
  skill : jsstring;
  resumeCount : Z;   (* -1 indicates "Not found" *)
  jdCount : Z
}.

Record TipSection : Type := {
  tips_issues : Z;
  tips : list Tip
}.

Record SkillSection : Type := {
  skills_issues : Z;
  skills : list Skill
}.

Record Report : Type := {
  searchability : TipSection;
  hardSkills : SkillSection;
  softSkills : SkillSection;
  recruiterTips : TipSection
}.

Record AnalysisResult : Type := {
  report : Report;
  optimizedResume : jsstring
}.

(** ** Scoring logic *)

Module WEIGHTS.
Definition searchability : number := lit_0_30.
Definition hardSkills : number := lit_0_45.
Definition softSkills : number := lit_0_10.
Definition recruiterTips : number := lit_0_15.
End WEIGHTS.

(** [t.status === 'pass' || t.status === 'info'] *)
Definition tip_passed (t : Tip) : bool :=
  match status t with
  | pass => true
  | info => true
  | _ => false
  end.

(** [s.resumeCount !== -1] *)
Definition skill_found (s : Skill) : bool := negb (resumeCount s =? -1)%Z.

(** [array.length], a number. *)
Definition array_length {A : Type} (l : list A) : number :=
  number_of_nat (length l).

Definition calculateScore (report : Report) : number :=
  (* Searchability Score *)
  let totalSearchability := array_length (tips (searchability report)) in
  let passedSearchability :=
    array_length (List.filter tip_passed (tips (searchability report))) in
  let searchabilityScore :=
    if fgt totalSearchability (number_of_Z 0)
    then fdiv passedSearchability totalSearchability else number_of_Z 1 in
  (* Hard Skills Score *)
  let totalHardSkills := array_length (skills (hardSkills report)) in
  let foundHardSkills :=
    array_length (List.filter skill_found (skills (hardSkills report))) in
  let hardSkillsScore :=
    if fgt totalHardSkills (number_of_Z 0)
    then fdiv foundHardSkills totalHardSkills else number_of_Z 1 in
  (* Soft Skills Score *)
  let totalSoftSkills := array_length (skills (softSkills report)) in
  let foundSoftSkills :=
    array_length (List.filter skill_found (skills (softSkills report))) in
  let softSkillsScore :=
    if fgt totalSoftSkills (number_of_Z 0)
    then fdiv foundSoftSkills totalSoftSkills else number_of_Z 1 in
  (* Recruiter Tips Score *)
  let totalRecruiterTips := array_length (tips (recruiterTips report)) in
  let passedRecruiterTips :=
    array_length (List.filter tip_passed (tips (recruiterTips report))) in
  let recruiterTipsScore :=
    if fgt totalRecruiterTips (number_of_Z 0)
    then fdiv passedRecruiterTips totalRecruiterTips else number_of_Z 1 in
  let finalScore :=
    fadd (fadd (fadd (fmul searchabilityScore WEIGHTS.searchability)
                     (fmul hardSkillsScore WEIGHTS.hardSkills))
               (fmul softSkillsScore WEIGHTS.softSkills))
         (fmul recruiterTipsScore WEIGHTS.recruiterTips) in
  Math_round (fmul finalScore (number_of_Z 100)).

Inductive Color : Type := green | yellow | red.

Definition getScoreColor (score : number) : Color :=
  if fge score (number_of_Z 90) then green
  else if fge score (number_of_Z 75) then yellow
  else red.

(** ** Strings: case mapping and word characters *)

Definition code (c : ascii) : N := N_of_ascii c.

Definition between (lo hi n : N) : bool := ((lo <=? n) && (n <=? hi))%N.

(** [String.prototype.toLowerCase] on one code unit below 256: A..Z and the
    Latin-1 capitals U+00C0..U+00DE (the sign U+00D7 apart) move up by 32. *)
Definition toLowerCase_unit (c : ascii) : ascii :=
  let n := code c in
  if between 65 90 n || (between 192 222 n && negb (n =? 215)%N)
  then ascii_of_N (n + 32) else c.

Definition toLowerCase (s : jsstring) : jsstring := map toLowerCase_unit s.

(** [Canonicalize] of a pattern without the u flag: the code unit of the
    upper-case form when that form is one code unit (and does not turn a
    non-ASCII unit into an ASCII one).  On units below 256: a..z and
    U+00E0..U+00FE (the sign U+00F7 apart) move down by 32, U+00FF goes to
    U+0178, U+00B5 goes to U+039C, and U+00DF, whose upper-case form has two
    units, stays. *)
Definition Canonicalize (ignoreCase : bool) (c : ascii) : N :=
  let n := code c in
  if negb ignoreCase then n
  else if between 97 122 n || (between 224 254 n && negb (n =? 247)%N) then (n - 32)%N
  else if (n =? 255)%N then 376%N
  else if (n =? 181)%N then 924%N
  else n.

(** The basic word characters: a..z, A..Z, 0..9 and the underscore. *)
Definition WordCharacters (c : ascii) : bool :=
  let n := code c in
  between 97 122 n || between 65 90 n || between 48 57 n || (n =? 95)%N.

(** [IsWordChar(e)]: false outside the input. *)
Definition IsWordChar (input : jsstring) (e : nat) : bool :=
  match nth_error input e with
  | Some c => WordCharacters c
  | None => false
  end.

(** [IsWordChar(e - 1)]: false at the start of the input. *)
Definition IsWordChar_before (input : jsstring) (e : nat) : bool :=
  match e with
  | O => false
  | S e' => IsWordChar input e'
  end.

(** [S.substring(from, to)] for [from <= to]. *)
Definition substring (s : jsstring) (from to : nat) : jsstring :=
  firstn (to - from) (skipn from s).

(** ** Regular expressions *)

(** What a computation of the program can end in: a value, a thrown
    exception (here: the SyntaxError of [new RegExp]), or a loop that used up
    the steps it was given. *)
Inductive outcome (A : Type) : Type :=
| Returns (a : A)
| Throws
| OutOfFuel.
Arguments Returns {A} a.
Arguments Throws {A}.
Arguments OutOfFuel {A}.

Definition bind {A B : Type} (x : outcome A) (k : A -> outcome B) : outcome B :=
  match x with
  | Returns a => k a
  | Throws => Throws
  | OutOfFuel => OutOfFuel
  end.

Notation "'let*' x ':=' e 'in' k" := (bind e (fun x => k))
  (at level 10, x name, e at level 100, k at level 200).

(** [array.forEach(f)] / [array.map(f)] with a callback that may throw. *)
Fixpoint mapM {A B : Type} (f : A -> outcome B) (l : list A) : outcome (list B) :=
  match l with
  | [] => Returns []
  | a :: l' => let* b := f a in let* bs := mapM f l' in Returns (b :: bs)
  end.

(** The patterns of the fragment: characters, the assertion \b, sequences,
    disjunctions and capturing groups. *)
Inductive regex : Type :=
| Empty
| Char (c : ascii)
| WordBoundary
| Seq (r1 r2 : regex)
| Alt (r1 r2 : regex)
| Group (i : nat) (r : regex).

(** SyntaxCharacter :: one of ^ $ \ . * + ? ( ) [ ] { } | *)
Definition isSyntaxCharacter (c : ascii) : bool :=
  existsb (Ascii.eqb c) (str "^$\.*+?()[]{}|").

(** [kw.replace(/[.*+?^${}()|[\]\\]/g, '\\$&')]: a backslash before every
    occurrence of one of . * + ? ^ $ { } ( ) | [ ] \ *)
Definition escaped_class (c : ascii) : bool :=
  existsb (Ascii.eqb c) (str ".*+?^${}()|[]\").

Definition escapeRegExp (kw : jsstring) : jsstring :=
  flat_map (fun c => if escaped_class c then ["\"%char; c] else [c]) kw.

(** [array.join(sep)] *)
Fixpoint join (sep : jsstring) (l : list jsstring) : jsstring :=
  match l with
  | [] => []
  | [s] => s
  | s :: l' => s ++ sep ++ join sep l'
  end.

(** An Alternative is the sequence of its terms; a Disjunction tries its
    alternatives from left to right. *)
Definition seq_of (terms : list regex) : regex := fold_right Seq Empty terms.

Fixpoint alt_of (a : regex) (rest : list regex) : regex :=
  match rest with
  | [] => a
  | b :: rest' => Alt a (alt_of b rest')
  end.

(** The disjunction whose earlier alternatives are [alts] (last one first)
    and whose last alternative has the terms [cur] (last one first). *)
Definition close (alts cur : list regex) : regex :=
  match rev alts with
  | [] => seq_of (rev cur)
  | a :: rest => alt_of a (rest ++ [seq_of (rev cur)])
  end.

(** The parser of patterns.  It reads the pattern from left to right; [stack]
    holds, for every group that is open, its index and the part of the
    enclosing disjunction read so far; [n] counts the groups opened.  The
    result is [None] for a pattern that is a SyntaxError and for one that
    uses a construct outside the fragment (quantifiers, classes, anchors,
    the dot, other escapes). *)
Fixpoint parse_pattern (p : jsstring) (stack : list (nat * list regex * list regex))
    (n : nat) (alts cur : list regex) : option (regex * nat) :=
  match p with
  | [] =>
      match stack with
      | [] => Some (close alts cur, n)
      | _ :: _ => None
      end
  | c :: rest =>
      if Ascii.eqb c "\" then
        match rest with
        | [] => None
        | d :: rest' =>
            if Ascii.eqb d "b" then parse_pattern rest' stack n alts (WordBoundary :: cur)
            else if isSyntaxCharacter d then parse_pattern rest' stack n alts (Char d :: cur)
            else None
        end
      else if Ascii.eqb c "(" then parse_pattern rest ((n, alts, cur) :: stack) (S n) [] []
      else if Ascii.eqb c ")" then
        match stack with
        | [] => None
        | (i, alts', cur') :: stack' =>
            parse_pattern rest stack' n alts' (Group i (close alts cur) :: cur')
        end
      else if Ascii.eqb c "|" then parse_pattern rest stack n (seq_of (rev cur) :: alts) []
      else if isSyntaxCharacter c then None
      else parse_pattern rest stack n alts (Char c :: cur)
  end.

(** The captures of a match: one entry per group, [None] for undefined. *)
Definition captures : Type := list (option jsstring).

(** The matcher of a pattern, in the continuation-passing form of the
    language specification: [matcher ic r input i caps k] matches [r] at
    index [i] and hands the end index and the captures to [k]; a disjunction
    backtracks into its second alternative when the first one, followed by
    the continuation, fails. *)
Fixpoint matcher (ic : bool) (r : regex) (input : jsstring) (i : nat) (caps : captures)
    (k : nat -> captures -> option (nat * captures)) : option (nat * captures) :=
  match r with
  | Empty => k i caps
  | Char c =>
      match nth_error input i with
      | Some d => if (Canonicalize ic d =? Canonicalize ic c)%N then k (S i) caps else None
      | None => None
      end
  | WordBoundary =>
      if xorb (IsWordChar_before input i) (IsWordChar input i) then k i caps else None
  | Seq r1 r2 => matcher ic r1 input i caps (fun j caps' => matcher ic r2 input j caps' k)
  | Alt r1 r2 =>
      match matcher ic r1 input i caps k with
      | Some z => Some z
      | None => matcher ic r2 input i caps k
      end
  | Group n r' =>
      matcher ic r' input i caps
        (fun j caps' => k j (<[n := Some (substring input i j)]> caps'))
  end.

(** A RegExp object: the compiled pattern, the flags and [lastIndex]. *)
Record RegExp : Type := {
  pattern : regex;
  ngroups : nat;
  global : bool;
  ignoreCase : bool;
  sticky : bool;
  lastIndex : nat
}.

Definition set_lastIndex (R : RegExp) (i : nat) : RegExp :=
  {| pattern := pattern R; ngroups := ngroups R; global := global R;
     ignoreCase := ignoreCase R; sticky := sticky R; lastIndex := i |}.

(** The flags g, i and y; a repeated or unknown flag is refused. *)
Fixpoint parse_flags (f : jsstring) (g i y : bool) : option (bool * bool * bool) :=
  match f with
  | [] => Some (g, i, y)
  | c :: f' =>
      if Ascii.eqb c "g" then (if g then None else parse_flags f' true i y)
      else if Ascii.eqb c "i" then (if i then None else parse_flags f' g true y)
      else if Ascii.eqb c "y" then (if y then None else parse_flags f' g i true)
      else None
  end.

(** [new RegExp(pattern, flags)] *)
Definition new_RegExp (p flags : jsstring) : outcome RegExp :=
  match parse_pattern p [] 0 [] [], parse_flags flags false false false with
  | Some (r, n), Some (g, i, y) =>
      Returns {| pattern := r; ngroups := n; global := g; ignoreCase := i;
                 sticky := y; lastIndex := 0 |}
  | _, _ => Throws
  end.

(** One attempt at index [i]. *)
Definition match_at (R : RegExp) (S : jsstring) (i : nat) : option (nat * captures) :=
  matcher (ignoreCase R) (pattern R) S i (repeat None (ngroups R))
    (fun e caps => Some (e, caps)).

(** The search loop of [RegExpBuiltinExec] without the sticky flag: attempts
    at [i], [i + 1], ... until one succeeds or the index passes the length;
    [remaining] is [length S + 1 - i]. *)
Fixpoint search (R : RegExp) (S : jsstring) (remaining i : nat) : option (nat * nat * captures) :=
  match remaining with
  | O => None
  | Datatypes.S remaining' =>
      match match_at R S i with
      | Some (e, caps) => Some (i, e, caps)
      | None => search R S remaining' (Datatypes.S i)
      end
  end.

(** [RegExpBuiltinExec(R, S)]: the match (index, end index, captures) or
    null, and the RegExp object with its [lastIndex] updated. *)
Definition RegExpBuiltinExec (R : RegExp) (S : jsstring)
    : option (nat * nat * captures) * RegExp :=
  let stateful := global R || sticky R in
  let start := if stateful then lastIndex R else 0 in
  if length S <? start then (None, if stateful then set_lastIndex R 0 else R)
  else
    let r :=
      if sticky R then
        match match_at R S start with
        | Some (e, caps) => Some (start, e, caps)
        | None => None
        end
      else search R S (Datatypes.S (length S - start)) start in
    match r with
    | None => (None, if stateful then set_lastIndex R 0 else R)
    | Some (i, e, caps) => (Some (i, e, caps), if stateful then set_lastIndex R e else R)
    end.

(** [R.test(S)] *)
Definition RegExp_test (R : RegExp) (S : jsstring) : bool * RegExp :=
  match RegExpBuiltinExec R S with
  | (Some _, R') => (true, R')
  | (None, R') => (false, R')
  end.

(** [S.split(rx)] with a RegExp separator and no limit
    ([RegExp.prototype[Symbol.split]]).  The splitter is a fresh RegExp
    object for the pattern of [rx] with the flag y added, so [rx] itself and
    its [lastIndex] are left alone.  [p] is the end of the last separator
    found, [q] the index of the current attempt.  An iteration either moves
    [q] forward or, after a match, moves [p] to its end; the number of
    iterations is below [2 * length S + 2], the fuel [String_split] gives.
    (The limit defaults to [2^32 - 1] pieces, which a string of fewer than
    [2^31] code units cannot reach; it is left out.) *)
Fixpoint split_loop (splitter : RegExp) (S : jsstring) (fuel p q : nat)
    (A : list (option jsstring)) : outcome (list (option jsstring)) :=
  match fuel with
  | O => OutOfFuel
  | Datatypes.S fuel' =>
      if q <? length S then
        match RegExpBuiltinExec (set_lastIndex splitter q) S with
        | (None, splitter') => split_loop splitter' S fuel' p (Datatypes.S q) A
        | (Some (_, _, caps), splitter') =>
            let e := Nat.min (lastIndex splitter') (length S) in
            if e =? p then split_loop splitter' S fuel' p (Datatypes.S q) A
            else split_loop splitter' S fuel' e e (A ++ [Some (substring S p q)] ++ caps)
        end
      else Returns (A ++ [Some (substring S p (length S))])
  end.

Definition String_split (S : jsstring) (rx : RegExp) : outcome (list (option jsstring)) :=
  let splitter :=
    {| pattern := pattern rx; ngroups := ngroups rx; global := global rx;
       ignoreCase := ignoreCase rx; sticky := true; lastIndex := 0 |} in
  if length S =? 0 then
    match RegExpBuiltinExec splitter S with
    | (Some _, _) => Returns []
    | (None, _) => Returns [Some S]
    end
  else split_loop splitter S (2 * length S + 2) 0 0 [].

(** ** The optimized score *)

Definition set_resumeCount (s : Skill) (n : Z) : Skill :=
  {| skill := skill s; resumeCount := n; jdCount := jdCount s |}.

Definition set_status (t : Tip) (st : Status) : Tip :=
  {| name := name t; status := st; message := message t |}.

(** The pattern source [`\\b${skill.skill.replace(...)}\\b`]. *)
Definition skill_pattern (kw : jsstring) : jsstring :=
  str "\b" ++ escapeRegExp kw ++ str "\b".

(** The body of the two [forEach] loops over the skills of the copy. *)
Definition mark_if_added (optimizedResumeLower : jsstring) (s : Skill) : outcome Skill :=
  if (resumeCount s =? -1)%Z then
    let* skillRegex := new_RegExp (skill_pattern (skill s)) (str "i") in
    if fst (RegExp_test skillRegex optimizedResumeLower)
    then Returns (set_resumeCount s 1)   (* Mark as found *)
    else Returns s
  else Returns s.

(** [calculateOptimizedScore] on values: [optimizedReport] is a copy of
    [report], so the updates of the source are updates of that copy.  (The
    store-level version, with the copy made by JSON, comes below.) *)
Definition calculateOptimizedScore (report : Report) (optimizedResume : jsstring)
    : outcome number :=
  let optimizedResumeLower := toLowerCase optimizedResume in
  let* hard := mapM (mark_if_added optimizedResumeLower) (skills (hardSkills report)) in
  let* soft := mapM (mark_if_added optimizedResumeLower) (skills (softSkills report)) in
  let search := map (fun tip => set_status tip pass) (tips (searchability report)) in
  let recruiter := map (fun tip => set_status tip pass) (tips (recruiterTips report)) in
  Returns (calculateScore
    {| searchability := {| tips_issues := tips_issues (searchability report); tips := search |};
       hardSkills := {| skills_issues := skills_issues (hardSkills report); skills := hard |};
       softSkills := {| skills_issues := skills_issues (softSkills report); skills := soft |};
       recruiterTips := {| tips_issues := tips_issues (recruiterTips report);
                           tips := recruiter |} |}).

(** ** The keyword highlighter *)

(** A child of the fragment that [highlightKeywords] returns: a piece of the
    text as it is, or inside a [<mark>] element.  A piece is [None] when it
    is [undefined]. *)
Inductive segment : Type :=
| Plain (part : option jsstring)
| Mark (part : option jsstring).

Inductive ReactNode : Type :=
| NodeText (text : jsstring)
| Fragment (children : list segment).

(** [ToString] of a piece, as [regex.test(part)] applies it. *)
Definition part_ToString (part : option jsstring) : jsstring :=
  match part with
  | Some s => s
  | None => str "undefined"
  end.

(** What a piece renders as; [undefined] renders as nothing. *)
Definition part_text (part : option jsstring) : jsstring :=
  match part with
  | Some s => s
  | None => []
  end.

Definition segment_text (s : segment) : jsstring :=
  match s with
  | Plain part => part_text part
  | Mark part => part_text part
  end.

Definition node_segments (n : ReactNode) : list segment :=
  match n with
  | NodeText text => [Plain (Some text)]
  | Fragment children => children
  end.

Definition node_text (n : ReactNode) : jsstring :=
  concat (map segment_text (node_segments n)).

(** [keywords]: the names of the hard skills, then those of the soft skills. *)
Definition keywords_of (report : Report) : list jsstring :=
  map skill (skills (hardSkills report)) ++ map skill (skills (softSkills report)).

(** The pattern source
    [`\\b(${keywords.map(kw => kw.replace(...)).join('|')})\\b`]. *)
Definition keywords_pattern (keywords : list jsstring) : jsstring :=
  str "\b(" ++ join (str "|") (map escapeRegExp keywords) ++ str ")\b".

(** [parts.map((part, index) => regex.test(part) ? <mark>{part}</mark> : part)]:
    the one RegExp object, which has the flag g, keeps its [lastIndex] from
    one test to the next. *)
Fixpoint mark_parts (regex : RegExp) (parts : list (option jsstring)) : list segment :=
  match parts with
  | [] => []
  | part :: parts' =>
      let (found, regex') := RegExp_test regex (part_ToString part) in
      (if found then Mark part else Plain part) :: mark_parts regex' parts'
  end.

Definition highlightKeywords (keywords : list jsstring) (text : jsstring) : outcome ReactNode :=
  if (length keywords =? 0) || (length text =? 0) then Returns (NodeText text)
  else
    let* regex := new_RegExp (keywords_pattern keywords) (str "gi") in
    let* parts := String_split text regex in
    Returns (Fragment (mark_parts regex parts)).

(** ** The store: objects with identity

    The program assigns to two fields only: [resumeCount] of a skill and
    [status] of a tip.  Skill and tip objects therefore live in a store, and
    the arrays of a report hold references to them; the report, its sections
    and its arrays are never assigned to and stay values. *)

Abbreviation loc := positive (only parsing).

Inductive object : Type :=
| SkillObject (s : Skill)
| TipObject (t : Tip).

Abbreviation heap := (gmap positive object) (only parsing).

Record TipSectionRef : Type := {
  tips_issues_ref : Z;
  tips_ref : list loc
}.

Record SkillSectionRef : Type := {
  skills_issues_ref : Z;
  skills_ref : list loc
}.

Record ReportRef : Type := {
  searchability_ref : TipSectionRef;
  hardSkills_ref : SkillSectionRef;
  softSkills_ref : SkillSectionRef;
  recruiterTips_ref : TipSectionRef
}.

(** Reading an object through a reference; a reference to nothing, or to an
    object of the other kind, makes the property access throw. *)
Definition read_skill (h : heap) (l : loc) : outcome Skill :=
  match h !! l with
  | Some (SkillObject s) => Returns s
  | _ => Throws
  end.

Definition read_tip (h : heap) (l : loc) : outcome Tip :=
  match h !! l with
  | Some (TipObject t) => Returns t
  | _ => Throws
  end.

(** The value of a report in a store. *)
Definition load_report (h : heap) (r : ReportRef) : outcome Report :=
  let* search := mapM (read_tip h) (tips_ref (searchability_ref r)) in
  let* hard := mapM (read_skill h) (skills_ref (hardSkills_ref r)) in
  let* soft := mapM (read_skill h) (skills_ref (softSkills_ref r)) in
  let* recruiter := mapM (read_tip h) (tips_ref (recruiterTips_ref r)) in
  Returns
    {| searchability := {| tips_issues := tips_issues_ref (searchability_ref r); tips := search |};
       hardSkills := {| skills_issues := skills_issues_ref (hardSkills_ref r); skills := hard |};
       softSkills := {| skills_issues := skills_issues_ref (softSkills_ref r); skills := soft |};
       recruiterTips := {| tips_issues := tips_issues_ref (recruiterTips_ref r);
                           tips := recruiter |} |}.

(** A new object, at a reference that the store does not use yet. *)
Definition alloc (h : heap) (o : object) : loc * heap :=
  let l := fresh (dom h) in (l, <[l := o]> h).

Fixpoint alloc_all (h : heap) (os : list object) : list loc * heap :=
  match os with
  | [] => ([], h)
  | o :: os' =>
      let (l, h1) := alloc h o in
      let (ls, h2) := alloc_all h1 os' in
      (l :: ls, h2)
  end.

(** [JSON.parse(text)] for the text of a report: every object of the result
    is new. *)
Definition JSON_parse (h : heap) (v : Report) : ReportRef * heap :=
  let (search, h1) := alloc_all h (map TipObject (tips (searchability v))) in
  let (hard, h2) := alloc_all h1 (map SkillObject (skills (hardSkills v))) in
  let (soft, h3) := alloc_all h2 (map SkillObject (skills (softSkills v))) in
  let (recruiter, h4) := alloc_all h3 (map TipObject (tips (recruiterTips v))) in
  ({| searchability_ref :=
        {| tips_issues_ref := tips_issues (searchability v); tips_ref := search |};
      hardSkills_ref :=
        {| skills_issues_ref := skills_issues (hardSkills v); skills_ref := hard |};
      softSkills_ref :=
        {| skills_issues_ref := skills_issues (softSkills v); skills_ref := soft |};
      recruiterTips_ref :=
        {| tips_issues_ref := tips_issues (recruiterTips v); tips_ref := recruiter |} |},
   h4).

(** [JSON.parse(JSON.stringify(report))]: [JSON.stringify] reads the report
    (strings and integers are written and read back unchanged). *)
Definition deep_copy (h : heap) (r : ReportRef) : outcome (ReportRef * heap) :=
  let* v := load_report h r in
  Returns (JSON_parse h v).

(** [skills.forEach(skill => { if (skill.resumeCount === -1) ... })] *)
Fixpoint forEach_mark_if_added (optimizedResumeLower : jsstring) (ls : list loc) (h : heap)
    : outcome heap :=
  match ls with
  | [] => Returns h
  | l :: ls' =>
      let* s := read_skill h l in
      if (resumeCount s =? -1)%Z then
        let* skillRegex := new_RegExp (skill_pattern (skill s)) (str "i") in
        if fst (RegExp_test skillRegex optimizedResumeLower)
        then forEach_mark_if_added optimizedResumeLower ls'
               (<[l := SkillObject (set_resumeCount s 1)]> h)
        else forEach_mark_if_added optimizedResumeLower ls' h
      else forEach_mark_if_added optimizedResumeLower ls' h
  end.

(** [tips.forEach(tip => tip.status = 'pass')] *)
Fixpoint forEach_set_pass (ls : list loc) (h : heap) : outcome heap :=
  match ls with
  | [] => Returns h
  | l :: ls' =>
      let* t := read_tip h l in
      forEach_set_pass ls' (<[l := TipObject (set_status t pass)]> h)
  end.

(** [calculateScore] on a report in the store: it only reads. *)
Definition calculateScore_ref (h : heap) (r : ReportRef) : outcome number :=
  let* v := load_report h r in
  Returns (calculateScore v).

(** [calculateOptimizedScore] on a report in the store: the score and the
    store it leaves behind. *)
Definition calculateOptimizedScore_ref (h : heap) (report : ReportRef)
    (optimizedResume : jsstring) : outcome (number * heap) :=
  let* copy := deep_copy h report in   (* Deep copy *)
  let (optimizedReport, h0) := copy : ReportRef * heap in
  let optimizedResumeLower := toLowerCase optimizedResume in
  let* h1 := forEach_mark_if_added optimizedResumeLower
               (skills_ref (hardSkills_ref optimizedReport)) h0 in
  let* h2 := forEach_mark_if_added optimizedResumeLower
               (skills_ref (softSkills_ref optimizedReport)) h1 in
  let* h3 := forEach_set_pass (tips_ref (searchability_ref optimizedReport)) h2 in
  let* h4 := forEach_set_pass (tips_ref (recruiterTips_ref optimizedReport)) h3 in
  let* score := calculateScore_ref h4 optimizedReport in
  Returns (score, h4).

(** ** Definitions used by the proofs about numbers *)

(** Where a fraction [N / D] lies between the integers [m] and [m + 1],
    as a [location] says it: on [m], below, on or above the middle. *)
Definition inb (m : Z) (l : location) (N D : Z) : Prop :=
  match l with
  | loc_Exact => N = m * D
  | loc_Inexact Lt => 2 * m * D < 2 * N < (2 * m + 1) * D
  | loc_Inexact Eq => 2 * N = (2 * m + 1) * D
  | loc_Inexact Gt => (2 * m + 1) * D < 2 * N < (2 * m + 2) * D
  end%Z.

Definition inb_rec (mrs : shr_record) (N D : Z) : Prop :=
  inb (shr_m mrs) (loc_of_shr_record mrs) N D.

(** The integer nearest to [N / D], a tie going to the even one. *)
Definition rne (N D : Z) : Z :=
  let q := (N / D)%Z in
  match (2 * (N mod D) ?= D)%Z with
  | Lt => q
  | Gt => (q + 1)%Z
  | Eq => if Z.even q then q else (q + 1)%Z
  end.

(** Values are counted in units of [2 ^ (- BIAS)], which makes the value of
    every number met below an integer. *)
Definition BIAS : Z := 2200.

Definition fval (x : number) : Z :=
  match x with
  | S754_finite false m e => (Zpos m * 2 ^ (e + BIAS))%Z
  | _ => 0%Z
  end.

Definition expo (x : number) : Z :=
  match x with
  | S754_finite _ _ e => e
  | _ => 0%Z
  end.

(** The positive normal numbers. *)
Definition normal (x : number) : Prop :=
  match x with
  | S754_finite false m e => (2 ^ 52 <= Zpos m < 2 ^ 53 /\ -1074 <= e <= 971)%Z
  | _ => False
  end.

Definition zn (x : number) : Prop := x = S754_zero false \/ normal x.

(** Zero, or a normal number between two powers of two. *)
Definition within (lo hi : Z) (x : number) : Prop :=
  x = S754_zero false \/
  (normal x /\ (2 ^ (lo + BIAS) <= fval x <= 2 ^ (hi + BIAS))%Z).

(** Rounding to nearest, ties to even, at 53 bits: of the fraction [A / B],
    counted in the units of [fval]. *)
Definition RND (A B : Z) : Z :=
  let k := Z.max 0 (Z.log2 (A / B) - 52) in
  (rne A (B * 2 ^ k) * 2 ^ k)%Z.

Definition mk_float (r er : Z) : spec_float :=
  if (r =? 2 ^ 53)%Z then S754_finite false (Z.to_pos (2 ^ 52)) (er + 1)
  else S754_finite false (Z.to_pos r) er.

(** The ratio of a section, [total > 0 ? (passed / total) : 1], from the two
    lengths. *)
Definition ratio (passed total : nat) : number :=
  if fgt (number_of_nat total) (number_of_Z 0)
  then fdiv (number_of_nat passed) (number_of_nat total) else number_of_Z 1.

(** The final score from the four ratios. *)
Definition weighted_score (s h t r : number) : number :=
  Math_round
    (fmul (fadd (fadd (fadd (fmul s WEIGHTS.searchability) (fmul h WEIGHTS.hardSkills))
                      (fmul t WEIGHTS.softSkills))
                (fmul r WEIGHTS.recruiterTips))
          (number_of_Z 100)).

(** The same computation on values: every operation is the exact one
    followed by [RND]. *)
Definition weighted_value (s h t r : Z) : Z :=
  let p1 := RND (s * fval WEIGHTS.searchability) (2 ^ BIAS) in
  let p2 := RND (h * fval WEIGHTS.hardSkills) (2 ^ BIAS) in
  let p3 := RND (t * fval WEIGHTS.softSkills) (2 ^ BIAS) in
  let p4 := RND (r * fval WEIGHTS.recruiterTips) (2 ^ BIAS) in
  let finalScore := RND (RND (RND (p1 + p2) 1 + p3) 1 + p4) 1 in
  RND (finalScore * fval (number_of_Z 100)) (2 ^ BIAS).

(** [floor (v + 1/2)] for a value [v]. *)
Definition round_value (v : Z) : Z := ((2 * v + 2 ^ BIAS) / 2 ^ (BIAS + 1))%Z.

(** A report a JavaScript engine can hold: the length of an array is below
    [2^32]. *)
Definition array_ok {A : Type} (l : list A) : Prop := (Z.of_nat (length l) < 2 ^ 32)%Z.

Definition report_ok (r : Report) : Prop :=
  array_ok (tips (searchability r)) /\ array_ok (skills (hardSkills r)) /\
  array_ok (skills (softSkills r)) /\ array_ok (tips (recruiterTips r)).

(** ** Definitions used by the proofs about patterns *)

(** The characters of [kw] stand at index [i] of [S], up to [Canonicalize]. *)
Fixpoint literal_at (ic : bool) (kw S : jsstring) (i : nat) : bool :=
  match kw with
  | [] => true
  | c :: kw' =>
      match nth_error S i with
      | Some d => (Canonicalize ic d =? Canonicalize ic c)%N && literal_at ic kw' S (Datatypes.S i)
      | None => false
      end
  end.

(** The assertion \b at index [i]. *)
Definition is_boundary (S : jsstring) (i : nat) : bool :=
  xorb (IsWordChar_before S i) (IsWordChar S i).

(** A pattern without capturing groups. *)
Fixpoint nogroup (r : regex) : Prop :=
  match r with
  | Empty | Char _ | WordBoundary => True
  | Seq r1 r2 | Alt r1 r2 => nogroup r1 /\ nogroup r2
  | Group _ _ => False
  end.

(** Two RegExp objects for the same pattern and flags. *)
Definition same_regex (R R' : RegExp) : Prop :=
  pattern R = pattern R' /\ ngroups R = ngroups R' /\ global R = global R' /\
  ignoreCase R = ignoreCase R' /\ sticky R = sticky R'.

(** The RegExp object that [new RegExp(skill_pattern kw, 'i')] returns. *)
Definition skill_regex (kw : jsstring) : RegExp :=
  {| pattern := seq_of (WordBoundary :: map Char kw ++ [WordBoundary]); ngroups := 0;
     global := false; ignoreCase := true; sticky := false; lastIndex := 0 |}.

(** ** What the pattern \bname\b finds

    At some index the text reads as the name, letter case apart, and the
    assertion \b holds at both ends of that occurrence.  \b holds at an
    index when exactly one of the two characters around it is an ASCII
    letter, a digit or an underscore, so this is not the whole word of
    everyday language: C++ is not found in "We use C++ daily", and a name
    is found inside a longer word whose next letter carries a diacritic. *)
Definition same_letter (a b : ascii) : Prop := Canonicalize true a = Canonicalize true b.

Definition boundary_match_at (kw text : jsstring) (i : nat) : Prop :=
  is_boundary text i = true
  /\ Forall2 same_letter (substring text i (i + length kw)) kw
  /\ is_boundary text (i + length kw) = true.

Definition occurs_between_boundaries (kw text : jsstring) : Prop :=
  exists i, boundary_match_at kw text i.

(** Every successful attempt of [R] on [S] ends inside [S], and the
    captures, put together, are the text that was matched. *)
Definition captures_match (R : RegExp) (S : jsstring) : Prop :=
  forall q e caps, q <= length S -> match_at R S q = Some (e, caps) ->
    q <= e <= length S /\ concat (map part_text caps) = substring S q e.

(** ** Definitions used by the proofs about the optimized score *)

(** What the body of the [forEach] over the skills leaves in a skill. *)
Definition marked (optimizedResumeLower : jsstring) (s : Skill) : Skill :=
  if (resumeCount s =? -1)%Z
     && fst (RegExp_test (skill_regex (skill s)) optimizedResumeLower)
  then set_resumeCount s 1 else s.

(** The copy of the report when the four loops are done. *)
Definition optimized_copy (report : Report) (optimizedResume : jsstring) : Report :=
  let lower := toLowerCase optimizedResume in
  {| searchability :=
       {| tips_issues := tips_issues (searchability report);
          tips := map (fun tip => set_status tip pass) (tips (searchability report)) |};
     hardSkills :=
       {| skills_issues := skills_issues (hardSkills report);
          skills := map (marked lower) (skills (hardSkills report)) |};
     softSkills :=
       {| skills_issues := skills_issues (softSkills report);
          skills := map (marked lower) (skills (softSkills report)) |};
     recruiterTips :=
       {| tips_issues := tips_issues (recruiterTips report);
          tips := map (fun tip => set_status tip pass) (tips (recruiterTips report)) |} |}.

(** ** The copy, entry by entry

    A skill entry of the copy, against the entry of the report it comes
    from: an entry that is missing ([resumeCount = -1]) and whose pattern
    \bname\b finds something in the text gets [resumeCount = 1]; every
    other entry is unchanged. *)
Definition skill_updated (text : jsstring) (s s' : Skill) : Prop :=
  skill s' = skill s /\ jdCount s' = jdCount s /\
  (resumeCount s = (-1)%Z -> occurs_between_boundaries (skill s) text -> resumeCount s' = 1%Z) /\
  (resumeCount s = (-1)%Z -> ~ occurs_between_boundaries (skill s) text -> resumeCount s' = (-1)%Z) /\
  (resumeCount s <> (-1)%Z -> resumeCount s' = resumeCount s).

(** A tip of the copy: the status is forced to pass, the rest is kept. *)
Definition tip_forced (t t' : Tip) : Prop :=
  name t' = name t /\ message t' = message t /\ status t' = pass.

(** ** Definitions used by the proofs about the store *)

(** The references [ls] hold the objects [os]. *)
Definition cells_at (h : gmap positive object) (ls : list positive) (os : list object) : Prop :=
  Forall2 (fun l o => h !! l = Some o) ls os.

(** All the references of a report. *)
Definition refs_of (r : ReportRef) : list positive :=
  tips_ref (searchability_ref r) ++ skills_ref (hardSkills_ref r)
  ++ skills_ref (softSkills_ref r) ++ tips_ref (recruiterTips_ref r).

(** ** The specification of the score, in its own words

    The score in exact arithmetic: the ratios are fractions, the weights are
    30, 45, 10 and 15 hundredths, and the result is [100] times the weighted
    sum, rounded half up. *)
Definition exact_ratio (passed total : nat) : Q :=
  if (total =? 0)%nat then 1%Q else (Z.of_nat passed # Pos.of_nat total)%Q.

Definition round_half_up (x : Q) : Z := Qfloor (x + (1 # 2))%Q.

Definition spec_computeScore (r : Report) : Z :=
  let s := exact_ratio (length (List.filter tip_passed (tips (searchability r))))
                       (length (tips (searchability r))) in
  let h := exact_ratio (length (List.filter skill_found (skills (hardSkills r))))
                       (length (skills (hardSkills r))) in
  let t := exact_ratio (length (List.filter skill_found (skills (softSkills r))))
                       (length (skills (softSkills r))) in
  let c := exact_ratio (length (List.filter tip_passed (tips (recruiterTips r))))
                       (length (tips (recruiterTips r))) in
  round_half_up (100 * (s * (30 # 100) + h * (45 # 100) + t * (10 # 100) + c * (15 # 100)))%Q.

(** The value of the ratio of a section: the quotient of the two lengths,
    rounded. *)
Definition ratio_value (passed total : nat) : Z :=
  if (total =? 0)%nat then (2 ^ BIAS)%Z
  else RND (Z.of_nat passed * 2 ^ BIAS) (Z.of_nat total).

(** ** Reports and stores of the examples *)

Definition skill_entry (n : string) (resume jd : Z) : Skill :=
  {| skill := str n; resumeCount := resume; jdCount := jd |}.

Definition tip_entry (n : string) (st : Status) : Tip :=
  {| name := str n; status := st; message := str "" |}.

Definition empty_tips (issues : Z) : TipSection := {| tips_issues := issues; tips := [] |}.
Definition empty_skills (issues : Z) : SkillSection := {| skills_issues := issues; skills := [] |}.

(** The report of the example of the specification: Python is missing, SQL
    is found, the other sections are empty. *)
Definition example_report (i1 i2 i3 i4 : Z) : Report :=
  {| searchability := empty_tips i1;
     hardSkills := {| skills_issues := i2;
                      skills := [skill_entry "Python" (-1) 3; skill_entry "SQL" 2 1] |};
     softSkills := empty_skills i3;
     recruiterTips := empty_tips i4 |}.

(** One hard skill found out of three, one recruiter tip passed out of two:
    the exact score is 62.5. *)
Definition half_report : Report :=
  {| searchability := empty_tips 0;
     hardSkills := {| skills_issues := 2;
                      skills := [skill_entry "Go" 1 1; skill_entry "Rust" (-1) 1;
                                 skill_entry "Scala" (-1) 1] |};
     softSkills := empty_skills 0;
     recruiterTips := {| tips_issues := 1;
                         tips := [tip_entry "Job title" pass; tip_entry "Word count" warning] |} |}.

(** A report whose counts are not counts. *)
Definition negative_report : Report :=
  {| searchability := {| tips_issues := -4; tips := [tip_entry "Contact" fail] |};
     hardSkills := {| skills_issues := -1;
                      skills := [skill_entry "Python" (-7) (-3); skill_entry "SQL" (-1) (-2)] |};
     softSkills := empty_skills (-9);
     recruiterTips := empty_tips 0 |}.

(** Every section filled and passing. *)
Definition passing_report : Report :=
  {| searchability := {| tips_issues := 0; tips := [tip_entry "Contact" pass; tip_entry "Date" info] |};
     hardSkills := {| skills_issues := 0; skills := [skill_entry "SQL" 2 1] |};
     softSkills := {| skills_issues := 0; skills := [skill_entry "Teamwork" 0 1] |};
     recruiterTips := {| tips_issues := 0; tips := [tip_entry "Job title" pass] |} |}.

(** The report of the example, in a store. *)
Definition example_heap : gmap positive object :=
  <[2%positive := SkillObject (skill_entry "SQL" 2 1)]>
    (<[1%positive := SkillObject (skill_entry "Python" (-1) 3)]> ∅).

Definition example_ref : ReportRef :=
  {| searchability_ref := {| tips_issues_ref := 0; tips_ref := [] |};
     hardSkills_ref := {| skills_issues_ref := 1; skills_ref := [1%positive; 2%positive] |};
     softSkills_ref := {| skills_issues_ref := 0; skills_ref := [] |};
     recruiterTips_ref := {| tips_issues_ref := 0; tips_ref := [] |} |}.

(** ** Definitions used by the further properties of the score *)

(** Every entry of a list listed [c] times. *)
Definition repeated {A : Type} (c : nat) (l : list A) : list A :=
  flat_map (fun a => repeat a c) l.

Definition repeated_report (c : nat) (r : Report) : Report :=
  {| searchability := {| tips_issues := tips_issues (searchability r);
                         tips := repeated c (tips (searchability r)) |};
     hardSkills := {| skills_issues := skills_issues (hardSkills r);
                      skills := repeated c (skills (hardSkills r)) |};
     softSkills := {| skills_issues := skills_issues (softSkills r);
                      skills := repeated c (skills (softSkills r)) |};
     recruiterTips := {| tips_issues := tips_issues (recruiterTips r);
                         tips := repeated c (tips (recruiterTips r)) |} |}.

(** An entry that counts for the score in one report counts in the other. *)
Definition tip_improved (t t' : Tip) : Prop := tip_passed t = true -> tip_passed t' = true.
Definition skill_improved (s s' : Skill) : Prop := skill_found s = true -> skill_found s' = true.

(** The report of the example with its two hard skills in the other order
    and other issue counts. *)
Definition swapped_report : Report :=
  {| searchability := empty_tips 5;
     hardSkills := {| skills_issues := 7;
                      skills := [skill_entry "SQL" 2 1; skill_entry "Python" (-1) 3] |};
     softSkills := empty_skills 0;
     recruiterTips := empty_tips 0 |}.

(** ** More strings: [indexOf], [includes], [replace], [trim] *)

Fixpoint starts_with (pat s : jsstring) : bool :=
  match pat, s with
  | [], _ => true
  | _ :: _, [] => false
  | c :: pat', d :: s' => Ascii.eqb c d && starts_with pat' s'
  end.

(** [s.indexOf(pat)]: the first index at which [pat] stands, [None] for -1. *)
Fixpoint String_indexOf (s pat : jsstring) : option nat :=
  if starts_with pat s then Some 0
  else match s with
       | [] => None
       | _ :: s' => option_map Datatypes.S (String_indexOf s' pat)
       end.

(** [s.includes(pat)] *)
Definition String_includes (s pat : jsstring) : bool :=
  match String_indexOf s pat with
  | Some _ => true
  | None => false
  end.

(** [GetSubstitution] for a string pattern (no captures): in the replacement,
    $$ is a dollar, $& the match, $` what precedes it and $' what follows
    it; every other character stands for itself. *)
Fixpoint GetSubstitution (matched preceding following replacement : jsstring) : jsstring :=
  match replacement with
  | [] => []
  | c :: rest =>
      if Ascii.eqb c "$" then
        match rest with
        | d :: rest' =>
            if Ascii.eqb d "$" then "$"%char :: GetSubstitution matched preceding following rest'
            else if Ascii.eqb d "&" then matched ++ GetSubstitution matched preceding following rest'
            else if Ascii.eqb d "`" then preceding ++ GetSubstitution matched preceding following rest'
            else if Ascii.eqb d "'" then following ++ GetSubstitution matched preceding following rest'
            else c :: GetSubstitution matched preceding following rest
        | [] => [c]
        end
      else c :: GetSubstitution matched preceding following rest
  end.

(** [s.replace(pat, replacement)] with a string pattern: the first
    occurrence only. *)
Definition String_replace (s pat replacement : jsstring) : jsstring :=
  match String_indexOf s pat with
  | None => s
  | Some pos =>
      let preceding := firstn pos s in
      let following := skipn (pos + length pat) s in
      preceding ++ GetSubstitution pat preceding following replacement ++ following
  end.

(** White space and line terminators among the code units below 256: tab,
    line feed, vertical tab, form feed, carriage return, space and the
    no-break space. *)
Definition isWhiteSpace (c : ascii) : bool :=
  let n := code c in between 9 13 n || (n =? 32)%N || (n =? 160)%N.

Fixpoint trimStart (s : jsstring) : jsstring :=
  match s with
  | [] => []
  | c :: s' => if isWhiteSpace c then trimStart s' else s
  end.

Definition trimEnd (s : jsstring) : jsstring := rev (trimStart (rev s)).

(** [s.trim()] *)
Definition trim (s : jsstring) : jsstring := trimEnd (trimStart s).

(** [!s] for a string: true for the empty string only. *)
Definition falsy (s : jsstring) : bool :=
  match s with
  | [] => true
  | _ :: _ => false
  end.

(** ** The results page ([ResultsStep]) *)

Definition fsub : number -> number -> number := SFsub prec emax.

(** [Math.PI] *)
Definition Math_PI : number := S754_finite false 7074237752028440 (-51).

Inductive Size : Type := large | small.

Definition colorClassMap (c : Color) : jsstring :=
  match c with
  | yellow => str "text-yellow-400"
  | green => str "text-green-500"
  | red => str "text-red-500"
  end.

(** What [CircularProgressBar] computes for the ring it draws. *)
Record Ring : Type := {
  radius : number;
  strokeWidth : number;
  circumference : number;
  offset : number;
  color : Color;
  colorClass : jsstring
}.

Definition CircularProgressBar (score : number) (size : Size) : Ring :=
  let isLarge := match size with large => true | small => false end in
  let radius := if isLarge then number_of_Z 50 else number_of_Z 20 in
  let strokeWidth := if isLarge then number_of_Z 10 else number_of_Z 4 in
  let circumference := fmul (fmul (number_of_Z 2) Math_PI) radius in
  let offset := fsub circumference (fmul (fdiv score (number_of_Z 100)) circumference) in
  let color := getScoreColor score in
  {| radius := radius; strokeWidth := strokeWidth; circumference := circumference;
     offset := offset; color := color; colorClass := colorClassMap color |}.

Inductive Icon : Type := CheckCircleIcon | XCircleIcon | ExclamationTriangleIcon.

(** [a === b] on strings. *)
Definition strict_equal (a b : jsstring) : bool :=
  if List.list_eq_dec ascii_dec a b then true else false.

(** The string that a status is at run time. *)
Definition status_text (st : Status) : jsstring :=
  match st with
  | pass => str "pass"
  | fail => str "fail"
  | info => str "info"
  | warning => str "warning"
  end.

(** [StatusIcon]: the icon and its class name.  The component switches on
    the string it is given, which comes from the parsed JSON of the
    analysis; the [default] branch returns null. *)
Definition StatusIcon (status : jsstring) : option (Icon * jsstring) :=
  if strict_equal status (str "pass") || strict_equal status (str "info")
  then Some (CheckCircleIcon, str "w-6 h-6 text-green-500 flex-shrink-0")
  else if strict_equal status (str "fail")
  then Some (XCircleIcon, str "w-6 h-6 text-red-500 flex-shrink-0")
  else if strict_equal status (str "warning")
  then Some (ExclamationTriangleIcon, str "w-6 h-6 text-yellow-500 flex-shrink-0")
  else None.

(** The icons of a list of tips, one per tip, in order. *)
Definition tip_icons (l : list Tip) : list (option (Icon * jsstring)) :=
  map (fun tip => StatusIcon (status_text (status tip))) l.

(** The cell "In Resume" of a row of a skill table. *)
Definition skill_icon (s : Skill) : Icon * jsstring :=
  if (resumeCount s =? -1)%Z
  then (XCircleIcon, str "w-6 h-6 text-red-500 inline-block")
  else (CheckCircleIcon, str "w-6 h-6 text-green-500 inline-block").

Definition skill_icons (l : list Skill) : list (Icon * jsstring) := map skill_icon l.

Definition is_check (i : Icon) : bool :=
  match i with
  | CheckCircleIcon => true
  | _ => false
  end.

Definition shows_check (e : option (Icon * jsstring)) : bool :=
  match e with
  | Some (i, _) => is_check i
  | None => false
  end.

(** The entries of the side navigation. *)
Record NavItem : Type := {
  item_name : jsstring;
  item_issues : Z
}.

Definition sideNavItems (report : Report) : list NavItem :=
  [ {| item_name := str "Searchability"; item_issues := tips_issues (searchability report) |};
    {| item_name := str "Hard Skills"; item_issues := skills_issues (hardSkills report) |};
    {| item_name := str "Soft Skills"; item_issues := skills_issues (softSkills report) |};
    {| item_name := str "Recruiter Tips"; item_issues := tips_issues (recruiterTips report) |} ].

(** [`#${item.name.toLowerCase().replace(' ', '-')}`] *)
Definition item_href (item : NavItem) : jsstring :=
  str "#" ++ String_replace (toLowerCase (item_name item)) (str " ") (str "-").

(** The [id]s of the five [SectionCard]s of the page. *)
Definition section_ids : list jsstring :=
  [str "searchability"; str "hard-skills"; str "soft-skills"; str "recruiter-tips";
   str "optimized-resume"].

(** The two [useMemo] values: 0 when there is no analysis result. *)
Definition originalScore (analysisResult : option AnalysisResult) : number :=
  match analysisResult with
  | None => number_of_Z 0
  | Some a => calculateScore (report a)
  end.

Definition optimizedScore (analysisResult : option AnalysisResult) : outcome number :=
  match analysisResult with
  | None => Returns (number_of_Z 0)
  | Some a => calculateOptimizedScore (report a) (optimizedResume a)
  end.

(** The class of the original score: red when its colour is red. *)
Definition originalScore_class (score : number) : jsstring :=
  match getScoreColor score with
  | red => str "text-red-500"
  | _ => str "text-gray-700"
  end.

(** The number of occurrences of a code unit. *)
Definition count_unit (c : ascii) (s : jsstring) : nat :=
  length (List.filter (Ascii.eqb c) s).

(** ** The scan ([App], [NewScanModal]) *)

(** The progress bar while the request runs: [steps] is 6000 / 50 and
    [progressIncrement] is 90 / steps. *)
Definition simulationDuration : number := number_of_Z 6000.
Definition updateInterval : number := number_of_Z 50.
Definition steps : number := fdiv simulationDuration updateInterval.
Definition progressIncrement : number := fdiv (number_of_Z 90) steps.

(** The updater that the progress interval passes to [setProgress]: the next
    progress, and whether the interval is cleared. *)
Definition progress_update (oldProgress : number) : number * bool :=
  let newProgress := fadd oldProgress progressIncrement in
  if fge newProgress (number_of_Z 90) then (number_of_Z 90, true)
  else (newProgress, false).

(** The progress after [n] periods of the interval, from [p]; a cleared
    interval does not fire again. *)
Fixpoint progress_after (n : nat) (p : number) : number * bool :=
  match n with
  | O => (p, false)
  | Datatypes.S n' =>
      let (p', cleared) := progress_update p in
      if cleared then (p', true) else progress_after n' p'
  end.

Definition loadingMessages : list jsstring :=
  [str "Parsing resume text..."; str "Analyzing job description...";
   str "Identifying key skills..."; str "Checking for ATS compatibility...";
   str "Generating optimizations..."; str "Rewriting resume sections...";
   str "Finalizing your report..."].

(** The state of the text interval: [messageIndex], the text shown
    ([None] for undefined) and whether the interval is cleared. *)
Record TextState : Type := {
  messageIndex : nat;
  loadingText : option jsstring;
  text_cleared : bool
}.

Definition text_start : TextState :=
  {| messageIndex := 0; loadingText := nth_error loadingMessages 0; text_cleared := false |}.

Definition text_tick (s : TextState) : TextState :=
  if text_cleared s then s
  else
    let i := Datatypes.S (messageIndex s) in
    if i <? length loadingMessages
    then {| messageIndex := i; loadingText := nth_error loadingMessages i;
            text_cleared := false |}
    else {| messageIndex := i; loadingText := loadingText s; text_cleared := true |}.

Fixpoint text_after (n : nat) (s : TextState) : TextState :=
  match n with
  | O => s
  | Datatypes.S n' => text_after n' (text_tick s)
  end.

(** A thrown value: an [Error] object with its message, or something else. *)
Inductive thrown : Type :=
| ErrorObject (message : jsstring)
| OtherValue.

(** The catch clause of [optimizeResume]: it always throws an [Error]; this
    is its message. *)
Definition optimizeResume_catch (error : thrown) : jsstring :=
  match error with
  | ErrorObject m =>
      let message :=
        if String_includes m (str "JSON")
        then str "The model returned an invalid analysis structure. Please try again."
        else if String_includes m (str "API_KEY")
        then str "Invalid API Key provided."
        else m in
      str "An error occurred while processing your request. Details: " ++ message
  | OtherValue => str "An unknown error occurred while processing your request."
  end.

(** The catch clause of [handleScan]: the text it passes to [setError]. *)
Definition handleScan_catch (e : thrown) : jsstring :=
  let errorMessage :=
    match e with
    | ErrorObject m => m
    | OtherValue => str "An unknown error occurred."
    end in
  str "Analysis failed. " ++ String_replace errorMessage (str "Error: ") [].

(** What the user reads when the request fails with [error]. *)
Definition scan_error_shown (error : thrown) : jsstring :=
  handleScan_catch (ErrorObject (optimizeResume_catch error)).

Inductive Language : Type := pt | en | es.

(** [handleScanClick]: an error message, or the call of [onScan]. *)
Inductive ScanClick : Type :=
| SetError (message : jsstring)
| OnScan (jobDescription resumeText : jsstring) (jobLanguage : Language).

Definition handleScanClick (resumeText jobDescription : jsstring) (jobLanguage : Language)
    : ScanClick :=
  if falsy (trim resumeText) || falsy (trim jobDescription)
  then SetError (str "Please provide both a resume and a job description.")
  else OnScan jobDescription resumeText jobLanguage.

(** The [disabled] attribute of the Scan button. *)
Definition scan_disabled (resumeText jobDescription : jsstring) : bool :=
  falsy (trim resumeText) || falsy (trim jobDescription).

(** Whether [handleScan] starts a scan: it returns at once when one of the
    two texts is empty. *)
Definition handleScan_starts (jobDescription resumeText : jsstring) : bool :=
  negb (falsy jobDescription || falsy resumeText).

(** The loop over the pages of a PDF file in [handleFileChange]: [pages]
    holds, for the pages [i], [i + 1], ... [numPages], the [str] of their
    text items. *)
Fixpoint pages_loop (pages : list (list jsstring)) (i numPages : nat) (textContent : jsstring)
    : jsstring :=
  match pages with
  | [] => textContent
  | items :: pages' =>
      let textContent1 := textContent ++ join (str " ") items in
      let textContent2 :=
        if i <? numPages then textContent1 ++ ["010"%char; "010"%char] else textContent1 in
      pages_loop pages' (Datatypes.S i) numPages textContent2
  end.

Definition pdf_text (pages : list (list jsstring)) : jsstring :=
  pages_loop pages 1 (length pages) [].

(** ** Definitions used by the proofs about the results page *)

(** For the score [z] (and every score [z'] from [z] to 100): the offset of
    the ring lies between 0 and the circumference, and it does not grow with
    the score. *)
Definition ring_row_ok (size : Size) (z : nat) : bool :=
  let r := CircularProgressBar (number_of_nat z) size in
  fge (offset r) (number_of_Z 0) && fge (circumference r) (offset r)
  && forallb (fun z' => fge (offset r) (offset (CircularProgressBar (number_of_nat z') size)))
       (seq z (101 - z)).

(** The colour of the integral score [z] is the one its thresholds give. *)
Definition color_row_ok (z : nat) : bool :=
  match getScoreColor (number_of_nat z) with
  | green => 90 <=? z
  | yellow => (75 <=? z) && (z <? 90)
  | red => z <? 75
  end.

(** An analysis result whose report a JavaScript engine can hold, or none. *)
Definition analysis_ok (analysisResult : option AnalysisResult) : Prop :=
  match analysisResult with
  | Some a => report_ok (report a)
  | None => True
  end.

Definition example_analysis : AnalysisResult :=
  {| report := half_report; optimizedResume := str "Go, Rust and more" |}.

(** ** Definitions used by the proofs about the scan *)

(** The progress after [n] periods, in closed form: three quarters of a
    point per period up to the 120th, which reaches 90 and clears the
    interval. *)
Definition progress_spec (n : nat) : number * bool :=
  (fdiv (number_of_Z (3 * Z.of_nat (Nat.min n 120))) (number_of_Z 4), 120 <=? n).

(** The state of the loading text after [n] periods, in closed form. *)
Definition text_spec (n : nat) : TextState :=
  {| messageIndex := Nat.min n 7;
     loadingText := nth_error loadingMessages (Nat.min n 6);
     text_cleared := 7 <=? n |}.

(** The fixed texts of the error messages. *)
Definition details_prefix : jsstring :=
  str "An error occurred while processing your request. Details: ".

Definition invalid_structure : jsstring :=
  str "The model returned an invalid analysis structure. Please try again.".

Definition invalid_key : jsstring := str "Invalid API Key provided.".

(** ** Definitions used by the proofs about the marks of the highlighter *)

(** The pattern of one keyword, and the disjunction of the keywords. *)
Definition literal (kw : jsstring) : regex := seq_of (map Char kw).

Definition alts_of (ks : list jsstring) : regex :=
  match ks with
  | [] => Empty
  | k :: ks' => alt_of (literal k) (map literal ks')
  end.

(** The RegExp object that [new RegExp(keywords_pattern ks, 'gi')] returns. *)
Definition keywords_regex (ks : list jsstring) : RegExp :=
  {| pattern := Seq WordBoundary (Seq (Group 0 (alts_of ks)) (Seq WordBoundary Empty));
     ngroups := 1; global := true; ignoreCase := true; sticky := false; lastIndex := 0 |}.

(** One keyword at index [i], then the continuation; the keywords in their
    order, the first one that succeeds with its continuation winning. *)
Definition try_kw {X : Type} (kw S : jsstring) (i : nat) (k : nat -> option X) : option X :=
  if literal_at true kw S i then k (i + length kw) else None.

Fixpoint first_match {X : Type} (ks : list jsstring) (S : jsstring) (i : nat)
    (k : nat -> option X) : option X :=
  match ks with
  | [] => None
  | kw :: ks' =>
      match try_kw kw S i k with
      | Some z => Some z
      | None => first_match ks' S i k
      end
  end.

(** The end of the match of the keywords at index [q], if there is one:
    a word boundary, a keyword, a word boundary. *)
Definition kw_match (ks : list jsstring) (S : jsstring) (q : nat) : option nat :=
  if is_boundary S q
  then first_match ks S q (fun j => if is_boundary S j then Some j else None)
  else None.

(** A keyword that begins and ends with a word character. *)
Definition word_edges (kw : jsstring) : Prop :=
  (exists c, head kw = Some c /\ WordCharacters c = true)
  /\ (exists d, last kw = Some d /\ WordCharacters d = true).

(** The pieces of [S] from index [p] on, as [split] cuts them: the text up
    to the first match, the match, and so on. *)
Inductive split_from (ks : list jsstring) (S : jsstring) : nat -> list (option jsstring) -> Prop :=
| split_end p :
    (forall q, p <= q < length S -> kw_match ks S q = None) ->
    split_from ks S p [Some (substring S p (length S))]
| split_step p q e parts :
    p <= q < length S ->
    (forall q', p <= q' < q -> kw_match ks S q' = None) ->
    kw_match ks S q = Some e ->
    split_from ks S e parts ->
    split_from ks S p (Some (substring S p q) :: Some (substring S q e) :: parts).

(** The pieces with every second one marked. *)
Fixpoint marks (parts : list (option jsstring)) : list segment :=
  match parts with
  | [] => []
  | [t] => [Plain t]
  | t :: m :: rest => Plain t :: Mark m :: marks rest
  end.

(** A piece starts at the start of the text or right after a match. *)
Definition start_ok (S : jsstring) (p : nat) : Prop :=
  p = 0 \/ (IsWordChar_before S p = true /\ IsWordChar S p = false).

(** ** The specification of the highlighter, in its own words *)

(** The fragment: plain text and marked keyword in turn, then the rest. *)
Definition pieces_segments (pieces : list (jsstring * jsstring)) (rest : jsstring)
    : list segment :=
  flat_map (fun tm => [Plain (Some (fst tm)); Mark (Some (snd tm))]) pieces
  ++ [Plain (Some rest)].

(** [m] is one of the keywords, letter case apart. *)
Definition is_keyword (ks : list jsstring) (m : jsstring) : Prop :=
  exists kw, In kw ks /\ Forall2 same_letter m kw.

(** No keyword stands in [t] between two word boundaries of the pattern. *)
Definition no_keyword (ks : list jsstring) (t : jsstring) : Prop :=
  forall kw, In kw ks -> ~ occurs_between_boundaries kw t.

(** ** Definitions used by the proofs about the accuracy of the score *)

(** A value that is zero or not small. *)
Definition bigz (v : Z) : Prop := (v = 0 \/ 2 ^ (BIAS - 36) <= v)%Z.

(** The relative error of one rounding, and the bound on the error of the
    score. *)
Definition eps : Q := 1 # 9007199254740992.
Definition accuracy : Q := 1 # 1099511627776.

(** The exact value that [spec_computeScore] rounds. *)
Definition exact_value (r : Report) : Q :=
  let s := exact_ratio (length (List.filter tip_passed (tips (searchability r))))
                       (length (tips (searchability r))) in
  let h := exact_ratio (length (List.filter skill_found (skills (hardSkills r))))
                       (length (skills (hardSkills r))) in
  let t := exact_ratio (length (List.filter skill_found (skills (softSkills r))))
                       (length (skills (softSkills r))) in
  let c := exact_ratio (length (List.filter tip_passed (tips (recruiterTips r))))
                       (length (tips (recruiterTips r))) in
  (100 * (s * (30 # 100) + h * (45 # 100) + t * (10 # 100) + c * (15 # 100)))%Q.

(** ** A whole word, in the words of the specification

    A case-insensitive whole-word occurrence of a name in a text: at some
    index the text reads as the name, letter case apart, and the occurrence
    is not part of a longer word, that is, the character before it, if there
    is one, and the character after it, if there is one, are not letters,
    digits or underscores.  The letters of the strings modelled here are A
    to Z, a to z, the letters from U+00C0 to U+00FF (all but the signs
    U+00D7 and U+00F7), and U+00AA, U+00B5, U+00BA. *)
Definition is_letter (c : ascii) : bool :=
  let n := code c in
  between 65 90 n || between 97 122 n || between 192 214 n || between 216 246 n
  || between 248 255 n || (n =? 170)%N || (n =? 181)%N || (n =? 186)%N.

Definition is_word_unit (c : ascii) : bool :=
  let n := code c in
  is_letter c || between 48 57 n || (n =? 95)%N.

(** Two characters that are the same, letter case apart. *)
Definition same_ignoring_case (a b : ascii) : bool :=
  Ascii.eqb (toLowerCase_unit a) (toLowerCase_unit b).

(** [t] begins with [kw], letter case apart. *)
Fixpoint reads_as (t kw : jsstring) {struct kw} : bool :=
  match kw, t with
  | [], _ => true
  | k :: kw', c :: t' => same_ignoring_case c k && reads_as t' kw'
  | _ :: _, [] => false
  end.

(** The character before index [i], if there is one. *)
Definition unit_before (text : jsstring) (i : nat) : option ascii :=
  match i with
  | O => None
  | S j => nth_error text j
  end.

(** No character, or one outside the class [w]. *)
Definition outside (w : ascii -> bool) (o : option ascii) : bool :=
  match o with
  | Some c => negb (w c)
  | None => true
  end.

(** [kw] occurs in [text] at index [i], with no character of the class [w]
    right before or right after it. *)
Definition delimited_at (w : ascii -> bool) (kw text : jsstring) (i : nat) : bool :=
  reads_as (skipn i text) kw
  && outside w (unit_before text i)
  && outside w (nth_error text (i + length kw)).

Definition occurs_delimited (w : ascii -> bool) (kw text : jsstring) : bool :=
  existsb (delimited_at w kw text) (seq 0 (S (length text))).

(** The whole word of the specification. *)
Definition occurs_as_whole_word (kw text : jsstring) : bool :=
  occurs_delimited is_word_unit kw text.

(** The same with the ASCII letters only: no ASCII letter, digit or
    underscore right before or right after the occurrence. *)
Definition occurs_between_ascii (kw text : jsstring) : bool :=
  occurs_delimited WordCharacters kw text.

(** ** Inputs on which the pattern and the whole word differ *)

(** One missing hard skill, the other sections empty. *)
Definition one_skill_report (skill : string) (resumeCount : Z) : Report :=
  {| searchability := empty_tips 0;
     hardSkills := {| skills_issues := 1; skills := [skill_entry skill resumeCount 1] |};
     softSkills := empty_skills 0;
     recruiterTips := empty_tips 0 |}.

(** The Portuguese word for excellence: "excel", then e with a circumflex
    (U+00EA), then "ncia". *)
Definition excelencia : jsstring := str "excel" ++ ["234"%char] ++ str "ncia".

(** A sentence of a resume in Portuguese. *)
Definition busca_excelencia : jsstring := str "Busca de " ++ excelencia.

(** ** The copy, for a name with word characters at both ends *)

(** A missing entry whose name begins and ends with an ASCII letter, a
    digit or an underscore gets [resumeCount = 1] when the name occurs in
    the text with no such character right before or right after it, and
    keeps -1 when it does not. *)
Definition skill_searched (text : jsstring) (s s' : Skill) : Prop :=
  resumeCount s = (-1)%Z -> word_edges (skill s) ->
  resumeCount s' = if occurs_between_ascii (skill s) text then 1%Z else (-1)%Z.

Local Open Scope Z_scope.

Lemma BIAS_eq : BIAS = 2200.
Proof. reflexivity. Qed.

Lemma pow2_pos k : 0 <= k -> 0 < 2 ^ k.
Proof. intros. apply Z.pow_pos_nonneg; lia. Qed.

Lemma pow2_split a b : 0 <= a -> 0 <= b -> 2 ^ (a + b) = 2 ^ a * 2 ^ b.
Proof. intros. apply Z.pow_add_r; lia. Qed.

Lemma pow2_le a b : a <= b -> 2 ^ a <= 2 ^ b.
Proof. intros. apply Z.pow_le_mono_r; lia. Qed.

Lemma pow2_lt a b : 0 <= a < b -> 2 ^ a < 2 ^ b.
Proof. intros. apply Z.pow_lt_mono_r; lia. Qed.

Lemma inb_floor m l N D : 0 < D -> inb m l N D -> m * D <= N < (m + 1) * D.
Proof. intros HD H. destruct l as [|[]]; unfold inb in H; nia. Qed.

Lemma div_bounds N D : 0 < D -> N / D * D <= N < (N / D + 1) * D.
Proof.
  intros HD. pose proof (Z.div_mod N D ltac:(lia)). pose proof (Z.mod_pos_bound N D HD). lia.
Qed.

Lemma floor_unique m N D : 0 < D -> m * D <= N < (m + 1) * D -> m = N / D.
Proof. intros HD H. apply Z.div_unique with (r := N - m * D); lia. Qed.

Lemma inb_div m l N D : 0 < D -> inb m l N D -> m = N / D.
Proof. intros HD H. apply floor_unique; auto. by apply inb_floor with l. Qed.

Lemma shr_1_inb mrs N D :
  0 <= shr_m mrs -> 0 < D -> inb_rec mrs N D -> inb_rec (shr_1 mrs) N (2 * D).
Proof.
  destruct mrs as [m r s]. unfold inb_rec. cbn [shr_m]. intros Hm HD.
  destruct m as [|p|p]; [| |lia].
  - destruct r, s; cbn [shr_1 orb shr_m loc_of_shr_record inb]; lia.
  - destruct p as [p|p|]; destruct r, s; cbn [shr_1 orb shr_m loc_of_shr_record inb]; lia.
Qed.

Lemma shr_1_nonneg mrs : 0 <= shr_m mrs -> 0 <= shr_m (shr_1 mrs).
Proof. destruct mrs as [[|[p|p|]|p] r s]; cbn; lia. Qed.

Lemma pow2_xI p : 2 ^ Zpos p~1 = 2 * (2 ^ Zpos p * 2 ^ Zpos p).
Proof.
  replace (Zpos p~1) with (Zpos p + Zpos p + 1) by lia.
  rewrite !Z.pow_add_r by lia. ring.
Qed.

Lemma pow2_xO p : 2 ^ Zpos p~0 = 2 ^ Zpos p * 2 ^ Zpos p.
Proof.
  replace (Zpos p~0) with (Zpos p + Zpos p) by lia.
  rewrite !Z.pow_add_r by lia. ring.
Qed.

Lemma iter_pos_shr_inb p : forall mrs N D,
  0 <= shr_m mrs -> 0 < D -> inb_rec mrs N D ->
  0 <= shr_m (SpecFloat.iter_pos shr_1 p mrs) /\ inb_rec (SpecFloat.iter_pos shr_1 p mrs) N (2 ^ Zpos p * D).
Proof.
  induction p as [p IH|p IH|]; intros mrs N D Hm HD H; cbn [SpecFloat.iter_pos].
  - pose proof (shr_1_nonneg _ Hm) as H0. pose proof (shr_1_inb _ _ _ Hm HD H) as H1.
    destruct (IH _ N (2 * D) H0 ltac:(lia) H1) as [H2 H3].
    assert (HP: 0 < 2 ^ Zpos p) by (apply pow2_pos; lia).
    destruct (IH _ N (2 ^ Zpos p * (2 * D)) H2 ltac:(nia) H3) as [H4 H5].
    split; [done|].
    replace (2 ^ Zpos p~1 * D) with (2 ^ Zpos p * (2 ^ Zpos p * (2 * D))); [done|].
    rewrite pow2_xI. ring.
  - destruct (IH _ N D Hm HD H) as [H2 H3].
    assert (HP: 0 < 2 ^ Zpos p) by (apply pow2_pos; lia).
    destruct (IH _ N (2 ^ Zpos p * D) H2 ltac:(nia) H3) as [H4 H5].
    split; [done|].
    replace (2 ^ Zpos p~0 * D) with (2 ^ Zpos p * (2 ^ Zpos p * D)); [done|].
    rewrite pow2_xO. ring.
  - split; [by apply shr_1_nonneg|]. rewrite Z.pow_1_r. by apply shr_1_inb.
Qed.

Lemma rne_inb m l N D : 0 < D -> inb m l N D -> round_nearest_even m l = rne N D.
Proof.
  intros HD H. pose proof (inb_div _ _ _ _ HD H) as Hq.
  pose proof (Z.div_mod N D ltac:(lia)) as Hdm.
  pose proof (Z.mod_pos_bound N D HD) as Hb.
  unfold rne. rewrite <- Hq.
  destruct l as [|[]]; cbn [inb round_nearest_even] in *.
  - replace (2 * (N mod D) ?= D) with Lt; [done|]. symmetry. apply Z.compare_lt_iff. nia.
  - replace (2 * (N mod D) ?= D) with Eq; [done|]. symmetry. apply Z.compare_eq_iff. nia.
  - replace (2 * (N mod D) ?= D) with Lt; [done|]. symmetry. apply Z.compare_lt_iff. nia.
  - replace (2 * (N mod D) ?= D) with Gt; [done|]. symmetry. apply Z.compare_gt_iff. nia.
Qed.

Lemma rne_bounds N D a b : 0 < D -> a * D <= N <= b * D -> a <= rne N D <= b.
Proof.
  intros HD H. unfold rne.
  pose proof (Z.div_mod N D ltac:(lia)) as Hdm.
  pose proof (Z.mod_pos_bound N D HD) as Hb.
  assert (a <= N / D) by (apply Z.div_le_lower_bound; lia).
  assert (N / D <= b) by (apply Z.div_le_upper_bound; lia).
  destruct (Z.compare_spec (2 * (N mod D)) D); try destruct (Z.even (N / D)); try lia.
  all: assert (N / D < b) by (apply (Z.mul_lt_mono_pos_l D); lia); lia.
Qed.

Lemma rne_exact c D : 0 < D -> rne (c * D) D = c.
Proof.
  intros HD. unfold rne. rewrite Z.div_mul, Z.mod_mul by lia.
  destruct (Z.compare_spec (2 * 0) D); [lia|done|lia].
Qed.

Lemma floor_mono N1 D1 N2 D2 :
  0 < D1 -> 0 < D2 -> N1 * D2 <= N2 * D1 -> N1 / D1 <= N2 / D2.
Proof.
  intros H1 H2 H.
  pose proof (div_bounds N1 D1 H1). pose proof (div_bounds N2 D2 H2).
  assert (N1 / D1 * (D1 * D2) < (N2 / D2 + 1) * (D1 * D2)) by nia.
  assert (N1 / D1 < N2 / D2 + 1) by nia. lia.
Qed.

Lemma rne_mono N1 D1 N2 D2 :
  0 < D1 -> 0 < D2 -> N1 * D2 <= N2 * D1 -> rne N1 D1 <= rne N2 D2.
Proof.
  intros H1 H2 H. pose proof (floor_mono _ _ _ _ H1 H2 H) as Hq.
  unfold rne.
  pose proof (Z.div_mod N1 D1 ltac:(lia)) as Hdm1.
  pose proof (Z.mod_pos_bound N1 D1 H1) as Hb1.
  pose proof (Z.div_mod N2 D2 ltac:(lia)) as Hdm2.
  pose proof (Z.mod_pos_bound N2 D2 H2) as Hb2.
  set (q1 := N1 / D1) in *. set (q2 := N2 / D2) in *.
  set (r1 := N1 mod D1) in *. set (r2 := N2 mod D2) in *.
  destruct (Z.eq_dec q1 q2) as [Heq|Hne].
  - rewrite <- Heq in *.
    assert (Hr : r1 * D2 <= r2 * D1) by nia.
    destruct (Z.compare_spec (2 * r1) D1) as [E1|E1|E1];
      destruct (Z.compare_spec (2 * r2) D2) as [E2|E2|E2];
      try destruct (Z.even q1); try lia; exfalso; nia.
  - destruct (Z.compare_spec (2 * r1) D1) as [E1|E1|E1];
      destruct (Z.compare_spec (2 * r2) D2) as [E2|E2|E2];
      try destruct (Z.even q1); try destruct (Z.even q2); lia.
Qed.

Lemma rne_ratio N1 D1 N2 D2 :
  0 < D1 -> 0 < D2 -> N1 * D2 = N2 * D1 -> rne N1 D1 = rne N2 D2.
Proof.
  intros. apply Z.le_antisymm; apply rne_mono; auto; lia.
Qed.
#[global] Opaque BIAS.
Ltac blia := pose proof BIAS_eq; lia.

Lemma digits2_bounds p : 2 ^ (Zpos (digits2_pos p) - 1) <= Zpos p < 2 ^ Zpos (digits2_pos p).
Proof.
  induction p as [p IH|p IH|]; cbn [digits2_pos].
  - rewrite Pos2Z.inj_succ.
    replace (Z.succ (Zpos (digits2_pos p)) - 1) with (Z.succ (Zpos (digits2_pos p) - 1)) by lia.
    rewrite !Z.pow_succ_r by lia. lia.
  - rewrite Pos2Z.inj_succ.
    replace (Z.succ (Zpos (digits2_pos p)) - 1) with (Z.succ (Zpos (digits2_pos p) - 1)) by lia.
    rewrite !Z.pow_succ_r by lia. lia.
  - change (1 <= 1 < 2). lia.
Qed.

Lemma Zdigits2_unique m d : 2 ^ (d - 1) <= m < 2 ^ d -> 1 <= d -> Zdigits2 m = d.
Proof.
  intros H Hd. assert (0 < m) by (pose proof (pow2_pos (d - 1)); lia).
  destruct m as [|p|p]; try lia. cbn [Zdigits2].
  pose proof (digits2_bounds p) as Hb. set (d' := Zpos (digits2_pos p)) in *.
  assert (1 <= d') by (unfold d'; lia).
  destruct (Z.lt_trichotomy d d') as [Hlt|[Heq|Hgt]]; [|done|].
  - assert (2 ^ d <= 2 ^ (d' - 1)) by (apply pow2_le; lia). lia.
  - assert (2 ^ d' <= 2 ^ (d - 1)) by (apply pow2_le; lia). lia.
Qed.

Lemma shr_record_of_loc_inb m l N D : inb m l N D -> inb_rec (shr_record_of_loc m l) N D.
Proof. unfold inb_rec. by destruct l as [|[]]. Qed.

Lemma shr_m_of_loc m l : shr_m (shr_record_of_loc m l) = m.
Proof. by destruct l as [|[]]. Qed.

Lemma shr_inb mrs e n N D :
  0 <= shr_m mrs -> 0 < D -> 0 <= n -> inb_rec mrs N D ->
  0 <= shr_m (fst (shr mrs e n)) /\ inb_rec (fst (shr mrs e n)) N (2 ^ n * D)
  /\ snd (shr mrs e n) = e + n.
Proof.
  intros Hm HD Hn H. destruct n as [|p|p]; try lia; cbn [shr fst snd].
  - rewrite Z.pow_0_r, Z.mul_1_l. repeat split; auto. lia.
  - destruct (iter_pos_shr_inb p _ _ _ Hm HD H). auto.
Qed.

Lemma bra_normal m e l N D d :
  0 < D -> inb m l N D -> 2 ^ (d - 1) <= m < 2 ^ d -> 53 <= d ->
  -1074 <= e + d - 53 < 971 ->
  binary_round_aux prec emax false m e l = mk_float (rne N (2 ^ (d - 53) * D)) (e + d - 53)
  /\ 2 ^ 52 <= rne N (2 ^ (d - 53) * D) <= 2 ^ 53.
Proof.
  intros HD H Hm Hd He.
  assert (Hdig : Zdigits2 m = d) by (apply Zdigits2_unique; lia).
  assert (Hm0 : 0 < m) by (pose proof (pow2_pos (d - 1)); lia).
  unfold binary_round_aux, shr_fexp. rewrite Hdig.
  assert (Hfexp : fexp prec emax (d + e) - e = d - 53).
  { unfold fexp, emin, prec, emax. lia. }
  rewrite Hfexp.
  pose proof (shr_inb (shr_record_of_loc m l) e (d - 53) N D) as Hs.
  rewrite shr_m_of_loc in Hs.
  specialize (Hs ltac:(lia) HD ltac:(lia) (shr_record_of_loc_inb _ _ _ _ H)).
  destruct (shr (shr_record_of_loc m l) e (d - 53)) as [mrs' e'].
  cbn [fst snd] in Hs. destruct Hs as (Hm1 & Hin & ->).
  set (D' := 2 ^ (d - 53) * D) in *.
  assert (HP : 0 < 2 ^ (d - 53)) by (apply pow2_pos; lia).
  assert (HD' : 0 < D') by (unfold D'; nia).
  assert (Hpow : 2 ^ d = 2 ^ 53 * 2 ^ (d - 53)).
  { rewrite <- Z.pow_add_r by lia. f_equal. lia. }
  assert (Hpow' : 2 ^ (d - 1) = 2 ^ 52 * 2 ^ (d - 53)).
  { rewrite <- Z.pow_add_r by lia. f_equal. lia. }
  pose proof (inb_floor _ _ _ _ HD H) as Hfl.
  pose proof (inb_floor _ _ _ _ HD' Hin) as Hfl'.
  assert (Hrange : 2 ^ 52 <= shr_m mrs' < 2 ^ 53).
  { unfold D' in Hfl'. set (P := 2 ^ (d - 53)) in *. set (m1 := shr_m mrs') in *.
    split.
    - assert (2 ^ 52 * P * D < (m1 + 1) * (P * D)) by nia.
      assert (2 ^ 52 < m1 + 1) by nia. lia.
    - assert (m1 * (P * D) < 2 ^ 53 * P * D) by nia. nia. }
  pose proof (rne_inb _ _ _ _ HD' Hin) as Hr. unfold inb_rec in Hin.
  rewrite Hr.
  assert (Hrb : 2 ^ 52 <= rne N D' <= 2 ^ 53).
  { apply rne_bounds; [done|]. nia. }
  split; [|done].
  set (r := rne N D') in *. unfold mk_float.
  destruct (Z.eqb_spec r (2 ^ 53)) as [Heq|Hne].
  - rewrite Heq. change (2 ^ 53) with 9007199254740992. change (2 ^ 52) with 4503599627370496.
    change (Zdigits2 9007199254740992) with 54.
    replace (fexp prec emax (54 + (e + (d - 53))) - (e + (d - 53))) with 1
      by (unfold fexp, emin, prec, emax; lia).
    cbn [shr shr_record_of_loc SpecFloat.iter_pos shr_1 shr_m Z.add Z.to_pos].
    replace (e + (d - 53) + 1 <=? emax - prec) with true
      by (symmetry; apply Z.leb_le; unfold emax, prec; lia).
    f_equal. lia.
  - assert (Hdr : Zdigits2 r = 53) by (apply Zdigits2_unique; change (2 ^ (53 - 1)) with (2 ^ 52); lia).
    rewrite Hdr.
    replace (fexp prec emax (53 + (e + (d - 53))) - (e + (d - 53))) with 0
      by (unfold fexp, emin, prec, emax; lia).
    cbn [shr shr_record_of_loc shr_m].
    destruct r as [|p|p]; try lia.
    replace (e + (d - 53) <=? emax - prec) with true by (symmetry; apply Z.leb_le; unfold emax, prec; lia).
    f_equal. lia.
Qed.

Lemma mk_float_normal r er :
  2 ^ 52 <= r <= 2 ^ 53 -> -1074 <= er < 971 -> normal (mk_float r er).
Proof.
  intros Hr He. unfold mk_float. destruct (Z.eqb_spec r (2 ^ 53)).
  - cbn. lia.
  - cbn [normal]. rewrite Z2Pos.id by lia. lia.
Qed.

Lemma fval_mk_float r er :
  2 ^ 52 <= r <= 2 ^ 53 -> 0 <= er + BIAS -> fval (mk_float r er) = r * 2 ^ (er + BIAS).
Proof.
  intros Hr He. unfold mk_float. destruct (Z.eqb_spec r (2 ^ 53)) as [->|Hne]; cbn [fval].
  - replace (er + 1 + BIAS) with (1 + (er + BIAS)) by lia. rewrite (pow2_split 1 (er + BIAS)) by lia.
    rewrite Z2Pos.id by lia. change (2 ^ 53) with (2 ^ 52 * 2 ^ 1). ring.
  - rewrite Z2Pos.id by lia. done.
Qed.

(** The value of a rounding, from the place of the exact result. *)
Lemma bra_correct m e l A B d :
  0 < B -> 0 <= e + BIAS -> inb m l A (B * 2 ^ (e + BIAS)) ->
  2 ^ (d - 1) <= m < 2 ^ d -> 53 <= d -> -1074 <= e + d - 53 < 971 ->
  normal (binary_round_aux prec emax false m e l)
  /\ fval (binary_round_aux prec emax false m e l) = RND A B.
Proof.
  intros HB He H Hm Hd Hr.
  assert (HP : 0 < 2 ^ (e + BIAS)) by (by apply pow2_pos).
  assert (HD : 0 < B * 2 ^ (e + BIAS)) by nia.
  destruct (bra_normal m e l A _ d HD H Hm Hd Hr) as [-> Hb].
  split; [apply mk_float_normal; [done|lia]|].
  rewrite fval_mk_float by (blia).
  unfold RND.
  assert (Hlog : Z.log2 (A / B) = d - 1 + (e + BIAS)).
  { apply Z.log2_unique; [blia|].
    pose proof (inb_floor _ _ _ _ HD H) as Hfl.
    pose proof (div_bounds A B HB) as Hdb.
    replace (Z.succ (d - 1 + (e + BIAS))) with (d + (e + BIAS)) by lia.
    rewrite (pow2_split (d - 1) (e + BIAS)), (pow2_split d (e + BIAS)) by lia.
    set (P := 2 ^ (e + BIAS)) in *. set (q := A / B) in *.
    assert ((m + 1) * (B * P) <= 2 ^ d * (B * P)) by (apply Z.mul_le_mono_nonneg_r; lia).
    assert (2 ^ (d - 1) * (B * P) <= m * (B * P)) by (apply Z.mul_le_mono_nonneg_r; lia).
    split.
    - assert (2 ^ (d - 1) * P < q + 1) by (apply (Z.mul_lt_mono_pos_r B); lia). lia.
    - apply (Z.mul_lt_mono_pos_r B); lia. }
  rewrite Hlog.
  replace (Z.max 0 (d - 1 + (e + BIAS) - 52)) with (e + d - 53 + BIAS) by (blia).
  f_equal. f_equal.
  replace (e + d - 53 + BIAS) with ((e + BIAS) + (d - 53)) by lia.
  rewrite (pow2_split (e + BIAS) (d - 53)) by lia. ring.
Qed.

Lemma RND_nonneg A B : 0 <= A -> 0 < B -> 0 <= RND A B.
Proof.
  intros HA HB. unfold RND. set (k := Z.max 0 _).
  assert (0 < 2 ^ k) by (apply pow2_pos; lia).
  assert (0 <= rne A (B * 2 ^ k) <= A + 1); [|nia].
  apply rne_bounds; nia.
Qed.

Lemma RND_mono A1 B1 A2 B2 :
  0 <= A1 -> 0 < B1 -> 0 < B2 -> A1 * B2 <= A2 * B1 -> RND A1 B1 <= RND A2 B2.
Proof.
  intros HA H1 H2 H. unfold RND.
  pose proof (floor_mono _ _ _ _ H1 H2 H) as Hq.
  assert (Hq1 : 0 <= A1 / B1) by (apply Z.div_pos; lia).
  pose proof (div_bounds A1 B1 H1) as Hd1. pose proof (div_bounds A2 B2 H2) as Hd2.
  pose proof (Z.log2_le_mono _ _ Hq) as Hlog.
  set (q1 := A1 / B1) in *. set (q2 := A2 / B2) in *.
  set (k1 := Z.max 0 (Z.log2 q1 - 52)). set (k2 := Z.max 0 (Z.log2 q2 - 52)).
  assert (Hk : 0 <= k1 <= k2) by lia.
  assert (HP1 : 0 < 2 ^ k1) by (apply pow2_pos; lia).
  assert (HP2 : 0 < 2 ^ k2) by (apply pow2_pos; lia).
  destruct (Z.eq_dec k1 k2) as [Heq|Hne].
  - rewrite <- Heq. apply Z.mul_le_mono_nonneg_r; [lia|].
    apply rne_mono; nia.
  - assert (Hk2 : k2 = Z.log2 q2 - 52) by lia.
    assert (Hq2 : 0 < q2).
    { destruct (Z.le_gt_cases q2 0) as [Hle|]; [|done].
      rewrite (Z.log2_nonpos q2 Hle) in Hk2. lia. }
    pose proof (Z.log2_spec q2 Hq2) as [Hlo _].
    replace (Z.log2 q2) with (52 + k2) in Hlo by lia.
    rewrite (pow2_split 52 k2) in Hlo by lia.
    assert (Hr2 : 2 ^ 52 <= rne A2 (B2 * 2 ^ k2)).
    { assert (2 ^ 52 <= rne A2 (B2 * 2 ^ k2) <= A2 + 1); [|lia].
      apply rne_bounds; [nia|]. split; [|nia].
      assert (2 ^ 52 * 2 ^ k2 * B2 <= q2 * B2) by (apply Z.mul_le_mono_nonneg_r; lia). lia. }
    assert (Hr1 : rne A1 (B1 * 2 ^ k1) <= 2 ^ 53).
    { assert (0 <= rne A1 (B1 * 2 ^ k1) <= 2 ^ 53); [|lia].
      apply rne_bounds; [nia|]. split; [lia|].
      assert (Hq1' : q1 + 1 <= 2 ^ 53 * 2 ^ k1).
      { destruct (Z.eq_dec q1 0) as [->|Hnz]; [lia|].
        pose proof (Z.log2_spec q1 ltac:(lia)) as [_ Hhi].
        assert (2 ^ Z.succ (Z.log2 q1) <= 2 ^ (53 + k1)) by (apply pow2_le; pose proof (Z.log2_nonneg q1); lia).
        rewrite (pow2_split 53 k1) in * by lia. lia. }
      assert ((q1 + 1) * B1 <= 2 ^ 53 * 2 ^ k1 * B1) by (apply Z.mul_le_mono_nonneg_r; lia).
      lia. }
    assert (2 ^ (k1 + 1) <= 2 ^ k2) by (apply pow2_le; lia).
    rewrite (pow2_split k1 1) in * by lia. change (2 ^ 1) with 2 in *.
    change (2 ^ 53) with (2 ^ 52 * 2) in Hr1.
    assert (rne A1 (B1 * 2 ^ k1) * 2 ^ k1 <= 2 ^ 52 * 2 * 2 ^ k1)
      by (apply Z.mul_le_mono_nonneg_r; lia).
    assert (2 ^ 52 * 2 ^ k2 <= rne A2 (B2 * 2 ^ k2) * 2 ^ k2)
      by (apply Z.mul_le_mono_nonneg_r; lia).
    assert (2 ^ 52 * (2 ^ k1 * 2) <= 2 ^ 52 * 2 ^ k2) by (apply Z.mul_le_mono_nonneg_l; lia).
    lia.
Qed.

Lemma RND_ratio A1 B1 A2 B2 :
  0 <= A1 -> 0 <= A2 -> 0 < B1 -> 0 < B2 -> A1 * B2 = A2 * B1 -> RND A1 B1 = RND A2 B2.
Proof. intros. apply Z.le_antisymm; apply RND_mono; auto; lia. Qed.

(** Numbers of at most 53 bits, scaled by a power of two, are not changed. *)
Lemma RND_exact m j B :
  0 < B -> 0 <= m < 2 ^ 53 -> 0 <= j -> RND (m * 2 ^ j * B) B = m * 2 ^ j.
Proof.
  intros HB Hm Hj. unfold RND. rewrite Z.div_mul by lia.
  assert (HPj : 0 < 2 ^ j) by (by apply pow2_pos).
  set (k := Z.max 0 (Z.log2 (m * 2 ^ j) - 52)).
  assert (Hk : 0 <= k <= j).
  { assert (Z.log2 (m * 2 ^ j) <= 52 + j); [|lia].
    destruct (Z.eq_dec m 0) as [->|Hnz]; [rewrite Z.mul_0_l; change (Z.log2 0) with 0; lia|].
    assert (Z.log2 (m * 2 ^ j) < 53 + j); [|lia].
    apply Z.log2_lt_pow2; [nia|]. rewrite (pow2_split 53 j) by lia. nia. }
  replace (m * 2 ^ j * B) with (m * 2 ^ (j - k) * (B * 2 ^ k)).
  2:{ replace j with ((j - k) + k) at 2 by lia. rewrite (pow2_split (j - k) k) by lia. ring. }
  assert (0 < 2 ^ k) by (apply pow2_pos; lia).
  rewrite rne_exact by nia.
  replace j with ((j - k) + k) at 2 by lia. rewrite (pow2_split (j - k) k) by lia. ring.
Qed.

Lemma RND_exact_fval x B : 0 < B -> normal x -> RND (fval x * B) B = fval x.
Proof.
  intros HB Hx. destruct x as [| | |[] m e]; try done. cbn [normal fval] in *.
  apply RND_exact; blia.
Qed.

Lemma fval_bounds m e :
  2 ^ 52 <= Zpos m < 2 ^ 53 -> 0 <= e + BIAS ->
  2 ^ (52 + (e + BIAS)) <= Zpos m * 2 ^ (e + BIAS) < 2 ^ (53 + (e + BIAS)).
Proof.
  intros Hm He. rewrite (pow2_split 52), (pow2_split 53) by lia.
  assert (0 < 2 ^ (e + BIAS)) by (by apply pow2_pos). nia.
Qed.

Lemma fval_pos x : normal x -> 0 < fval x.
Proof.
  destruct x as [| | |[] m e]; try done. cbn [normal fval]. intros [Hm He].
  assert (0 < 2 ^ (e + BIAS)) by (apply pow2_pos; blia). nia.
Qed.

(** On normal numbers, [<=] is the order of the values. *)
Lemma SFleb_fval x y : normal x -> normal y -> SFleb x y = true <-> fval x <= fval y.
Proof.
  destruct x as [| | |[] m1 e1]; try done. destruct y as [| | |[] m2 e2]; try done.
  cbn [normal fval]. intros [Hm1 He1] [Hm2 He2].
  pose proof (fval_bounds m1 e1 Hm1 ltac:(blia)) as Hb1.
  pose proof (fval_bounds m2 e2 Hm2 ltac:(blia)) as Hb2.
  unfold SFleb, SFcompare. rewrite Pos.compare_cont_spec. cbn [Pos.switch_Eq].
  destruct (Z.compare_spec e1 e2) as [Heq|Hlt|Hgt].
  - subst e2. assert (0 < 2 ^ (e1 + BIAS)) by (apply pow2_pos; blia).
    destruct (Pos.compare_spec m1 m2) as [E|E|E]; cbn [Pos.switch_Eq]; split; try done; try nia.
  - assert (2 ^ (53 + (e1 + BIAS)) <= 2 ^ (52 + (e2 + BIAS))) by (apply pow2_le; blia).
    split; [lia|done].
  - assert (2 ^ (53 + (e2 + BIAS)) <= 2 ^ (52 + (e1 + BIAS))) by (apply pow2_le; blia).
    split; [done|lia].
Qed.

Lemma fval_inj x y : normal x -> normal y -> fval x = fval y -> x = y.
Proof.
  destruct x as [| | |[] m1 e1]; try done. destruct y as [| | |[] m2 e2]; try done.
  cbn [normal fval]. intros [Hm1 He1] [Hm2 He2] Heq.
  pose proof (fval_bounds m1 e1 Hm1 ltac:(blia)) as Hb1.
  pose proof (fval_bounds m2 e2 Hm2 ltac:(blia)) as Hb2.
  assert (e1 = e2).
  { destruct (Z.lt_trichotomy e1 e2) as [Hlt|[E|Hgt]]; [|done|].
    - assert (2 ^ (53 + (e1 + BIAS)) <= 2 ^ (52 + (e2 + BIAS))) by (apply pow2_le; blia). lia.
    - assert (2 ^ (53 + (e2 + BIAS)) <= 2 ^ (52 + (e1 + BIAS))) by (apply pow2_le; blia). lia. }
  subst e2. assert (0 < 2 ^ (e1 + BIAS)) by (apply pow2_pos; blia).
  assert (Zpos m1 = Zpos m2) by nia. congruence.
Qed.

(** The integer of a normal number whose value is integral. *)
Lemma Z_of_number_fval x z : normal x -> fval x = z * 2 ^ BIAS -> Z_of_number x = Some z.
Proof.
  destruct x as [| | |[] m e]; try done. cbn [normal fval Z_of_number cond_Zopp].
  intros [Hm He] Hv.
  assert (HB : 0 < 2 ^ BIAS) by (apply pow2_pos; blia).
  destruct (Z.leb_spec 0 e) as [Hpos|Hneg].
  - f_equal. rewrite (pow2_split e BIAS) in Hv by (blia). nia.
  - assert (Hs : 2 ^ BIAS = 2 ^ (- e) * 2 ^ (e + BIAS)).
    { rewrite <- pow2_split by (blia). f_equal. lia. }
    assert (0 < 2 ^ (e + BIAS)) by (apply pow2_pos; blia).
    assert (0 < 2 ^ (- e)) by (apply pow2_pos; lia).
    assert (Hm' : Zpos m = z * 2 ^ (- e)) by nia.
    rewrite Hm', Z.mod_mul, Z.div_mul by lia. done.
Qed.

Lemma RND_0 B : 0 < B -> RND 0 B = 0.
Proof. intros HB. exact (RND_exact 0 0 B HB ltac:(lia) ltac:(lia)). Qed.

Lemma iter_xO m d : Zpos (Pos.iter xO m d) = Zpos m * 2 ^ Zpos d.
Proof.
  induction d as [|d IH] using Pos.peano_ind.
  - cbn. lia.
  - rewrite Pos.iter_succ, Pos2Z.inj_succ, Z.pow_succ_r by lia.
    rewrite Pos2Z.inj_xO, IH. ring.
Qed.

Lemma shl_align_le mx ex ez :
  ez <= ex ->
  Zpos (fst (shl_align mx ex ez)) = Zpos mx * 2 ^ (ex - ez) /\ snd (shl_align mx ex ez) = ez.
Proof.
  intros H. unfold shl_align. destruct (ez - ex) as [|d|d] eqn:E; try lia; cbn [fst snd].
  - replace (ex - ez) with 0 by lia. lia.
  - rewrite iter_xO. replace (ex - ez) with (Zpos d) by lia. done.
Qed.

Lemma shl_align_ge mx ex ez : ex <= ez -> shl_align mx ex ez = (mx, ex).
Proof. intros H. unfold shl_align. destruct (ez - ex) as [|d|d] eqn:E; try lia; done. Qed.

Lemma fmul_normal x y :
  normal x -> normal y -> -1126 <= expo x + expo y <= 917 ->
  normal (fmul x y) /\ fval (fmul x y) = RND (fval x * fval y) (2 ^ BIAS).
Proof.
  destruct x as [| | |[] mx ex]; try done. destruct y as [| | |[] my ey]; try done.
  cbn [normal fval expo]. intros [Hmx Hex] [Hmy Hey] He.
  unfold fmul, SFmul. cbn [xorb].
  assert (Hprod : 2 ^ 104 <= Zpos (mx * my) < 2 ^ 106).
  { rewrite Pos2Z.inj_mul. change (2 ^ 104) with (2 ^ 52 * 2 ^ 52).
    change (2 ^ 106) with (2 ^ 53 * 2 ^ 53). nia. }
  pose proof (Z.log2_spec (Zpos (mx * my)) ltac:(lia)) as Hlog.
  assert (Hl : 104 <= Z.log2 (Zpos (mx * my)) < 106).
  { split; [apply Z.log2_le_pow2; lia|apply Z.log2_lt_pow2; lia]. }
  apply bra_correct with (d := Z.log2 (Zpos (mx * my)) + 1); try lia.
  - apply pow2_pos; blia.
  - blia.
  - cbn [inb]. rewrite Pos2Z.inj_mul.
    replace (2 ^ BIAS * 2 ^ (ex + ey + BIAS)) with (2 ^ (ex + BIAS) * 2 ^ (ey + BIAS)); [ring|].
    rewrite <- !pow2_split by (blia). f_equal. lia.
  - replace (Z.log2 (Zpos (mx * my)) + 1 - 1) with (Z.log2 (Zpos (mx * my))) by lia.
    replace (Z.log2 (Zpos (mx * my)) + 1) with (Z.succ (Z.log2 (Zpos (mx * my)))) by lia. done.
Qed.

Lemma fadd_normal x y :
  normal x -> normal y -> expo x <= 969 -> expo y <= 969 ->
  normal (fadd x y) /\ fval (fadd x y) = RND (fval x + fval y) 1.
Proof.
  destruct x as [| | |[] mx ex]; try done. destruct y as [| | |[] my ey]; try done.
  cbn [normal fval expo]. intros [Hmx Hex] [Hmy Hey] Hx Hy.
  unfold fadd, SFadd. cbn [cond_Zopp].
  set (ez := Z.min ex ey).
  destruct (shl_align_le mx ex ez ltac:(lia)) as [Hax _].
  destruct (shl_align_le my ey ez ltac:(lia)) as [Hay _].
  set (a := fst (shl_align mx ex ez)) in *. set (b := fst (shl_align my ey ez)) in *.
  change (Zpos a + Zpos b) with (Zpos (a + b)). cbn [binary_normalize].
  unfold binary_round.
  pose proof (digits2_bounds (a + b)) as Hd. set (d := Zpos (digits2_pos (a + b))) in *.
  assert (HPx : 0 < 2 ^ (ex - ez)) by (apply pow2_pos; lia).
  assert (HPy : 0 < 2 ^ (ey - ez)) by (apply pow2_pos; lia).
  assert (Hsum : Zpos (a + b) = Zpos mx * 2 ^ (ex - ez) + Zpos my * 2 ^ (ey - ez)).
  { rewrite Pos2Z.inj_add. lia. }
  assert (Hd53 : 53 <= d).
  { destruct (Z.le_gt_cases 53 d); [done|].
    assert (2 ^ d <= 2 ^ 52) by (apply pow2_le; unfold d; lia). nia. }
  assert (Hdmax : ez + d - 53 <= Z.max ex ey + 1).
  { assert (d - 1 < 54 + (Z.max ex ey - ez)); [|lia].
    apply (Z.pow_lt_mono_r_iff 2); [lia|lia|].
    assert (Zpos (a + b) < 2 ^ (54 + (Z.max ex ey - ez))); [|lia].
    rewrite (pow2_split 54) by lia. change (2 ^ 54) with (2 ^ 53 + 2 ^ 53).
    assert (2 ^ (ex - ez) <= 2 ^ (Z.max ex ey - ez)) by (apply pow2_le; lia).
    assert (2 ^ (ey - ez) <= 2 ^ (Z.max ex ey - ez)) by (apply pow2_le; lia).
    nia. }
  rewrite shl_align_ge by (unfold fexp, emin, prec, emax; lia).
  apply bra_correct with (d := d); try lia.
  - blia.
  - cbn [inb]. rewrite Hsum, Z.mul_1_l.
    replace (ex + BIAS) with ((ex - ez) + (ez + BIAS)) by lia.
    replace (ey + BIAS) with ((ey - ez) + (ez + BIAS)) by lia.
    rewrite (pow2_split (ex - ez)), (pow2_split (ey - ez)) by (blia). ring.
Qed.

Lemma new_location_inb q r a b :
  0 < b -> 0 <= r < b -> a = b * q + r -> inb q (new_location b r) a b.
Proof.
  intros Hb Hr Ha. unfold new_location, new_location_even, new_location_odd.
  destruct (Z.even b) eqn:Hev.
  - destruct (Z.eqb_spec r 0); [cbn; lia|].
    destruct (Z.compare_spec (2 * r) b); cbn [inb]; lia.
  - destruct (Z.eqb_spec r 0); [cbn; lia|].
    assert (2 * r <> b).
    { intros <-. rewrite Z.even_mul in Hev. done. }
    destruct (Z.compare_spec (2 * r + 1) b); cbn [inb]; lia.
Qed.

Lemma inb_ratio m l N D N' D' :
  0 < D -> 0 < D' -> N * D' = N' * D -> inb m l N D -> inb m l N' D'.
Proof.
  intros HD HD' Hr H.
  destruct l as [|[]]; cbn [inb] in *.
  - apply (Z.mul_cancel_r _ _ D); [lia|]. rewrite <- Hr, H. ring.
  - apply (Z.mul_cancel_r _ _ D); [lia|]. nia.
  - split; apply (Z.mul_lt_mono_pos_r D); nia.
  - split; apply (Z.mul_lt_mono_pos_r D); nia.
Qed.

Lemma fdiv_normal x y :
  normal x -> normal y -> -1021 <= expo x - expo y <= 1022 ->
  normal (fdiv x y) /\ fval (fdiv x y) = RND (fval x * 2 ^ BIAS) (fval y).
Proof.
  intros Hnx Hny. pose proof (fval_pos y Hny) as Hpy.
  destruct x as [| | |[] mx ex]; try done. destruct y as [| | |[] my ey]; try done.
  cbn [normal fval expo] in *. destruct Hnx as [Hmx Hex]. destruct Hny as [Hmy Hey]. intros He.
  unfold fdiv, SFdiv, SFdiv_core_binary. cbn [xorb].
  rewrite (Zdigits2_unique (Zpos mx) 53), (Zdigits2_unique (Zpos my) 53) by (change (2 ^ (53 - 1)) with (2 ^ 52); lia).
  replace (Z.min (fexp prec emax (53 + ex - (53 + ey))) (ex - ey)) with (ex - ey - 53)
    by (unfold fexp, emin, prec, emax; lia).
  replace (ex - ey - (ex - ey - 53)) with 53 by lia.
  rewrite Z.shiftl_mul_pow2 by lia.
  pose proof (Z_div_mod (Zpos mx * 2 ^ 53) (Zpos my) ltac:(lia)) as Hdm.
  destruct (Z.div_eucl (Zpos mx * 2 ^ 53) (Zpos my)) as [q r]. destruct Hdm as [Hdm Hr].
  assert (Hq : 2 ^ 52 <= q < 2 ^ 54).
  { split.
    - assert (2 ^ 52 * Zpos my < (q + 1) * Zpos my) by nia.
      assert (2 ^ 52 < q + 1) by nia. lia.
    - change (2 ^ 54) with (2 ^ 53 * 2). assert (q * Zpos my < 2 ^ 53 * 2 * Zpos my) by nia. nia. }
  pose proof (Z.log2_spec q ltac:(lia)) as Hlog.
  assert (Hl : 52 <= Z.log2 q < 54).
  { split; [apply Z.log2_le_pow2; lia|apply Z.log2_lt_pow2; lia]. }
  assert (HP : 0 < 2 ^ (ey + BIAS)) by (apply pow2_pos; blia).
  apply bra_correct with (d := Z.log2 q + 1); try lia.
  - blia.
  - apply inb_ratio with (N := Zpos mx * 2 ^ 53) (D := Zpos my); [lia| |..].
    + assert (0 < 2 ^ (ex - ey - 53 + BIAS)) by (apply pow2_pos; blia). nia.
    + assert (Hpw : 2 ^ 53 * (2 ^ (ey + BIAS) * 2 ^ (ex - ey - 53 + BIAS)) = 2 ^ (ex + BIAS) * 2 ^ BIAS).
      { rewrite <- !pow2_split by (blia). f_equal. lia. }
      transitivity (Zpos mx * Zpos my * (2 ^ 53 * (2 ^ (ey + BIAS) * 2 ^ (ex - ey - 53 + BIAS)))); [ring|].
      rewrite Hpw. ring.
    + apply new_location_inb; lia.
  - replace (Z.log2 q + 1 - 1) with (Z.log2 q) by lia.
    replace (Z.log2 q + 1) with (Z.succ (Z.log2 q)) by lia. done.
Qed.

Lemma number_of_Z_normal n :
  0 < n < 2 ^ 53 -> normal (number_of_Z n) /\ fval (number_of_Z n) = n * 2 ^ BIAS.
Proof.
  intros Hn. destruct n as [|p|p]; try lia.
  unfold number_of_Z. cbn [binary_normalize]. unfold binary_round.
  pose proof (digits2_bounds p) as Hd. set (d := Zpos (digits2_pos p)) in *.
  assert (Hd53 : 1 <= d <= 53).
  { split; [unfold d; lia|]. destruct (Z.le_gt_cases d 53); [done|].
    assert (2 ^ 53 <= 2 ^ (d - 1)) by (apply pow2_le; lia). lia. }
  replace (fexp prec emax (d + 0)) with (d - 53) by (unfold fexp, emin, prec, emax; lia).
  destruct (shl_align_le p 0 (d - 53) ltac:(lia)) as [Hm He].
  destruct (shl_align p 0 (d - 53)) as [mz ez]. cbn [fst snd] in Hm, He. subst ez.
  replace (0 - (d - 53)) with (53 - d) in Hm by lia.
  assert (HP : 0 < 2 ^ (53 - d)) by (apply pow2_pos; lia).
  assert (H52 : 2 ^ 52 = 2 ^ (d - 1) * 2 ^ (53 - d)).
  { rewrite <- pow2_split by lia. f_equal. lia. }
  assert (H53 : 2 ^ 53 = 2 ^ d * 2 ^ (53 - d)).
  { rewrite <- pow2_split by lia. f_equal. lia. }
  rewrite <- (RND_exact (Zpos p) BIAS 1) by (blia).
  apply bra_correct with (d := 53); try lia.
  - blia.
  - cbn [inb]. rewrite Hm, !Z.mul_1_l, Z.mul_1_r.
    replace BIAS with ((53 - d) + (d - 53 + BIAS)) at 1 by lia.
    rewrite (pow2_split (53 - d)) by (blia). ring.
  - change (2 ^ (53 - 1)) with (2 ^ 52). rewrite Hm. nia.
Qed.

Lemma Z_of_number_of_Z n : 0 <= n < 2 ^ 53 -> Z_of_number (number_of_Z n) = Some n.
Proof.
  intros Hn. destruct (Z.eq_dec n 0) as [->|Hnz]; [done|].
  destruct (number_of_Z_normal n ltac:(lia)) as [Hnorm Hv].
  by apply Z_of_number_fval.
Qed.

(** The integer [Math.round] returns, from the value of its argument. *)
Lemma Math_round_fval x :
  zn x -> fval x < 2 ^ (52 + BIAS) ->
  Math_round x = number_of_Z (round_value (fval x)) /\ 0 <= round_value (fval x) < 2 ^ 53.
Proof.
  unfold round_value. intros [->|Hx] Hlt.
  - cbn [Math_round fval]. rewrite Z.div_small; [done|].
    rewrite (pow2_split BIAS 1) by blia. pose proof (pow2_pos BIAS ltac:(blia)). lia.
  - destruct x as [| | |[] m e]; try done. cbn [normal fval] in *. destruct Hx as [Hm He].
    pose proof (fval_bounds m e Hm ltac:(blia)) as Hb.
    assert (Hneg : e < 0).
    { destruct (Z.lt_ge_cases e 0); [done|].
      assert (2 ^ (52 + BIAS) <= 2 ^ (52 + (e + BIAS))) by (apply pow2_le; blia). lia. }
    cbn [Math_round cond_Zopp].
    destruct (Z.leb_spec 0 e); [lia|].
    assert (HP : 0 < 2 ^ (e + BIAS)) by (apply pow2_pos; blia).
    assert (HB : 2 ^ BIAS = 2 ^ (- e) * 2 ^ (e + BIAS)).
    { rewrite <- pow2_split by blia. f_equal; lia. }
    assert (HB1 : 2 ^ (BIAS + 1) = 2 ^ (1 - e) * 2 ^ (e + BIAS)).
    { rewrite <- pow2_split by blia. f_equal; lia. }
    assert (Hz : (2 * (Zpos m * 2 ^ (e + BIAS)) + 2 ^ BIAS) / 2 ^ (BIAS + 1)
                 = (2 * Zpos m + 2 ^ (- e)) / 2 ^ (1 - e)).
    { rewrite HB1, HB.
      replace (2 * (Zpos m * 2 ^ (e + BIAS)) + 2 ^ (- e) * 2 ^ (e + BIAS))
        with ((2 * Zpos m + 2 ^ (- e)) * 2 ^ (e + BIAS)) by ring.
      apply Z.div_mul_cancel_r; [|lia]. assert (0 < 2 ^ (1 - e)) by (apply pow2_pos; lia). lia. }
    rewrite Hz. set (z := (2 * Zpos m + 2 ^ (- e)) / 2 ^ (1 - e)) in *.
    assert (Hzb : 0 <= z < 2 ^ 53).
    { rewrite <- Hz. pose proof (pow2_pos (BIAS + 1) ltac:(blia)). split.
      - apply Z.div_pos; lia.
      - apply Z.div_lt_upper_bound; [lia|].
        rewrite (pow2_split 52 BIAS) in Hlt by blia.
        rewrite (pow2_split BIAS 1) by blia. change (2 ^ 53) with (2 ^ 52 * 2). change (2 ^ 1) with 2.
        pose proof (pow2_pos BIAS ltac:(blia)). nia. }
    split; [|done].
    by destruct (Z.eqb_spec z 0) as [->|Hnz].
Qed.

Lemma within_zn lo hi x : within lo hi x -> zn x.
Proof. intros [->|[H _]]; [by left|by right]. Qed.

Lemma within_nonneg lo hi x : within lo hi x -> 0 <= fval x.
Proof. intros [->|[H _]]; [done|]. pose proof (fval_pos x H). lia. Qed.

Lemma within_weaken lo hi lo' hi' x :
  within lo hi x -> lo' <= lo -> hi <= hi' -> 0 <= lo' + BIAS -> within lo' hi' x.
Proof.
  intros [->|[H Hb]] Hlo Hhi H0; [by left|right]. split; [done|].
  assert (2 ^ (lo' + BIAS) <= 2 ^ (lo + BIAS)) by (apply pow2_le; lia).
  assert (2 ^ (hi + BIAS) <= 2 ^ (hi' + BIAS)) by (apply pow2_le; lia). lia.
Qed.

Lemma expo_bounds lo hi x :
  normal x -> 2 ^ (lo + BIAS) <= fval x <= 2 ^ (hi + BIAS) -> 0 <= lo + BIAS ->
  lo - 52 <= expo x <= hi - 52.
Proof.
  destruct x as [| | |[] m e]; try done. cbn [normal fval expo]. intros [Hm He] Hb Hlo.
  pose proof (fval_bounds m e Hm ltac:(blia)) as Hf.
  split.
  - assert (lo + BIAS < 53 + (e + BIAS)); [|lia].
    apply (Z.pow_lt_mono_r_iff 2); [lia|blia|lia].
  - assert (52 + (e + BIAS) <= hi + BIAS); [|lia].
    apply (Z.pow_le_mono_r_iff 2); [lia| |lia].
    destruct (Z.le_gt_cases 0 (hi + BIAS)); [done|].
    rewrite (Z.pow_neg_r 2 (hi + BIAS)) in Hb by lia.
    assert (0 < 2 ^ (52 + (e + BIAS))) by (apply pow2_pos; blia). lia.
Qed.

Lemma RND_pow2 j B : 0 < B -> 0 <= j -> RND (2 ^ j * B) B = 2 ^ j.
Proof.
  intros HB Hj. replace (2 ^ j * B) with (1 * 2 ^ j * B) by ring.
  rewrite RND_exact; lia.
Qed.

Lemma RND_between A B lo hi :
  0 < B -> 0 <= lo -> 0 <= hi -> 2 ^ lo * B <= A <= 2 ^ hi * B -> 2 ^ lo <= RND A B <= 2 ^ hi.
Proof.
  intros HB Hlo Hhi H. assert (0 < 2 ^ lo) by (by apply pow2_pos).
  rewrite <- (RND_pow2 lo B), <- (RND_pow2 hi B) by lia.
  split; apply RND_mono; nia.
Qed.

Lemma fmul_within l1 h1 l2 h2 x y :
  within l1 h1 x -> within l2 h2 y ->
  -1000 <= l1 -> -1000 <= l2 -> -1000 <= l1 + l2 -> h1 + h2 <= 900 ->
  within (l1 + l2) (h1 + h2) (fmul x y)
  /\ fval (fmul x y) = RND (fval x * fval y) (2 ^ BIAS).
Proof.
  intros Hx Hy Hl1 Hl2 Hl Hh.
  assert (HB : 0 < 2 ^ BIAS) by (apply pow2_pos; blia).
  destruct Hx as [->|[Hnx Hbx]].
  { destruct Hy as [->|[Hny Hby]].
    - split; [by left|]. cbn. by rewrite RND_0.
    - destruct y as [| | |[] m e]; try done. split; [by left|]. cbn [fmul SFmul fval].
      rewrite Z.mul_0_l. by rewrite RND_0. }
  destruct Hy as [->|[Hny Hby]].
  { destruct x as [| | |[] m e]; try done. split; [by left|]. cbn [fmul SFmul fval].
    rewrite Z.mul_0_r. by rewrite RND_0. }
  pose proof (expo_bounds _ _ _ Hnx Hbx ltac:(blia)) as Hex.
  pose proof (expo_bounds _ _ _ Hny Hby ltac:(blia)) as Hey.
  assert (Hhx : l1 <= h1).
  { apply (Z.add_le_mono_r _ _ BIAS). apply (Z.pow_le_mono_r_iff 2); [lia| |lia].
    destruct (Z.le_gt_cases 0 (h1 + BIAS)); [done|].
    rewrite (Z.pow_neg_r 2 (h1 + BIAS)) in Hbx by lia. pose proof (fval_pos _ Hnx). lia. }
  assert (Hhy : l2 <= h2).
  { apply (Z.add_le_mono_r _ _ BIAS). apply (Z.pow_le_mono_r_iff 2); [lia| |lia].
    destruct (Z.le_gt_cases 0 (h2 + BIAS)); [done|].
    rewrite (Z.pow_neg_r 2 (h2 + BIAS)) in Hby by lia. pose proof (fval_pos _ Hny). lia. }
  destruct (fmul_normal x y Hnx Hny ltac:(lia)) as [Hn Hv].
  split; [|done]. right. split; [done|]. rewrite Hv.
  apply RND_between; try (blia).
  rewrite <- !pow2_split by (blia).
  replace (l1 + l2 + BIAS + BIAS) with ((l1 + BIAS) + (l2 + BIAS)) by lia.
  replace (h1 + h2 + BIAS + BIAS) with ((h1 + BIAS) + (h2 + BIAS)) by lia.
  rewrite (pow2_split (l1 + BIAS) (l2 + BIAS)), (pow2_split (h1 + BIAS) (h2 + BIAS))
    by (blia).
  assert (0 < 2 ^ (l1 + BIAS)) by (apply pow2_pos; blia).
  assert (0 < 2 ^ (l2 + BIAS)) by (apply pow2_pos; blia).
  split; apply Z.mul_le_mono_nonneg; lia.
Qed.

Lemma fadd_within l h x y :
  within l h x -> within l h y -> -1000 <= l -> h <= 900 ->
  within l (h + 1) (fadd x y) /\ fval (fadd x y) = RND (fval x + fval y) 1.
Proof.
  intros Hx Hy Hl Hh.
  destruct Hx as [->|[Hnx Hbx]].
  { destruct Hy as [->|[Hny Hby]].
    - split; [by left|]. cbn [fadd SFadd fval Z.add]. by rewrite RND_0.
    - split.
      + destruct y as [| | |[] m e]; try done. cbn [fadd SFadd].
        apply within_weaken with l h; [by right|lia|lia|blia].
      + destruct y as [| | |[] m e]; try done. cbn [fadd SFadd].
        rewrite <- (RND_exact_fval _ 1) at 1 by done. f_equal. cbn [fval]. ring. }
  destruct Hy as [->|[Hny Hby]].
  { split.
    - destruct x as [| | |[] m e]; try done. cbn [fadd SFadd].
      apply within_weaken with l h; [by right|lia|lia|blia].
    - destruct x as [| | |[] m e]; try done. cbn [fadd SFadd].
      rewrite <- (RND_exact_fval _ 1) at 1 by done. f_equal. cbn [fval]. ring. }
  pose proof (expo_bounds _ _ _ Hnx Hbx ltac:(blia)) as Hex.
  pose proof (expo_bounds _ _ _ Hny Hby ltac:(blia)) as Hey.
  destruct (fadd_normal x y Hnx Hny ltac:(lia) ltac:(lia)) as [Hn Hv].
  split; [|done]. right. split; [done|]. rewrite Hv.
  pose proof (fval_pos _ Hnx). pose proof (fval_pos _ Hny).
  assert (l + BIAS <= h + BIAS).
  { apply (Z.pow_le_mono_r_iff 2); [lia| |lia].
    destruct (Z.le_gt_cases 0 (h + BIAS)); [done|].
    rewrite (Z.pow_neg_r 2 (h + BIAS)) in Hbx by lia. lia. }
  assert (0 < 2 ^ (l + BIAS)) by (apply pow2_pos; blia).
  apply RND_between; try blia.
  replace (h + 1 + BIAS) with ((h + BIAS) + 1) by lia.
  rewrite (pow2_split (h + BIAS) 1) by blia. change (2 ^ 1) with 2. lia.
Qed.

Lemma normal_within x : normal x -> within (expo x + 52) (expo x + 53) x.
Proof.
  intros H. right. split; [done|].
  destruct x as [| | |[] m e]; try done. cbn [normal fval expo] in *. destruct H as [Hm He].
  pose proof (fval_bounds m e Hm ltac:(blia)) as Hb.
  replace (e + 52 + BIAS) with (52 + (e + BIAS)) by lia.
  replace (e + 53 + BIAS) with (53 + (e + BIAS)) by lia. lia.
Qed.

Lemma number_of_Z_within n :
  0 < n < 2 ^ 32 -> within 0 32 (number_of_Z n) /\ fval (number_of_Z n) = n * 2 ^ BIAS.
Proof.
  intros Hn. destruct (number_of_Z_normal n) as [Hnorm Hv].
  { change (2 ^ 53) with (2 ^ 32 * 2 ^ 21). lia. }
  split; [|done]. right. split; [done|]. rewrite Hv.
  rewrite (pow2_split 32 BIAS), Z.add_0_l by blia.
  pose proof (pow2_pos BIAS ltac:(blia)). nia.
Qed.

(** The quotient of two array lengths: [k / n] with [k <= n]. *)
Lemma fdiv_lengths k n :
  0 <= k <= n -> 0 < n < 2 ^ 32 ->
  within (-32) 0 (fdiv (number_of_Z k) (number_of_Z n))
  /\ fval (fdiv (number_of_Z k) (number_of_Z n)) = RND (k * 2 ^ BIAS) n.
Proof.
  intros Hk Hn.
  destruct (number_of_Z_within n Hn) as [[E|[Hnn Hbn]] Hvn].
  { rewrite E in Hvn. cbn [fval] in Hvn. pose proof (pow2_pos BIAS ltac:(blia)). nia. }
  pose proof (expo_bounds _ _ _ Hnn Hbn ltac:(blia)) as Hen.
  destruct (Z.eq_dec k 0) as [->|Hk0].
  { change (number_of_Z 0) with (S754_zero false).
    destruct (number_of_Z n) as [| | |[] m e]; try done.
    split; [by left|]. cbn [fdiv SFdiv xorb fval]. rewrite Z.mul_0_l.
    symmetry. apply RND_0. lia. }
  destruct (number_of_Z_within k ltac:(lia)) as [[E|[Hnk Hbk]] Hvk].
  { rewrite E in Hvk. cbn [fval] in Hvk. pose proof (pow2_pos BIAS ltac:(blia)). nia. }
  pose proof (expo_bounds _ _ _ Hnk Hbk ltac:(blia)) as Hek.
  destruct (fdiv_normal _ _ Hnk Hnn ltac:(lia)) as [Hnorm Hv].
  pose proof (pow2_pos BIAS ltac:(blia)) as HB.
  assert (Hv' : fval (fdiv (number_of_Z k) (number_of_Z n)) = RND (k * 2 ^ BIAS) n).
  { rewrite Hv, Hvk, Hvn. apply RND_ratio; try nia. }
  split; [|done]. right. split; [done|]. rewrite Hv'.
  apply RND_between; try blia.
  assert (2 ^ BIAS = 2 ^ (-32 + BIAS) * 2 ^ 32).
  { rewrite <- pow2_split by blia. f_equal; lia. }
  assert (0 < 2 ^ (-32 + BIAS)) by (apply pow2_pos; blia).
  replace (0 + BIAS) with BIAS by lia. nia.
Qed.

Lemma calculateScore_ratios report :
  calculateScore report =
  weighted_score
    (ratio (length (List.filter tip_passed (tips (searchability report))))
           (length (tips (searchability report))))
    (ratio (length (List.filter skill_found (skills (hardSkills report))))
           (length (skills (hardSkills report))))
    (ratio (length (List.filter skill_found (skills (softSkills report))))
           (length (skills (softSkills report))))
    (ratio (length (List.filter tip_passed (tips (recruiterTips report))))
           (length (tips (recruiterTips report)))).
Proof. reflexivity. Qed.

Lemma fgt_length n :
  (0 <= n < 2 ^ 32) -> fgt (number_of_Z n) (number_of_Z 0) = (0 <? n).
Proof.
  intros Hn. destruct (Z.ltb_spec 0 n) as [Hpos|Hz].
  - destruct (number_of_Z_within n ltac:(lia)) as [[E|[Hnn _]] Hv].
    + rewrite E in Hv. cbn [fval] in Hv. pose proof (pow2_pos BIAS ltac:(blia)). nia.
    + destruct (number_of_Z n) as [| | |[] m e]; try done.
  - by replace n with 0 by lia.
Qed.

Lemma one_within : within (-32) 0 (number_of_Z 1) /\ fval (number_of_Z 1) = 2 ^ BIAS.
Proof.
  destruct (number_of_Z_normal 1 ltac:(done)) as [Hn Hv]. rewrite Z.mul_1_l in Hv.
  split; [|done]. right. split; [done|]. rewrite Hv, Z.add_0_l.
  split; [apply pow2_le; lia|lia].
Qed.

Lemma ratio_within k n :
  (k <= n)%nat -> Z.of_nat n < 2 ^ 32 ->
  within (-32) 0 (ratio k n)
  /\ fval (ratio k n) = if (n =? 0)%nat then 2 ^ BIAS else RND (Z.of_nat k * 2 ^ BIAS) (Z.of_nat n).
Proof.
  intros Hk Hn. unfold ratio, number_of_nat. rewrite fgt_length by lia.
  destruct n as [|n'].
  - cbn [Z.of_nat Z.ltb Z.compare Nat.eqb]. apply one_within.
  - replace (0 <? Z.of_nat (S n')) with true by (symmetry; apply Z.ltb_lt; lia).
    cbn [Nat.eqb]. apply fdiv_lengths; lia.
Qed.

Lemma ratio_le k k' n :
  (k <= k')%nat -> (k' <= n)%nat -> Z.of_nat n < 2 ^ 32 -> fval (ratio k n) <= fval (ratio k' n).
Proof.
  intros H1 H2 Hn.
  destruct (ratio_within k n ltac:(lia) Hn) as [_ ->].
  destruct (ratio_within k' n ltac:(lia) Hn) as [_ ->].
  destruct n as [|n']; cbn [Nat.eqb]; [lia|].
  pose proof (pow2_pos BIAS ltac:(blia)). apply RND_mono; try lia.
  apply Z.mul_le_mono_nonneg_r; [lia|]. apply Z.mul_le_mono_nonneg_r; lia.
Qed.

Lemma ratio_full n : Z.of_nat n < 2 ^ 32 -> ratio n n = number_of_Z 1.
Proof.
  intros Hn. destruct (ratio_within n n ltac:(lia) Hn) as [Hw Hv].
  destruct one_within as [[E|[H1 _]] Hv1]; [done|].
  assert (Hval : fval (ratio n n) = 2 ^ BIAS).
  { rewrite Hv. destruct n as [|n']; cbn [Nat.eqb]; [done|].
    rewrite Z.mul_comm. apply RND_pow2; [lia|blia]. }
  pose proof (pow2_pos BIAS ltac:(blia)).
  destruct Hw as [E|[Hnorm _]].
  - rewrite E in Hval. cbn [fval] in Hval. lia.
  - apply fval_inj; [done|done|lia].
Qed.

Lemma ratio_none n : (0 < n)%nat -> Z.of_nat n < 2 ^ 32 -> ratio 0 n = number_of_Z 0.
Proof.
  intros Hpos Hn. destruct (ratio_within 0 n ltac:(lia) Hn) as [Hw Hv].
  destruct n as [|n']; [lia|]. cbn [Nat.eqb] in Hv.
  change (Z.of_nat 0 * 2 ^ BIAS) with 0 in Hv. rewrite RND_0 in Hv by lia.
  destruct Hw as [E|[Hnorm _]]; [done|]. pose proof (fval_pos _ Hnorm). lia.
Qed.

Lemma weight_within w :
  In w [WEIGHTS.searchability; WEIGHTS.hardSkills; WEIGHTS.softSkills; WEIGHTS.recruiterTips] ->
  within (-4) (-1) w.
Proof.
  intros Hin. assert (Hn : normal w /\ -56 <= expo w <= -54).
  { cbn [In] in Hin. destruct Hin as [<-|[<-|[<-|[<-|[]]]]]; cbn; lia. }
  destruct Hn as [Hn He].
  apply within_weaken with (expo w + 52) (expo w + 53); [by apply normal_within|lia|lia|blia].
Qed.

Lemma number_100 : number_of_Z 100 = S754_finite false 7036874417766400 (-46).
Proof. reflexivity. Qed.

Lemma hundred_within : within 6 7 (number_of_Z 100).
Proof.
  rewrite number_100.
  apply within_weaken with (-46 + 52) (-46 + 53); [|lia|lia|blia].
  apply (normal_within (S754_finite false 7036874417766400 (-46))). cbn [normal]. lia.
Qed.

(** The number the score is rounded from, and its value. *)
Lemma weighted_value_correct s h t r :
  within (-32) 0 s -> within (-32) 0 h -> within (-32) 0 t -> within (-32) 0 r ->
  weighted_score s h t r
  = number_of_Z (round_value (weighted_value (fval s) (fval h) (fval t) (fval r)))
  /\ 0 <= round_value (weighted_value (fval s) (fval h) (fval t) (fval r)) < 2 ^ 53.
Proof.
  intros Hs Hh Ht Hr.
  destruct (fmul_within _ _ _ _ _ _ Hs (weight_within WEIGHTS.searchability ltac:(cbn; tauto))
              ltac:(lia) ltac:(lia) ltac:(lia) ltac:(lia)) as [W1 V1].
  destruct (fmul_within _ _ _ _ _ _ Hh (weight_within WEIGHTS.hardSkills ltac:(cbn; tauto))
              ltac:(lia) ltac:(lia) ltac:(lia) ltac:(lia)) as [W2 V2].
  destruct (fmul_within _ _ _ _ _ _ Ht (weight_within WEIGHTS.softSkills ltac:(cbn; tauto))
              ltac:(lia) ltac:(lia) ltac:(lia) ltac:(lia)) as [W3 V3].
  destruct (fmul_within _ _ _ _ _ _ Hr (weight_within WEIGHTS.recruiterTips ltac:(cbn; tauto))
              ltac:(lia) ltac:(lia) ltac:(lia) ltac:(lia)) as [W4 V4].
  change (-32 + -4) with (-36) in W1, W2, W3, W4. change (0 + -1) with (-1) in W1, W2, W3, W4.
  destruct (fadd_within _ _ _ _ W1 W2 ltac:(lia) ltac:(lia)) as [A1 U1].
  change (-1 + 1) with 0 in A1.
  destruct (fadd_within (-36) 0 _ _ A1 (within_weaken _ _ (-36) 0 _ W3 ltac:(lia) ltac:(lia) ltac:(blia))
              ltac:(lia) ltac:(lia)) as [A2 U2].
  change (0 + 1) with 1 in A2.
  destruct (fadd_within (-36) 1 _ _ A2 (within_weaken _ _ (-36) 1 _ W4 ltac:(lia) ltac:(lia) ltac:(blia))
              ltac:(lia) ltac:(lia)) as [A3 U3].
  change (1 + 1) with 2 in A3.
  destruct (fmul_within _ _ _ _ _ _ A3 hundred_within
              ltac:(lia) ltac:(lia) ltac:(lia) ltac:(lia)) as [M V].
  change (-36 + 6) with (-30) in M. change (2 + 7) with 9 in M.
  unfold weighted_score, weighted_value. cbn zeta.
  rewrite <- V1, <- V2, <- V3, <- V4, <- U1, <- U2, <- U3, <- V.
  apply Math_round_fval.
  - by apply within_zn with (-30) 9.
  - destruct M as [->|[_ Hb]].
    + cbn [fval]. apply pow2_pos. blia.
    + assert (2 ^ (9 + BIAS) < 2 ^ (52 + BIAS)) by (apply pow2_lt; blia). lia.
Qed.

Lemma weighted_value_mono s h t r s' h' t' r' :
  0 <= s <= s' -> 0 <= h <= h' -> 0 <= t <= t' -> 0 <= r <= r' ->
  0 <= weighted_value s h t r <= weighted_value s' h' t' r'.
Proof.
  intros Hs Hh Ht Hr. unfold weighted_value. cbn zeta.
  pose proof (pow2_pos BIAS ltac:(blia)) as HB.
  assert (Hw : forall w, In w [WEIGHTS.searchability; WEIGHTS.hardSkills; WEIGHTS.softSkills;
                                 WEIGHTS.recruiterTips; number_of_Z 100] -> 0 < fval w).
  { intros w Hin. apply fval_pos. cbn [In] in Hin. rewrite number_100 in Hin.
    destruct Hin as [<-|[<-|[<-|[<-|[<-|[]]]]]]; cbn; lia. }
  assert (Hp : forall w a a', 0 < fval w -> 0 <= a <= a' ->
             0 <= RND (a * fval w) (2 ^ BIAS) <= RND (a' * fval w) (2 ^ BIAS)).
  { intros w a a' Hpos Ha.
    assert (0 <= a * fval w) by (apply Z.mul_nonneg_nonneg; lia).
    split; [apply RND_nonneg; lia|apply RND_mono; try lia].
    apply Z.mul_le_mono_nonneg_r; [lia|]. apply Z.mul_le_mono_nonneg_r; lia. }
  assert (Hadd : forall a a' b b', 0 <= a <= a' -> 0 <= b <= b' ->
             0 <= RND (a + b) 1 <= RND (a' + b') 1).
  { intros a a' b b' Ha Hb. split; [apply RND_nonneg; lia|apply RND_mono; lia]. }
  apply Hp; [apply Hw; cbn; tauto|].
  apply Hadd; [apply Hadd; [apply Hadd|]|]; apply Hp; try done; apply Hw; cbn; tauto.
Qed.

Lemma round_value_mono v v' : 0 <= v <= v' -> 0 <= round_value v <= round_value v'.
Proof.
  intros H. unfold round_value.
  pose proof (pow2_pos BIAS ltac:(blia)). pose proof (pow2_pos (BIAS + 1) ltac:(blia)).
  split; [apply Z.div_pos; lia|apply Z.div_le_mono; lia].
Qed.

(** The score of four full ratios is 100; it bounds every score. *)
Lemma weighted_score_full :
  weighted_score (number_of_Z 1) (number_of_Z 1) (number_of_Z 1) (number_of_Z 1)
  = number_of_Z 100.
Proof. vm_compute. reflexivity. Qed.

Lemma weighted_score_none :
  weighted_score (number_of_Z 0) (number_of_Z 0) (number_of_Z 0) (number_of_Z 0)
  = number_of_Z 0.
Proof. vm_compute. reflexivity. Qed.

Lemma weighted_value_full :
  round_value (weighted_value (2 ^ BIAS) (2 ^ BIAS) (2 ^ BIAS) (2 ^ BIAS)) = 100.
Proof.
  destruct one_within as [H1 V1].
  destruct (weighted_value_correct _ _ _ _ H1 H1 H1 H1) as [H Hb].
  rewrite V1 in H, Hb. rewrite weighted_score_full in H.
  apply (f_equal Z_of_number) in H.
  rewrite (Z_of_number_of_Z 100) in H by lia.
  rewrite (Z_of_number_of_Z _ Hb) in H.
  assert (E : forall a b : Z, Some a = Some b -> b = a) by (by intros a b [= ->]).
  apply E, H.
Qed.

(** Scores are integers between 0 and 100, and grow with the ratios. *)
Lemma weighted_score_range s h t r :
  within (-32) 0 s -> within (-32) 0 h -> within (-32) 0 t -> within (-32) 0 r ->
  exists z, weighted_score s h t r = number_of_Z z /\ 0 <= z <= 100
            /\ z = round_value (weighted_value (fval s) (fval h) (fval t) (fval r)).
Proof.
  intros Hs Hh Ht Hr.
  destruct (weighted_value_correct _ _ _ _ Hs Hh Ht Hr) as [H Hb].
  eexists. split; [exact H|]. split; [|done]. split; [lia|].
  rewrite <- weighted_value_full.
  assert (Hle : forall x, within (-32) 0 x -> 0 <= fval x <= 2 ^ BIAS).
  { intros x [->|[Hn Hx]]; [cbn [fval]; pose proof (pow2_pos BIAS ltac:(blia)); lia|].
    rewrite Z.add_0_l in Hx. pose proof (fval_pos _ Hn). lia. }
  apply round_value_mono, weighted_value_mono; by apply Hle.
Qed.

Lemma weighted_score_mono s h t r s' h' t' r' :
  within (-32) 0 s -> within (-32) 0 h -> within (-32) 0 t -> within (-32) 0 r ->
  within (-32) 0 s' -> within (-32) 0 h' -> within (-32) 0 t' -> within (-32) 0 r' ->
  fval s <= fval s' -> fval h <= fval h' -> fval t <= fval t' -> fval r <= fval r' ->
  exists z z', weighted_score s h t r = number_of_Z z
               /\ weighted_score s' h' t' r' = number_of_Z z' /\ 0 <= z <= z' /\ z' <= 100.
Proof.
  intros Hs Hh Ht Hr Hs' Hh' Ht' Hr' Ls Lh Lt Lr.
  destruct (weighted_value_correct _ _ _ _ Hs Hh Ht Hr) as [H Hb].
  destruct (weighted_score_range _ _ _ _ Hs' Hh' Ht' Hr') as (z' & H' & Hb' & Hz').
  eexists. exists z'. split; [exact H|]. split; [exact H'|]. split; [|lia].
  rewrite Hz'. apply round_value_mono, weighted_value_mono;
    (split; [by eapply within_nonneg|done]).
Qed.

Local Close Scope Z_scope.

(** * Patterns: escaping, parsing, matching *)

Lemma escaped_class_syntax c : escaped_class c = isSyntaxCharacter c.
Proof. destruct c as [[] [] [] [] [] [] [] []]; reflexivity. Qed.

Lemma syntax_not_b c : isSyntaxCharacter c = true -> Ascii.eqb c "b" = false.
Proof. destruct c as [[] [] [] [] [] [] [] []]; try reflexivity; discriminate. Qed.

Lemma syntax_backslash c :
  Ascii.eqb c "\" || Ascii.eqb c "(" || Ascii.eqb c ")" || Ascii.eqb c "|" = true ->
  isSyntaxCharacter c = true.
Proof. destruct c as [[] [] [] [] [] [] [] []]; try reflexivity; discriminate. Qed.

Lemma canonicalize_lower c : Canonicalize true (toLowerCase_unit c) = Canonicalize true c.
Proof. destruct c as [[] [] [] [] [] [] [] []]; reflexivity. Qed.

Lemma word_lower c : WordCharacters (toLowerCase_unit c) = WordCharacters c.
Proof. destruct c as [[] [] [] [] [] [] [] []]; reflexivity. Qed.

(** An escaped keyword is read back as the sequence of its characters. *)
Lemma parse_escaped kw : forall rest stack n alts cur,
  parse_pattern (escapeRegExp kw ++ rest) stack n alts cur
  = parse_pattern rest stack n alts (rev (map Char kw) ++ cur).
Proof.
  induction kw as [|c kw IH]; intros rest stack n alts cur; [reflexivity|].
  cbn [escapeRegExp flat_map map rev]. fold (escapeRegExp kw).
  rewrite <- app_assoc. cbn [app].
  rewrite escaped_class_syntax. destruct (isSyntaxCharacter c) eqn:Hs.
  - cbn [app parse_pattern]. change (Ascii.eqb "\" "\") with true. cbv iota.
    rewrite (syntax_not_b c Hs), Hs. rewrite IH, <- app_assoc. reflexivity.
  - cbn [app parse_pattern].
    destruct (Ascii.eqb c "\") eqn:E1.
    { rewrite syntax_backslash in Hs; [done|]. by rewrite E1. }
    destruct (Ascii.eqb c "(") eqn:E2.
    { rewrite syntax_backslash in Hs; [done|]. rewrite E2. by rewrite orb_true_r. }
    destruct (Ascii.eqb c ")") eqn:E3.
    { rewrite syntax_backslash in Hs; [done|]. rewrite E3. by rewrite !orb_true_r. }
    destruct (Ascii.eqb c "|") eqn:E4.
    { rewrite syntax_backslash in Hs; [done|]. rewrite E4. by rewrite !orb_true_r. }
    rewrite Hs. rewrite IH, <- app_assoc. reflexivity.
Qed.

Lemma new_RegExp_skill kw :
  new_RegExp (skill_pattern kw) (str "i") = Returns (skill_regex kw).
Proof.
  unfold new_RegExp, skill_pattern.
  change (str "\b" ++ escapeRegExp kw ++ str "\b")
    with ("\"%char :: "b"%char :: (escapeRegExp kw ++ str "\b")).
  cbn [parse_pattern]. change (Ascii.eqb "\" "\") with true. change (Ascii.eqb "b" "b") with true.
  cbv iota. rewrite parse_escaped.
  cbn [str list_ascii_of_string parse_pattern].
  change (Ascii.eqb "\" "\") with true. change (Ascii.eqb "b" "b") with true. cbv iota.
  unfold close. cbn [rev app]. rewrite rev_app_distr, rev_involutive. cbn [rev app].
  reflexivity.
Qed.

(** Matching a run of characters, then the rest of the sequence. *)
Lemma matcher_literal ic kw : forall ts S i caps k,
  matcher ic (seq_of (map Char kw ++ ts)) S i caps k
  = if literal_at ic kw S i then matcher ic (seq_of ts) S (i + length kw) caps k else None.
Proof.
  induction kw as [|c kw IH]; intros ts S i caps k.
  - cbn [map app literal_at length]. by rewrite Nat.add_0_r.
  - cbn [map app seq_of fold_right matcher literal_at length].
    destruct (nth_error S i) as [d|]; [|done].
    destruct (Canonicalize ic d =? Canonicalize ic c)%N; [|done].
    cbn [andb]. fold (seq_of (map Char kw ++ ts)). rewrite IH.
    by replace (Datatypes.S i + length kw) with (i + Datatypes.S (length kw)) by lia.
Qed.

(** One attempt of the pattern of a skill. *)
Lemma match_at_skill kw S i :
  match_at (skill_regex kw) S i
  = if is_boundary S i && literal_at true kw S i && is_boundary S (i + length kw)
    then Some (i + length kw, []) else None.
Proof.
  unfold match_at, skill_regex. cbn [pattern ignoreCase ngroups repeat].
  cbn [seq_of fold_right matcher]. fold (is_boundary S i).
  destruct (is_boundary S i); [|done]. cbn [andb].
  fold (seq_of (map Char kw ++ [WordBoundary])). rewrite matcher_literal.
  destruct (literal_at true kw S i); [|done]. cbn [andb seq_of fold_right matcher].
  fold (is_boundary S (i + length kw)). by destruct (is_boundary S (i + length kw)).
Qed.

(** The search loop finds a match if and only if some attempt succeeds. *)
Lemma search_None R S : forall remaining i,
  search R S remaining i = None <-> forall j, i <= j < i + remaining -> match_at R S j = None.
Proof.
  induction remaining as [|rem IH]; intros i; cbn [search].
  - split; [intros _ j Hj; lia|done].
  - destruct (match_at R S i) as [[e caps]|] eqn:E.
    + split; [done|]. intros H. rewrite H in E; [done|lia].
    + rewrite IH. split.
      * intros H j Hj. destruct (Nat.eq_dec j i) as [->|]; [done|]. apply H. lia.
      * intros H j Hj. apply H. lia.
Qed.

Lemma search_Some R S : forall remaining i j e caps,
  search R S remaining i = Some (j, e, caps) ->
  i <= j < i + remaining /\ match_at R S j = Some (e, caps).
Proof.
  induction remaining as [|rem IH]; intros i j e caps; cbn [search]; [done|].
  destruct (match_at R S i) as [[e' caps']|] eqn:E.
  - intros [= <- <- <-]. split; [lia|done].
  - intros H. apply IH in H. split; [lia|tauto].
Qed.

Lemma test_skill_regex kw S :
  fst (RegExp_test (skill_regex kw) S) = true
  <-> exists i, i <= length S /\ match_at (skill_regex kw) S i <> None.
Proof.
  unfold RegExp_test, RegExpBuiltinExec.
  cbn [global sticky skill_regex orb]. change (length S <? 0) with false. cbv iota.
  rewrite Nat.sub_0_r.
  destruct (search (skill_regex kw) S (Datatypes.S (length S)) 0) as [[[i e] caps]|] eqn:E.
  - cbn [fst]. split; [intros _|done].
    destruct (search_Some (skill_regex kw) S _ _ _ _ _ E) as [Hi Hm].
    exists i. split; [lia|]. by rewrite Hm.
  - cbn [fst]. split; [done|]. intros (i & Hi & Hm). exfalso. apply Hm.
    rewrite search_None in E. apply E. lia.
Qed.

(** * The word search against its specification *)

Lemma IsWordChar_lower text i : IsWordChar (toLowerCase text) i = IsWordChar text i.
Proof.
  unfold IsWordChar, toLowerCase. rewrite nth_error_map.
  destruct (nth_error text i); [apply word_lower|done].
Qed.

Lemma is_boundary_lower text i : is_boundary (toLowerCase text) i = is_boundary text i.
Proof.
  unfold is_boundary. rewrite IsWordChar_lower.
  destruct i as [|i]; cbn [IsWordChar_before]; [done|]. by rewrite IsWordChar_lower.
Qed.

Lemma literal_at_lower kw : forall text i,
  literal_at true kw (toLowerCase text) i = literal_at true kw text i.
Proof.
  induction kw as [|c kw IH]; intros text i; [done|]. cbn [literal_at].
  unfold toLowerCase at 1. rewrite nth_error_map. fold (toLowerCase text).
  destruct (nth_error text i) as [d|]; [|done]. cbn [option_map].
  by rewrite canonicalize_lower, IH.
Qed.

Lemma IsWordChar_length S i : IsWordChar S i = true -> i < length S.
Proof.
  unfold IsWordChar. destruct (nth_error S i) eqn:E; [|done].
  intros _. apply nth_error_Some. by rewrite E.
Qed.

Lemma is_boundary_length S i : is_boundary S i = true -> i <= length S.
Proof.
  unfold is_boundary. destruct (IsWordChar S i) eqn:E.
  - apply IsWordChar_length in E. lia.
  - destruct i as [|i]; cbn [IsWordChar_before]; [done|].
    destruct (IsWordChar S i) eqn:E'; [|done]. apply IsWordChar_length in E'. lia.
Qed.

Lemma skipn_nth_error {A} (S : list A) : forall i c,
  nth_error S i = Some c -> skipn i S = c :: skipn (Datatypes.S i) S.
Proof.
  induction S as [|a S IH]; intros i c H; [by destruct i|].
  destruct i as [|i].
  - injection H as ->. reflexivity.
  - change (skipn i S = c :: skipn (Datatypes.S i) S). by apply IH.
Qed.

Lemma substring_cons S i n c :
  nth_error S i = Some c ->
  substring S i (i + Datatypes.S n) = c :: substring S (Datatypes.S i) (Datatypes.S i + n).
Proof.
  unfold substring. intros H.
  replace (i + Datatypes.S n - i) with (Datatypes.S n) by lia.
  replace (Datatypes.S i + n - Datatypes.S i) with n by lia.
  rewrite (skipn_nth_error _ _ _ H). reflexivity.
Qed.

Lemma substring_none S i n : nth_error S i = None -> substring S i (i + n) = [].
Proof.
  unfold substring. intros H. apply nth_error_None in H.
  rewrite skipn_all2 by lia. by destruct (i + n - i).
Qed.

(** [literal_at], as the specification says it. *)
Lemma literal_at_Forall2 kw : forall text i,
  literal_at true kw text i = true
  <-> Forall2 same_letter (substring text i (i + length kw)) kw.
Proof.
  induction kw as [|c kw IH]; intros text i; cbn [literal_at length].
  - unfold substring. replace (i + 0 - i) with 0 by lia. cbn [firstn]. split; [constructor|done].
  - destruct (nth_error text i) as [d|] eqn:E.
    + rewrite (substring_cons _ _ _ _ E), andb_true_iff, IH, N.eqb_eq. split.
      * intros [H1 H2]. by constructor.
      * intros H. by inversion H; subst.
    + rewrite (substring_none _ _ _ E). split; [done|]. intros H. inversion H.
Qed.

(** The test of the source against the lower-cased text finds a skill
    exactly when the text reads as the skill at some index, letter case
    apart, with \b holding at both ends. *)
Lemma test_skill_spec kw text :
  fst (RegExp_test (skill_regex kw) (toLowerCase text)) = true
  <-> occurs_between_boundaries kw text.
Proof.
  rewrite test_skill_regex. unfold occurs_between_boundaries, boundary_match_at. split.
  - intros (i & Hi & Hm). exists i. rewrite match_at_skill in Hm.
    rewrite !is_boundary_lower, literal_at_lower in Hm.
    destruct (is_boundary text i); [|done].
    destruct (literal_at true kw text i) eqn:El; [|done].
    destruct (is_boundary text (i + length kw)); [|done].
    by rewrite <- literal_at_Forall2.
  - intros (i & Hb1 & Hl & Hb2). exists i. split.
    + unfold toLowerCase. rewrite length_map. by apply is_boundary_length.
    + rewrite match_at_skill, !is_boundary_lower, literal_at_lower, Hb1, Hb2.
      apply literal_at_Forall2 in Hl. by rewrite Hl.
Qed.

(** * The keyword highlighter *)

Lemma nogroup_seq_of ts : Forall nogroup ts -> nogroup (seq_of ts).
Proof. induction 1; cbn; auto. Qed.

Lemma nogroup_alt_of rest : forall a, nogroup a -> Forall nogroup rest -> nogroup (alt_of a rest).
Proof. induction rest as [|b rest IH]; intros a Ha Hr; cbn; [done|]. inversion Hr; subst. auto. Qed.

Lemma nogroup_chars kw : Forall nogroup (map Char kw).
Proof. induction kw; constructor; cbn; auto. Qed.

Lemma nogroup_close alts cur :
  Forall nogroup alts -> Forall nogroup cur -> nogroup (close alts cur).
Proof.
  intros Ha Hc. unfold close.
  assert (Hs : nogroup (seq_of (rev cur))) by (by apply nogroup_seq_of, Forall_rev).
  apply Forall_rev in Ha. destruct (rev alts) as [|a rest]; [done|].
  inversion Ha; subst. apply nogroup_alt_of; [done|]. apply Forall_app; auto.
Qed.

(** The keywords, escaped and joined by [|], are read back as alternatives
    without groups. *)
Lemma parse_join ks : forall alts,
  Forall nogroup alts ->
  exists alts' cur', Forall nogroup alts' /\ Forall nogroup cur' /\
    forall rest stack n,
      parse_pattern (join (str "|") (map escapeRegExp ks) ++ rest) stack n alts []
      = parse_pattern rest stack n alts' cur'.
Proof.
  induction ks as [|k ks IH]; intros alts Ha.
  - exists alts, []. by repeat split.
  - destruct ks as [|k2 ks].
    + exists alts, (rev (map Char k) ++ []). split; [done|]. split.
      * rewrite app_nil_r. apply Forall_rev, nogroup_chars.
      * intros rest stack n. cbn [map join]. apply parse_escaped.
    + destruct (IH (seq_of (map Char k) :: alts)) as (alts' & cur' & Ha' & Hc' & Hp).
      { constructor; [apply nogroup_seq_of, nogroup_chars|done]. }
      exists alts', cur'. split; [done|]. split; [done|].
      intros rest stack n.
      change (join (str "|") (map escapeRegExp (k :: k2 :: ks)))
        with (escapeRegExp k ++ str "|" ++ join (str "|") (map escapeRegExp (k2 :: ks))).
      rewrite <- !app_assoc, parse_escaped.
      change (str "|" ++ join (str "|") (map escapeRegExp (k2 :: ks)) ++ rest)
        with ("|"%char :: (join (str "|") (map escapeRegExp (k2 :: ks)) ++ rest)).
      cbn [parse_pattern]. change (Ascii.eqb "|" "\") with false.
      change (Ascii.eqb "|" "(") with false. change (Ascii.eqb "|" ")") with false.
      change (Ascii.eqb "|" "|") with true. cbv iota.
      rewrite app_nil_r, rev_involutive. apply Hp.
Qed.

Lemma new_RegExp_keywords keywords :
  exists body, nogroup body /\
    new_RegExp (keywords_pattern keywords) (str "gi")
    = Returns {| pattern := Seq WordBoundary (Seq (Group 0 body) (Seq WordBoundary Empty));
                 ngroups := 1; global := true; ignoreCase := true; sticky := false;
                 lastIndex := 0 |}.
Proof.
  destruct (parse_join keywords [] ltac:(constructor)) as (alts & cur & Ha & Hc & Hp).
  exists (close alts cur). split; [by apply nogroup_close|].
  unfold new_RegExp, keywords_pattern.
  change (str "\b(" ++ join (str "|") (map escapeRegExp keywords) ++ str ")\b")
    with ("\"%char :: "b"%char :: "("%char
            :: (join (str "|") (map escapeRegExp keywords) ++ str ")\b")).
  cbn [parse_pattern]. change (Ascii.eqb "\" "\") with true. change (Ascii.eqb "b" "b") with true.
  change (Ascii.eqb "(" "\") with false. change (Ascii.eqb "(" "(") with true. cbv iota.
  rewrite Hp. reflexivity.
Qed.

(** A pattern without groups leaves the captures alone and hands its
    continuation an index inside the input. *)
Lemma matcher_nogroup ic r : nogroup r ->
  forall S i caps k res, i <= length S ->
    matcher ic r S i caps k = Some res ->
    exists j, i <= j <= length S /\ k j caps = Some res.
Proof.
  induction r as [|c| |r1 IH1 r2 IH2|r1 IH1 r2 IH2|n r IH]; intros Hng S i caps k res Hi H;
    cbn [matcher nogroup] in *.
  - exists i. split; [lia|done].
  - destruct (nth_error S i) as [d|] eqn:E; [|done].
    destruct (Canonicalize ic d =? Canonicalize ic c)%N; [|done].
    exists (Datatypes.S i). split; [|done].
    assert (i < length S) by (apply nth_error_Some; by rewrite E). lia.
  - destruct (xorb _ _); [|done]. exists i. split; [lia|done].
  - destruct Hng as [H1 H2].
    destruct (IH1 H1 _ _ _ _ _ Hi H) as (j1 & Hj1 & Hk1).
    destruct (IH2 H2 S j1 caps k res ltac:(lia) Hk1) as (j2 & Hj2 & Hk2).
    exists j2. split; [lia|done].
  - destruct Hng as [H1 H2].
    destruct (matcher ic r1 S i caps k) as [z|] eqn:E.
    + injection H as ->. by apply (IH1 H1 _ _ _ _ _ Hi E).
    + by apply (IH2 H2 _ _ _ _ _ Hi H).
  - done.
Qed.

Lemma captures_match_keywords R S body :
  pattern R = Seq WordBoundary (Seq (Group 0 body) (Seq WordBoundary Empty)) ->
  ngroups R = 1 -> nogroup body -> captures_match R S.
Proof.
  intros Hp Hn Hng q e caps Hq H. unfold match_at in H. rewrite Hp, Hn in H.
  cbn [repeat matcher] in H.
  destruct (xorb (IsWordChar_before S q) (IsWordChar S q)); [|done].
  apply (matcher_nogroup _ _ Hng) in H; [|done]. destruct H as (j & Hj & H).
  cbn [insert list_insert] in H.
  destruct (xorb (IsWordChar_before S j) (IsWordChar S j)); [|done].
  injection H as <- <-. split; [done|]. cbn. by rewrite app_nil_r.
Qed.

Lemma match_at_set_lastIndex R i S q : match_at (set_lastIndex R i) S q = match_at R S q.
Proof. reflexivity. Qed.

Lemma captures_match_set_lastIndex R i S :
  captures_match R S -> captures_match (set_lastIndex R i) S.
Proof. intros H q e caps Hq Hm. by apply H. Qed.

(** An attempt of a sticky RegExp object at its [lastIndex]. *)
Lemma exec_sticky R S q :
  sticky R = true -> q <= length S ->
  RegExpBuiltinExec (set_lastIndex R q) S
  = match match_at R S q with
    | Some (e, caps) => (Some (q, e, caps), set_lastIndex R e)
    | None => (None, set_lastIndex R 0)
    end.
Proof.
  intros Hs Hq. unfold RegExpBuiltinExec. cbn [set_lastIndex global sticky lastIndex].
  rewrite Hs, orb_true_r. replace (length S <? q) with false by (symmetry; apply Nat.ltb_ge; lia).
  rewrite match_at_set_lastIndex. by destruct (match_at R S q) as [[e caps]|].
Qed.

Lemma substring_skipn S p q :
  p <= q <= length S -> substring S p q ++ skipn q S = skipn p S.
Proof.
  intros H. unfold substring.
  replace (skipn q S) with (skipn (q - p) (skipn p S)).
  - apply firstn_skipn.
  - rewrite skipn_skipn. f_equal; lia.
Qed.

Lemma substring_end S p : substring S p (length S) = skipn p S.
Proof. unfold substring. apply firstn_all2. rewrite length_skipn. lia. Qed.

(** The loop of [split] ends within its fuel, and its pieces, put together,
    are the text from [p] on (after those found before). *)
Lemma split_loop_spec S : forall fuel R p q A,
  sticky R = true -> captures_match R S -> p <= q -> q <= length S ->
  2 * (length S - q) + (if p <? q then 1 else 0) < fuel ->
  exists parts, split_loop R S fuel p q A = Returns parts
    /\ concat (map part_text parts) = concat (map part_text A) ++ skipn p S.
Proof.
  induction fuel as [|fuel IH]; intros R p q A Hs Hc Hpq Hq Hfuel; [lia|].
  cbn [split_loop]. destruct (Nat.ltb_spec q (length S)) as [Hlt|Hge].
  - rewrite exec_sticky by (done || lia).
    assert (Hnext : forall R', sticky R' = true -> captures_match R' S -> exists parts,
      split_loop R' S fuel p (Datatypes.S q) A = Returns parts
      /\ concat (map part_text parts) = concat (map part_text A) ++ skipn p S).
    { intros R' Hs' Hc'. apply IH; [done|done|lia|lia|].
      destruct (p <? q); destruct (p <? Datatypes.S q); lia. }
    destruct (match_at R S q) as [[e caps]|] eqn:E.
    2:{ by apply Hnext; [|apply captures_match_set_lastIndex]. }
    destruct (Hc q e caps ltac:(lia) E) as [He Hcaps].
    cbn [set_lastIndex lastIndex]. rewrite Nat.min_l by lia.
    destruct (Nat.eqb_spec e p) as [Hep|Hep].
    + by apply Hnext; [|apply captures_match_set_lastIndex].
    + destruct (IH (set_lastIndex R e) e e (A ++ [Some (substring S p q)] ++ caps))
        as (parts & Hparts & Hconcat);
        [done|by apply captures_match_set_lastIndex|lia|lia| |].
      { rewrite Nat.ltb_irrefl. destruct (Nat.ltb_spec p q); lia. }
      exists parts. split; [done|]. rewrite Hconcat.
      rewrite !map_app, !concat_app, Hcaps. cbn [map concat part_text].
      rewrite app_nil_r, <- !app_assoc. f_equal.
      rewrite (substring_skipn S q e) by lia. apply substring_skipn. lia.
  - exists (A ++ [Some (substring S p (length S))]). split; [done|].
    rewrite map_app, concat_app. cbn [map concat part_text]. by rewrite app_nil_r, substring_end.
Qed.

Lemma String_split_spec S rx :
  captures_match rx S ->
  exists parts, String_split S rx = Returns parts /\ concat (map part_text parts) = S.
Proof.
  intros Hc. unfold String_split.
  set (splitter := {| pattern := pattern rx; ngroups := ngroups rx; global := global rx;
                      ignoreCase := ignoreCase rx; sticky := true; lastIndex := 0 |}).
  destruct (Nat.eqb_spec (length S) 0) as [Hz|Hnz].
  - destruct S; [|done]. destruct (RegExpBuiltinExec splitter []) as [[m|] R'].
    + by exists [].
    + by exists [Some []].
  - destruct (split_loop_spec S (2 * length S + 2) splitter 0 0 []) as (parts & Hp & Hconcat);
      [done|exact Hc|lia|lia|cbn; lia|].
    exists parts. split; [done|]. by rewrite Hconcat.
Qed.

Lemma mark_parts_text parts : forall regex,
  map segment_text (mark_parts regex parts) = map part_text parts.
Proof.
  induction parts as [|part parts IH]; intros regex; [done|].
  cbn [mark_parts]. destruct (RegExp_test regex (part_ToString part)) as [found regex'].
  cbn [map]. rewrite IH. by destruct found.
Qed.

(** The highlighter returns, and what it returns reads as the text. *)
Lemma highlightKeywords_text keywords text :
  exists node, highlightKeywords keywords text = Returns node /\ node_text node = text.
Proof.
  unfold highlightKeywords.
  destruct ((length keywords =? 0) || (length text =? 0)).
  - exists (NodeText text). split; [done|]. unfold node_text. cbn. by rewrite app_nil_r.
  - destruct (new_RegExp_keywords keywords) as (body & Hng & ->). cbn [bind].
    match goal with |- context [String_split text ?R] => set (regex := R) end.
    destruct (String_split_spec text regex) as (parts & -> & Hconcat).
    { by apply captures_match_keywords with body. }
    cbn [bind]. eexists. split; [done|].
    unfold node_text. cbn [node_segments]. by rewrite mark_parts_text.
Qed.

Lemma highlightKeywords_trivial keywords text :
  keywords = [] \/ text = [] -> highlightKeywords keywords text = Returns (NodeText text).
Proof.
  unfold highlightKeywords. intros [-> | ->]; [done|].
  cbn [length Nat.eqb]. by rewrite orb_true_r.
Qed.

(** * The optimized score on values *)

Lemma mark_if_added_marked lower s : mark_if_added lower s = Returns (marked lower s).
Proof.
  unfold mark_if_added, marked. destruct (resumeCount s =? -1)%Z; [|done].
  rewrite new_RegExp_skill. cbn [bind andb].
  by destruct (fst (RegExp_test (skill_regex (skill s)) lower)).
Qed.

Lemma mapM_mark_if_added lower l :
  mapM (mark_if_added lower) l = Returns (map (marked lower) l).
Proof.
  induction l as [|s l IH]; [done|]. cbn [mapM map].
  by rewrite mark_if_added_marked, IH.
Qed.

(** The optimized score never throws: it is the score of the copy. *)
Lemma calculateOptimizedScore_copy report optimizedResume :
  calculateOptimizedScore report optimizedResume
  = Returns (calculateScore (optimized_copy report optimizedResume)).
Proof. unfold calculateOptimizedScore. by rewrite !mapM_mark_if_added. Qed.

Lemma marked_spec text s : skill_updated text s (marked (toLowerCase text) s).
Proof.
  unfold skill_updated, marked.
  destruct (Z.eqb_spec (resumeCount s) (-1)) as [E|E]; cbn [andb].
  - destruct (fst (RegExp_test (skill_regex (skill s)) (toLowerCase text))) eqn:T.
    + apply test_skill_spec in T. cbn. repeat split; try done.
    + assert (~ occurs_between_boundaries (skill s) text).
      { intros H. apply test_skill_spec in H. congruence. }
      repeat split; try done.
  - repeat split; try done.
Qed.

Lemma marked_found lower s : skill_found s = true -> skill_found (marked lower s) = true.
Proof.
  unfold marked, skill_found. destruct (resumeCount s =? -1)%Z eqn:E; [done|].
  cbn [andb]. by rewrite E.
Qed.

Lemma filter_marked lower l :
  length (List.filter skill_found l) <= length (List.filter skill_found (map (marked lower) l)).
Proof.
  induction l as [|s l IH]; [done|]. cbn [List.filter map].
  destruct (skill_found s) eqn:E.
  - rewrite (marked_found lower s E). cbn [length]. lia.
  - destruct (skill_found (marked lower s)); cbn [length]; lia.
Qed.

Lemma filter_passed l :
  List.filter tip_passed (map (fun tip => set_status tip pass) l)
  = map (fun tip => set_status tip pass) l.
Proof. induction l as [|t l IH]; [done|]. cbn. by rewrite IH. Qed.

Lemma filter_length_le {A} (f : A -> bool) l : length (List.filter f l) <= length l.
Proof. induction l as [|a l IH]; [done|]. cbn. destruct (f a); cbn; lia. Qed.

Lemma filter_all {A} (f : A -> bool) l : Forall (fun a => f a = true) l -> List.filter f l = l.
Proof. induction 1 as [|a l Ha _ IH]; [done|]. cbn. by rewrite Ha, IH. Qed.

Lemma filter_none {A} (f : A -> bool) l : Forall (fun a => f a = false) l -> List.filter f l = [].
Proof. induction 1 as [|a l Ha _ IH]; [done|]. cbn. by rewrite Ha. Qed.

Lemma optimized_copy_ok report text : report_ok report -> report_ok (optimized_copy report text).
Proof.
  unfold report_ok, array_ok, optimized_copy. cbn [searchability hardSkills softSkills recruiterTips tips skills].
  by rewrite !length_map.
Qed.

(** * The optimized score in the store *)

Lemma alloc_fresh (h : gmap positive object) o :
  h !! (alloc h o).1 = None /\ (alloc h o).2 = <[(alloc h o).1 := o]> h.
Proof.
  unfold alloc. cbn [fst snd]. split; [|done].
  apply not_elem_of_dom, is_fresh.
Qed.

(** New objects: the references are fresh and distinct, each one holds its
    object, and the objects of the store before are as they were. *)
Lemma alloc_all_spec os : forall (h : gmap positive object) ls h',
  alloc_all h os = (ls, h') ->
  h ⊆ h' /\ Forall2 (fun l o => h' !! l = Some o) ls os
  /\ Forall (fun l => h !! l = None) ls /\ NoDup ls.
Proof.
  induction os as [|o os IH]; intros h ls h' H; cbn [alloc_all] in H.
  - injection H as <- <-. split; [done|]. repeat split; constructor.
  - destruct (alloc_fresh h o) as [Hf Hh1].
    destruct (alloc h o) as [l h1]. cbn [fst snd] in Hf, Hh1. subst h1.
    destruct (alloc_all (<[l:=o]> h) os) as [ls' h2] eqn:E.
    injection H as <- <-.
    destruct (IH _ _ _ E) as (Hsub & Hall & Hfresh & Hnd).
    assert (Hsub1 : h ⊆ <[l:=o]> h) by (by apply insert_subseteq).
    assert (Hl : l ∉ ls').
    { intros Hin. rewrite Forall_forall in Hfresh. specialize (Hfresh l Hin).
      by rewrite lookup_insert_eq in Hfresh. }
    repeat split.
    + by etrans.
    + constructor; [|done]. eapply lookup_weaken; [|exact Hsub]. apply lookup_insert_eq.
    + constructor; [done|]. eapply Forall_impl; [exact Hfresh|].
      intros l' Hl'. cbn in Hl'. destruct (decide (l = l')) as [->|Hne].
      * by rewrite lookup_insert_eq in Hl'.
      * by rewrite lookup_insert_ne in Hl'.
    + by constructor.
Qed.

Lemma mapM_read_skill (h : gmap positive object) ls vs :
  Forall2 (fun l o => h !! l = Some o) ls (map SkillObject vs) ->
  mapM (read_skill h) ls = Returns vs.
Proof.
  revert vs. induction ls as [|l ls IH]; intros vs H.
  - destruct vs; [done|]. inversion H.
  - destruct vs as [|v vs]; [inversion H|]. cbn [map] in H. inversion H; subst.
    cbn [mapM]. unfold read_skill at 1. rewrite H3. cbn [bind]. by rewrite (IH vs).
Qed.

Lemma mapM_read_tip (h : gmap positive object) ls vs :
  Forall2 (fun l o => h !! l = Some o) ls (map TipObject vs) ->
  mapM (read_tip h) ls = Returns vs.
Proof.
  revert vs. induction ls as [|l ls IH]; intros vs H.
  - destruct vs; [done|]. inversion H.
  - destruct vs as [|v vs]; [inversion H|]. cbn [map] in H. inversion H; subst.
    cbn [mapM]. unfold read_tip at 1. rewrite H3. cbn [bind]. by rewrite (IH vs).
Qed.

Lemma mapM_read_skill_inv (h : gmap positive object) ls vs :
  mapM (read_skill h) ls = Returns vs ->
  Forall2 (fun l o => h !! l = Some o) ls (map SkillObject vs).
Proof.
  revert vs. induction ls as [|l ls IH]; intros vs H; cbn [mapM] in H.
  - injection H as <-. constructor.
  - unfold read_skill at 1 in H. destruct (h !! l) as [[s|t]|] eqn:E; try done.
    cbn [bind] in H. destruct (mapM (read_skill h) ls) as [vs'| |] eqn:E'; try done.
    cbn [bind] in H. injection H as <-. constructor; [done|]. by apply IH.
Qed.

Lemma mapM_read_tip_inv (h : gmap positive object) ls vs :
  mapM (read_tip h) ls = Returns vs ->
  Forall2 (fun l o => h !! l = Some o) ls (map TipObject vs).
Proof.
  revert vs. induction ls as [|l ls IH]; intros vs H; cbn [mapM] in H.
  - injection H as <-. constructor.
  - unfold read_tip at 1 in H. destruct (h !! l) as [[s|t]|] eqn:E; try done.
    cbn [bind] in H. destruct (mapM (read_tip h) ls) as [vs'| |] eqn:E'; try done.
    cbn [bind] in H. injection H as <-. constructor; [done|]. by apply IH.
Qed.

Lemma Forall2_lookup_weaken (h h' : gmap positive object) ls os :
  h ⊆ h' -> Forall2 (fun l o => h !! l = Some o) ls os ->
  Forall2 (fun l o => h' !! l = Some o) ls os.
Proof.
  intros Hsub H. eapply Forall2_impl; [exact H|]. intros l o Hl. cbn in Hl.
  by eapply lookup_weaken.
Qed.

(** A report that is in a store is, unchanged, in every larger store. *)
Lemma load_report_weaken (h h' : gmap positive object) r v :
  h ⊆ h' -> load_report h r = Returns v -> load_report h' r = Returns v.
Proof.
  intros Hsub H. unfold load_report in *.
  destruct (mapM (read_tip h) (tips_ref (searchability_ref r))) as [a| |] eqn:E1; try done.
  cbn [bind] in H.
  destruct (mapM (read_skill h) (skills_ref (hardSkills_ref r))) as [b| |] eqn:E2; try done.
  cbn [bind] in H.
  destruct (mapM (read_skill h) (skills_ref (softSkills_ref r))) as [c| |] eqn:E3; try done.
  cbn [bind] in H.
  destruct (mapM (read_tip h) (tips_ref (recruiterTips_ref r))) as [d| |] eqn:E4; try done.
  cbn [bind] in H.
  rewrite (mapM_read_tip h' _ a), (mapM_read_skill h' _ b), (mapM_read_skill h' _ c),
    (mapM_read_tip h' _ d); [done|..];
    eapply Forall2_lookup_weaken; try exact Hsub;
    (by apply mapM_read_tip_inv) || (by apply mapM_read_skill_inv).
Qed.

Lemma cells_at_frame (h h' : gmap positive object) ls os :
  (forall l, l ∈ ls -> h' !! l = h !! l) -> cells_at h ls os -> cells_at h' ls os.
Proof.
  unfold cells_at. intros Hf H. induction H as [|l o ls os Hl H IH]; constructor.
  - rewrite Hf; [done|]. apply elem_of_cons. by left.
  - apply IH. intros l' Hl'. apply Hf. apply elem_of_cons. by right.
Qed.

Lemma cells_at_fresh (h h' : gmap positive object) ls os l :
  cells_at h' ls os -> h' !! l = None -> l ∉ ls.
Proof.
  unfold cells_at. intros H Hl Hin. induction H as [|l' o ls os Hl' H IH].
  - by apply elem_of_nil in Hin.
  - apply elem_of_cons in Hin as [->|Hin]; [congruence|by apply IH].
Qed.

(** [JSON.parse]: the report it builds is the value it was given, made of
    new objects, all distinct. *)
Lemma JSON_parse_spec (h : gmap positive object) v r' h' :
  JSON_parse h v = (r', h') ->
  h ⊆ h'
  /\ cells_at h' (tips_ref (searchability_ref r')) (map TipObject (tips (searchability v)))
  /\ cells_at h' (skills_ref (hardSkills_ref r')) (map SkillObject (skills (hardSkills v)))
  /\ cells_at h' (skills_ref (softSkills_ref r')) (map SkillObject (skills (softSkills v)))
  /\ cells_at h' (tips_ref (recruiterTips_ref r')) (map TipObject (tips (recruiterTips v)))
  /\ NoDup (refs_of r') /\ Forall (fun l => h !! l = None) (refs_of r')
  /\ tips_issues_ref (searchability_ref r') = tips_issues (searchability v)
  /\ skills_issues_ref (hardSkills_ref r') = skills_issues (hardSkills v)
  /\ skills_issues_ref (softSkills_ref r') = skills_issues (softSkills v)
  /\ tips_issues_ref (recruiterTips_ref r') = tips_issues (recruiterTips v).
Proof.
  unfold JSON_parse. intros H.
  destruct (alloc_all h (map TipObject (tips (searchability v)))) as [L1 h1] eqn:E1.
  destruct (alloc_all h1 (map SkillObject (skills (hardSkills v)))) as [L2 h2] eqn:E2.
  destruct (alloc_all h2 (map SkillObject (skills (softSkills v)))) as [L3 h3] eqn:E3.
  destruct (alloc_all h3 (map TipObject (tips (recruiterTips v)))) as [L4 h4] eqn:E4.
  injection H as <- <-. unfold refs_of.
  cbn [searchability_ref hardSkills_ref softSkills_ref recruiterTips_ref tips_ref skills_ref
       tips_issues_ref skills_issues_ref].
  destruct (alloc_all_spec _ _ _ _ E1) as (S1 & C1 & F1 & N1).
  destruct (alloc_all_spec _ _ _ _ E2) as (S2 & C2 & F2 & N2).
  destruct (alloc_all_spec _ _ _ _ E3) as (S3 & C3 & F3 & N3).
  destruct (alloc_all_spec _ _ _ _ E4) as (S4 & C4 & F4 & N4).
  assert (S12 : h ⊆ h2) by (by etrans). assert (S13 : h ⊆ h3) by (by etrans).
  assert (S23 : h1 ⊆ h3) by (by etrans). assert (S24 : h2 ⊆ h4) by (by etrans).
  assert (S14 : h1 ⊆ h4) by (by etrans). assert (S04 : h ⊆ h4) by (by etrans).
  assert (C1' : cells_at h4 L1 (map TipObject (tips (searchability v))))
    by exact (Forall2_lookup_weaken h1 h4 _ _ S14 C1).
  assert (C2' : cells_at h4 L2 (map SkillObject (skills (hardSkills v))))
    by exact (Forall2_lookup_weaken h2 h4 _ _ S24 C2).
  assert (C3' : cells_at h4 L3 (map SkillObject (skills (softSkills v))))
    by exact (Forall2_lookup_weaken h3 h4 _ _ S4 C3).
  assert (Hnone : forall (ha hb : gmap positive object) l, ha ⊆ hb -> hb !! l = None -> ha !! l = None).
  { intros ha hb l Hsub Hl. destruct (ha !! l) as [o|] eqn:E; [|done].
    by rewrite (lookup_weaken _ _ _ _ E Hsub) in Hl. }
  repeat split; try done.
  - rewrite Forall_forall in F2, F3, F4.
    apply NoDup_app. split; [done|]. split.
    { intros l Hl Hin. rewrite !elem_of_app in Hin. destruct Hin as [Hin|[Hin|Hin]].
      - by apply (cells_at_fresh h1 h1 _ _ l C1 (F2 l Hin)).
      - apply (cells_at_fresh h1 h2 _ _ l (Forall2_lookup_weaken _ _ _ _ S2 C1)); [|done].
        by apply F3.
      - apply (cells_at_fresh h1 h3 _ _ l (Forall2_lookup_weaken _ _ _ _ S23 C1)); [|done].
        by apply F4. }
    apply NoDup_app. split; [done|]. split.
    { intros l Hl Hin. rewrite !elem_of_app in Hin. destruct Hin as [Hin|Hin].
      - by apply (cells_at_fresh h2 h2 _ _ l C2 (F3 l Hin)).
      - apply (cells_at_fresh h2 h3 _ _ l (Forall2_lookup_weaken _ _ _ _ S3 C2)); [|done].
        by apply F4. }
    apply NoDup_app. split; [done|]. split; [|done].
    intros l Hl Hin. by apply (cells_at_fresh h3 h3 _ _ l C3 (F4 l Hin)).
  - rewrite !Forall_app. repeat split; [done|..].
    + eapply Forall_impl; [exact F2|]. intros l Hl. by apply (Hnone h h1).
    + eapply Forall_impl; [exact F3|]. intros l Hl. by apply (Hnone h h2).
    + eapply Forall_impl; [exact F4|]. intros l Hl. by apply (Hnone h h3).
Qed.

(** The loop over the skills of the copy: every skill ends up [marked], and
    nothing else in the store is touched. *)
Lemma forEach_mark_if_added_spec lower ls : forall vs (h : gmap positive object),
  NoDup ls -> cells_at h ls (map SkillObject vs) ->
  exists h', forEach_mark_if_added lower ls h = Returns h'
    /\ cells_at h' ls (map SkillObject (map (marked lower) vs))
    /\ forall l, l ∉ ls -> h' !! l = h !! l.
Proof.
  induction ls as [|l ls IH]; intros vs h Hnd Hc.
  - destruct vs; [|inversion Hc]. exists h. split; [done|]. split; [constructor|done].
  - destruct vs as [|s vs]; [inversion Hc|]. cbn [map] in Hc. inversion Hc; subst.
    apply NoDup_cons in Hnd as [Hl Hnd].
    cbn [forEach_mark_if_added]. unfold read_skill. rewrite H2. cbn [bind].
    set (h1 := if (resumeCount s =? -1)%Z
                   && fst (RegExp_test (skill_regex (skill s)) lower)
               then <[l := SkillObject (set_resumeCount s 1)]> h else h).
    assert (Hh1 : h1 !! l = Some (SkillObject (marked lower s))
                  /\ forall l', l' <> l -> h1 !! l' = h !! l').
    { unfold h1, marked.
      destruct ((resumeCount s =? -1)%Z && fst (RegExp_test (skill_regex (skill s)) lower)).
      - split; [apply lookup_insert_eq|]. intros l' Hne. by apply lookup_insert_ne.
      - by split. }
    destruct Hh1 as [Hl1 Hf1].
    destruct (IH vs h1 Hnd) as (h' & Hrun & Hcells & Hframe).
    { apply cells_at_frame with h; [|done]. intros l' Hin. apply Hf1. by intros ->. }
    exists h'. split; [|split].
    + rewrite <- Hrun. unfold h1.
      destruct (resumeCount s =? -1)%Z; cbn [andb]; [|done].
      rewrite new_RegExp_skill. cbn [bind].
      by destruct (fst (RegExp_test (skill_regex (skill s)) lower)).
    + cbn [map]. constructor; [|done]. by rewrite Hframe.
    + intros l' Hl'. rewrite not_elem_of_cons in Hl'. destruct Hl' as [Hne Hl'].
      rewrite Hframe by done. by apply Hf1.
Qed.

Lemma forEach_set_pass_spec ls : forall vs (h : gmap positive object),
  NoDup ls -> cells_at h ls (map TipObject vs) ->
  exists h', forEach_set_pass ls h = Returns h'
    /\ cells_at h' ls (map TipObject (map (fun tip => set_status tip pass) vs))
    /\ forall l, l ∉ ls -> h' !! l = h !! l.
Proof.
  induction ls as [|l ls IH]; intros vs h Hnd Hc.
  - destruct vs; [|inversion Hc]. exists h. split; [done|]. split; [constructor|done].
  - destruct vs as [|t vs]; [inversion Hc|]. cbn [map] in Hc. inversion Hc; subst.
    apply NoDup_cons in Hnd as [Hl Hnd].
    cbn [forEach_set_pass]. unfold read_tip. rewrite H2. cbn [bind].
    destruct (IH vs (<[l := TipObject (set_status t pass)]> h) Hnd) as (h' & Hrun & Hcells & Hframe).
    { apply cells_at_frame with h; [|done]. intros l' Hin. apply lookup_insert_ne. by intros ->. }
    exists h'. split; [done|]. split.
    + cbn [map]. constructor; [|done]. rewrite Hframe by done. apply lookup_insert_eq.
    + intros l' Hl'. rewrite not_elem_of_cons in Hl'. destruct Hl' as [Hne Hl'].
      rewrite Hframe by done. by apply lookup_insert_ne.
Qed.

Lemma load_report_cells (h : gmap positive object) r v :
  cells_at h (tips_ref (searchability_ref r)) (map TipObject (tips (searchability v))) ->
  cells_at h (skills_ref (hardSkills_ref r)) (map SkillObject (skills (hardSkills v))) ->
  cells_at h (skills_ref (softSkills_ref r)) (map SkillObject (skills (softSkills v))) ->
  cells_at h (tips_ref (recruiterTips_ref r)) (map TipObject (tips (recruiterTips v))) ->
  tips_issues_ref (searchability_ref r) = tips_issues (searchability v) ->
  skills_issues_ref (hardSkills_ref r) = skills_issues (hardSkills v) ->
  skills_issues_ref (softSkills_ref r) = skills_issues (softSkills v) ->
  tips_issues_ref (recruiterTips_ref r) = tips_issues (recruiterTips v) ->
  load_report h r = Returns v.
Proof.
  intros C1 C2 C3 C4 I1 I2 I3 I4. unfold load_report.
  rewrite (mapM_read_tip _ _ _ C1), (mapM_read_skill _ _ _ C2),
    (mapM_read_skill _ _ _ C3), (mapM_read_tip _ _ _ C4). cbn [bind].
  rewrite I1, I2, I3, I4. by destruct v as [[] [] [] []].
Qed.

(** The run of [calculateOptimizedScore] in a store: it returns the score
    that the function on values gives, and it leaves every object that was
    in the store as it was; the report is read back unchanged. *)
Lemma calculateOptimizedScore_ref_spec (h : gmap positive object) report text v :
  load_report h report = Returns v ->
  exists score h',
    calculateOptimizedScore_ref h report text = Returns (score, h')
    /\ h ⊆ h'
    /\ load_report h' report = Returns v
    /\ calculateOptimizedScore v text = Returns score.
Proof.
  intros Hload. unfold calculateOptimizedScore_ref, deep_copy. rewrite Hload. cbn [bind].
  destruct (JSON_parse h v) as [r' h0] eqn:EP.
  destruct (JSON_parse_spec _ _ _ _ EP)
    as (S0 & C1 & C2 & C3 & C4 & Hnd & Hfresh & I1 & I2 & I3 & I4).
  unfold refs_of in Hnd, Hfresh.
  set (L1 := tips_ref (searchability_ref r')) in *.
  set (L2 := skills_ref (hardSkills_ref r')) in *.
  set (L3 := skills_ref (softSkills_ref r')) in *.
  set (L4 := tips_ref (recruiterTips_ref r')) in *.
  apply NoDup_app in Hnd as (N1 & D1 & Hnd).
  apply NoDup_app in Hnd as (N2 & D2 & Hnd).
  apply NoDup_app in Hnd as (N3 & D3 & N4).
  assert (P12 : forall l, l ∈ L1 -> l ∈ L2 -> False).
  { intros l H1 H2. apply (D1 l H1). rewrite !elem_of_app. auto. }
  assert (P13 : forall l, l ∈ L1 -> l ∈ L3 -> False).
  { intros l H1 H2. apply (D1 l H1). rewrite !elem_of_app. auto. }
  assert (P14 : forall l, l ∈ L1 -> l ∈ L4 -> False).
  { intros l H1 H2. apply (D1 l H1). rewrite !elem_of_app. auto. }
  assert (P23 : forall l, l ∈ L2 -> l ∈ L3 -> False).
  { intros l H1 H2. apply (D2 l H1). rewrite !elem_of_app. auto. }
  assert (P24 : forall l, l ∈ L2 -> l ∈ L4 -> False).
  { intros l H1 H2. apply (D2 l H1). rewrite !elem_of_app. auto. }
  assert (P34 : forall l, l ∈ L3 -> l ∈ L4 -> False).
  { intros l H1 H2. by apply (D3 l H1). }
  set (lower := toLowerCase text).
  destruct (forEach_mark_if_added_spec lower L2 _ h0 N2 C2) as (h1 & -> & C2' & F1). cbn [bind].
  assert (C3a : cells_at h1 L3 (map SkillObject (skills (softSkills v)))).
  { apply cells_at_frame with h0; [|done]. intros l Hl. apply F1. intros Hin. eauto. }
  destruct (forEach_mark_if_added_spec lower L3 _ h1 N3 C3a) as (h2 & -> & C3' & F2). cbn [bind].
  assert (C1a : cells_at h2 L1 (map TipObject (tips (searchability v)))).
  { apply cells_at_frame with h0; [|done]. intros l Hl.
    rewrite F2, F1; [done|..]; intros Hin; eauto. }
  destruct (forEach_set_pass_spec L1 _ h2 N1 C1a) as (h3 & -> & C1' & F3). cbn [bind].
  assert (C4a : cells_at h3 L4 (map TipObject (tips (recruiterTips v)))).
  { apply cells_at_frame with h0; [|done]. intros l Hl.
    rewrite F3, F2, F1; [done|..]; intros Hin; eauto. }
  destruct (forEach_set_pass_spec L4 _ h3 N4 C4a) as (h4 & -> & C4' & F4). cbn [bind].
  assert (Hcopy : load_report h4 r' = Returns (optimized_copy v text)).
  { apply load_report_cells; cbn [optimized_copy searchability hardSkills softSkills
                                   recruiterTips tips skills tips_issues skills_issues];
      try done.
    - apply cells_at_frame with h3; [|done]. intros l Hl. apply F4. intros Hin. eauto.
    - apply cells_at_frame with h1; [|done]. intros l Hl.
      rewrite F4, F3, F2; [done|..]; intros Hin; eauto.
    - apply cells_at_frame with h2; [|done]. intros l Hl.
      rewrite F4, F3; [done|..]; intros Hin; eauto. }
  assert (Hsub : h ⊆ h4).
  { apply map_subseteq_spec. intros l o Hl.
    assert (Hnot : forall L, L = L1 \/ L = L2 \/ L = L3 \/ L = L4 -> l ∉ L).
    { intros L HL Hin. rewrite Forall_forall in Hfresh.
      assert (h !! l = None); [|congruence].
      apply Hfresh. rewrite !elem_of_app. destruct HL as [->|[->|[->| ->]]]; auto. }
    rewrite F4, F3, F2, F1 by (apply Hnot; auto).
    by eapply lookup_weaken. }
  unfold calculateScore_ref. rewrite Hcopy. cbn [bind].
  eexists _, h4. split; [done|]. split; [done|]. split.
  - by apply load_report_weaken with h.
  - by rewrite calculateOptimizedScore_copy.
Qed.

(** * The colour of a score *)

Section Color.
Local Open Scope Z_scope.

Lemma canonical_digits m e :
  canonical_mantissa prec emax m e = true ->
  Zpos m < 2 ^ 53 /\ (-1074 < e -> 2 ^ 52 <= Zpos m).
Proof.
  unfold canonical_mantissa, fexp, emin, prec, emax. intros H. apply Z.eqb_eq in H.
  pose proof (digits2_bounds m) as Hb. set (d := Zpos (digits2_pos m)) in *.
  assert (Hd : d <= 53) by lia.
  split.
  - assert (2 ^ d <= 2 ^ 53) by (apply pow2_le; lia). lia.
  - intros He. assert (d = 53) by lia. replace (d - 1) with 52 in Hb by lia. lia.
Qed.

(** [score >= t] for an integral score and a threshold between 64 and 127,
    which is a number of exponent -46. *)
Lemma fge_threshold x z t mt :
  valid_binary prec emax x = true -> Z_of_number x = Some z ->
  number_of_Z t = S754_finite false mt (-46) -> Zpos mt = t * 2 ^ 46 -> 64 <= t < 128 ->
  fge x (number_of_Z t) = (t <=? z).
Proof.
  intros Hv Hz Ht Hmt Hr. rewrite Ht. unfold fge, SFleb.
  destruct x as [s|s| |s m e]; cbn [Z_of_number] in Hz; try done.
  - injection Hz as <-. cbn. symmetry. apply Z.leb_gt. lia.
  - cbn [valid_binary bounded] in Hv. apply andb_true_iff in Hv as [Hc _].
    destruct (canonical_digits m e Hc) as [Hhi Hlo].
    destruct s.
    { cbn [SFcompare]. symmetry. apply Z.leb_gt.
      destruct (Z.leb_spec 0 e).
      - injection Hz as <-. cbn [cond_Zopp].
        assert (H0 : 0 <= Zpos m * 2 ^ e) by (apply Z.mul_nonneg_nonneg; [lia|apply Z.pow_nonneg; lia]).
        clear - H0 Hr. lia.
      - destruct (Zpos m mod 2 ^ (- e) =? 0); [|done]. injection Hz as <-. cbn [cond_Zopp].
        assert (H0 : 0 <= Zpos m / 2 ^ (- e)) by (apply Z.div_pos; [lia|apply Z.pow_pos_nonneg; lia]).
        clear - H0 Hr. lia. }
    cbn [SFcompare]. rewrite Pos.compare_cont_spec. cbn [Pos.switch_Eq].
    destruct (Z.compare_spec (-46) e) as [Heq|Hlt|Hgt].
    + subst e. cbn [Z.leb Z.compare Z.opp] in Hz. change (- -46) with 46 in Hz.
      destruct (Z.eqb_spec (Zpos m mod 2 ^ 46) 0) as [Hmod|]; [|done].
      injection Hz as <-. cbn [cond_Zopp].
      pose proof (Z.div_mod (Zpos m) (2 ^ 46) ltac:(lia)) as Hdm. rewrite Hmod in Hdm.
      destruct (Pos.compare_spec mt m) as [E|E|E]; cbn [Pos.switch_Eq]; symmetry.
      * apply Z.leb_le. subst. lia.
      * apply Z.leb_le. lia.
      * apply Z.leb_gt. lia.
    + symmetry. apply Z.leb_le. specialize (Hlo ltac:(lia)).
      destruct (Z.leb_spec 0 e).
      * injection Hz as <-. cbn [cond_Zopp].
        assert (1 <= 2 ^ e) by (pose proof (pow2_pos e ltac:(lia)); lia).
        change (2 ^ 52) with 4503599627370496 in Hlo. nia.
      * destruct (Z.eqb_spec (Zpos m mod 2 ^ (- e)) 0) as [Hmod|]; [|done].
        injection Hz as <-. cbn [cond_Zopp].
        assert (2 ^ (- e) <= 2 ^ 45) by (apply pow2_le; lia).
        pose proof (pow2_pos (- e) ltac:(lia)).
        pose proof (Z.div_mod (Zpos m) (2 ^ (- e)) ltac:(lia)) as Hdm. rewrite Hmod in Hdm.
        change (2 ^ 52) with (128 * 2 ^ 45) in Hlo. nia.
    + symmetry. apply Z.leb_gt.
      destruct (Z.leb_spec 0 e); [lia|].
      destruct (Z.eqb_spec (Zpos m mod 2 ^ (- e)) 0) as [Hmod|]; [|done].
      injection Hz as <-. cbn [cond_Zopp].
      assert (2 ^ 47 <= 2 ^ (- e)) by (apply pow2_le; lia).
      pose proof (Z.div_mod (Zpos m) (2 ^ (- e)) ltac:(lia)) as Hdm. rewrite Hmod in Hdm.
      change (2 ^ 53) with (64 * 2 ^ 47) in Hhi.
      assert (Zpos m / 2 ^ (- e) < 64); [|lia].
      apply Z.div_lt_upper_bound; lia.
Qed.

Lemma getScoreColor_cases x z :
  valid_binary prec emax x = true -> Z_of_number x = Some z ->
  getScoreColor x = if 90 <=? z then green else if 75 <=? z then yellow else red.
Proof.
  intros Hv Hz. unfold getScoreColor.
  rewrite (fge_threshold x z 90 6333186975989760 Hv Hz) by (reflexivity || lia).
  rewrite (fge_threshold x z 75 5277655813324800 Hv Hz) by (reflexivity || lia).
  reflexivity.
Qed.
End Color.

(** * The score of a report: range, extremes, order *)

Section Scores.
Local Open Scope Z_scope.

Lemma ratio_within_filter {A} (f : A -> bool) (l : list A) :
  array_ok l ->
  within (-32) 0 (ratio (length (List.filter f l)) (length l))
  /\ fval (ratio (length (List.filter f l)) (length l))
     = ratio_value (length (List.filter f l)) (length l).
Proof. intros H. apply ratio_within; [apply filter_length_le|exact H]. Qed.

Lemma calculateScore_value report :
  report_ok report ->
  exists z, calculateScore report = number_of_Z z /\ 0 <= z <= 100
    /\ z = round_value
             (weighted_value
                (ratio_value (length (List.filter tip_passed (tips (searchability report))))
                             (length (tips (searchability report))))
                (ratio_value (length (List.filter skill_found (skills (hardSkills report))))
                             (length (skills (hardSkills report))))
                (ratio_value (length (List.filter skill_found (skills (softSkills report))))
                             (length (skills (softSkills report))))
                (ratio_value (length (List.filter tip_passed (tips (recruiterTips report))))
                             (length (tips (recruiterTips report))))).
Proof.
  intros (H1 & H2 & H3 & H4). rewrite calculateScore_ratios.
  destruct (ratio_within_filter tip_passed _ H1) as [W1 <-].
  destruct (ratio_within_filter skill_found _ H2) as [W2 <-].
  destruct (ratio_within_filter skill_found _ H3) as [W3 <-].
  destruct (ratio_within_filter tip_passed _ H4) as [W4 <-].
  by apply weighted_score_range.
Qed.

Lemma scores_ordered report text :
  report_ok report ->
  exists z z', calculateScore report = number_of_Z z
    /\ calculateOptimizedScore report text = Returns (number_of_Z z')
    /\ 0 <= z <= z' /\ z' <= 100.
Proof.
  intros Hok. pose proof (optimized_copy_ok report text Hok) as Hok'.
  rewrite calculateOptimizedScore_copy, !calculateScore_ratios.
  destruct Hok as (H1 & H2 & H3 & H4). destruct Hok' as (H1' & H2' & H3' & H4').
  destruct (ratio_within_filter tip_passed _ H1) as [W1 _].
  destruct (ratio_within_filter skill_found _ H2) as [W2 _].
  destruct (ratio_within_filter skill_found _ H3) as [W3 _].
  destruct (ratio_within_filter tip_passed _ H4) as [W4 _].
  destruct (ratio_within_filter tip_passed _ H1') as [W1' _].
  destruct (ratio_within_filter skill_found _ H2') as [W2' _].
  destruct (ratio_within_filter skill_found _ H3') as [W3' _].
  destruct (ratio_within_filter tip_passed _ H4') as [W4' _].
  destruct (weighted_score_mono _ _ _ _ _ _ _ _ W1 W2 W3 W4 W1' W2' W3' W4')
    as (z & z' & E & E' & Hz); cbn [optimized_copy searchability hardSkills softSkills
                                    recruiterTips tips skills].
  - rewrite filter_passed, !length_map. apply ratio_le; [apply filter_length_le|lia|exact H1].
  - rewrite !length_map. apply ratio_le; [apply filter_marked| |exact H2].
    pose proof (filter_length_le skill_found
                  (map (marked (toLowerCase text)) (skills (hardSkills report)))) as Hle.
    by rewrite length_map in Hle.
  - rewrite !length_map. apply ratio_le; [apply filter_marked| |exact H3].
    pose proof (filter_length_le skill_found
                  (map (marked (toLowerCase text)) (skills (softSkills report)))) as Hle.
    by rewrite length_map in Hle.
  - rewrite filter_passed, !length_map. apply ratio_le; [apply filter_length_le|lia|exact H4].
  - exists z, z'. split; [done|]. split; [|done]. by rewrite <- E'.
Qed.

(** [>=] on numbers that are small integers is [>=] on the integers. *)
Lemma fge_number_of_Z (z z' : Z) :
  (0 <= z) -> (z <= z') -> (z' < 2 ^ 53) -> fge (number_of_Z z') (number_of_Z z) = true.
Proof.
  intros H0 Hle Hlt. unfold fge.
  destruct (Z.eq_dec z 0) as [->|Hz].
  - destruct (Z.eq_dec z' 0) as [->|Hz']; [done|].
    destruct (number_of_Z_normal z' ltac:(lia)) as [Hn _].
    destruct (number_of_Z z') as [| | |[] m e]; done.
  - destruct (number_of_Z_normal z ltac:(lia)) as [Hn Hv].
    destruct (number_of_Z_normal z' ltac:(lia)) as [Hn' Hv'].
    apply (SFleb_fval _ _ Hn Hn'). rewrite Hv, Hv'.
    apply Z.mul_le_mono_nonneg_r; [|lia]. apply Z.lt_le_incl, pow2_pos. pose proof BIAS_eq. lia.
Qed.

End Scores.

(** * The claims *)

(** C1, as amended.  For every report whose arrays a JavaScript engine can
    hold, [calculateScore] returns an integer between 0 and 100: the
    round-half-up of 100 times the weighted sum
    [s*0.30 + h*0.45 + t*0.10 + r*0.15] as binary64 arithmetic evaluates it,
    every quotient, product and sum being rounded to the nearest binary64
    number ([RND]).  The ratio of a tip section is (tips with status pass or
    info) / (tips), the ratio of a skill section is (skills with
    [resumeCount <> -1]) / (skills), and the ratio of an empty section is 1. *)
Theorem calculateScore_binary64 (report : Report) :
  report_ok report ->
  exists z : Z,
    calculateScore report = number_of_Z z /\ (0 <= z <= 100)%Z
    /\ z = round_value
             (weighted_value
                (ratio_value (length (List.filter tip_passed (tips (searchability report))))
                             (length (tips (searchability report))))
                (ratio_value (length (List.filter skill_found (skills (hardSkills report))))
                             (length (skills (hardSkills report))))
                (ratio_value (length (List.filter skill_found (skills (softSkills report))))
                             (length (skills (softSkills report))))
                (ratio_value (length (List.filter tip_passed (tips (recruiterTips report))))
                             (length (tips (recruiterTips report))))).
Proof. apply calculateScore_value. Qed.

Lemma report_ok_half : report_ok half_report.
Proof. repeat split. Qed.

Lemma calculateScore_binary64_witness :
  report_ok half_report /\
  exists z : Z, calculateScore half_report = number_of_Z z /\ (0 <= z <= 100)%Z.
Proof.
  split; [exact report_ok_half|].
  destruct (calculateScore_binary64 half_report report_ok_half) as (z & H1 & H2 & _).
  exists z. split; [exact H1|exact H2].
Defined.

(** C1, as stated, fails: for a report with one hard skill found out of
    three and one recruiter tip passed out of two, 100 times the weighted sum
    is 62.5 and its round-half-up is 63; [calculateScore] returns 62. *)
Lemma calculateScore_not_exact :
  spec_computeScore half_report = 63%Z
  /\ calculateScore half_report = number_of_Z 62
  /\ calculateScore half_report <> number_of_Z (spec_computeScore half_report).
Proof. repeat split. vm_compute. discriminate. Qed.

(** C2.  Running [calculateOptimizedScore] on a report that lives in the
    store returns a score and a store in which every object that was there
    before is unchanged (the updates go to the new objects of the copy): the
    report reads back as before, and [calculateScore] of it is the same before
    and after the call. *)
Theorem calculateOptimizedScore_leaves_report
    (h : gmap positive object) (report : ReportRef) (text : jsstring) (v : Report) :
  load_report h report = Returns v ->
  exists (score : number) (h' : gmap positive object),
    calculateOptimizedScore_ref h report text = Returns (score, h')
    /\ h ⊆ h'
    /\ load_report h' report = Returns v
    /\ calculateScore_ref h' report = calculateScore_ref h report
    /\ calculateOptimizedScore v text = Returns score.
Proof.
  intros Hload.
  destruct (calculateOptimizedScore_ref_spec h report text v Hload)
    as (score & h' & Hrun & Hsub & Hload' & Hval).
  exists score, h'. repeat split; try done.
  unfold calculateScore_ref. by rewrite Hload, Hload'.
Qed.

Lemma load_example : load_report example_heap example_ref = Returns (example_report 0 1 0 0).
Proof. vm_compute. reflexivity. Qed.

Lemma calculateOptimizedScore_leaves_report_witness :
  load_report example_heap example_ref = Returns (example_report 0 1 0 0)
  /\ exists (score : number) (h' : gmap positive object),
       calculateOptimizedScore_ref example_heap example_ref (str "Python and SQL")
       = Returns (score, h')
       /\ calculateScore_ref h' example_ref = calculateScore_ref example_heap example_ref.
Proof.
  split; [exact load_example|].
  destruct (calculateOptimizedScore_leaves_report example_heap example_ref
              (str "Python and SQL") _ load_example) as (score & h' & H1 & _ & _ & H2 & _).
  exists score, h'. split; [exact H1|exact H2].
Defined.

(** C3, on two inputs where the code does not do what the claim says.
    The report has one hard skill, missing, and nothing else.  With the
    skill C++ and the text "We use C++ daily" the name occurs in the text as
    a whole word, so the copy should hold [resumeCount = 1] and the result
    should be 100; the pattern \bC\+\+\b asks for a word character after
    the last +, finds nothing, the copy is the report and the result is 55.
    With the skill Excel and a text that ends in the Portuguese word
    "excelencia" (e with a circumflex after "excel") the name does not occur
    as a whole word, so the result should be 55; the pattern finds it inside
    the longer word and the result is 100. *)
Theorem calculateOptimizedScore_whole_word_inputs :
  occurs_as_whole_word (str "C++") (str "We use C++ daily") = true
  /\ optimized_copy (one_skill_report "C++" (-1)) (str "We use C++ daily")
     = one_skill_report "C++" (-1)
  /\ calculateOptimizedScore (one_skill_report "C++" (-1)) (str "We use C++ daily")
     = Returns (number_of_Z 55)
  /\ calculateScore (one_skill_report "C++" 1) = number_of_Z 100
  /\ occurs_as_whole_word (str "Excel") busca_excelencia = false
  /\ optimized_copy (one_skill_report "Excel" (-1)) busca_excelencia
     = one_skill_report "Excel" 1
  /\ calculateOptimizedScore (one_skill_report "Excel" (-1)) busca_excelencia
     = Returns (number_of_Z 100)
  /\ calculateScore (one_skill_report "Excel" (-1)) = number_of_Z 55.
Proof. repeat split; vm_compute; reflexivity. Qed.

(** C4, as amended.  For the report whose hard skills are Python (missing,
    3 in the job description) and SQL (2 in the resume, 1 in the job
    description) and whose other sections are empty, whatever the issue
    counts, [calculateScore] returns 78:
    round((1*0.30 + 0.5*0.45 + 1*0.10 + 1*0.15)*100) = round(77.5). *)
Theorem calculateScore_example (i1 i2 i3 i4 : Z) :
  calculateScore (example_report i1 i2 i3 i4) = number_of_Z 78.
Proof. vm_compute. reflexivity. Qed.

(** C4, as stated, fails: the score of that report is not 98. *)
Lemma calculateScore_example_not_98 :
  calculateScore (example_report 0 1 0 0) <> number_of_Z 98.
Proof. vm_compute. discriminate. Qed.

(** The example of the specification for the optimized score: once Python
    is in the text, the score of the example is 100. *)
Lemma calculateOptimizedScore_example (i1 i2 i3 i4 : Z) :
  calculateOptimizedScore (example_report i1 i2 i3 i4) (str "I write Python daily")
  = Returns (number_of_Z 100).
Proof. vm_compute. reflexivity. Qed.

(** C5.  For a report whose arrays a JavaScript engine can hold:
    [calculateScore] is exactly 100 when every section is non-empty and fully
    passing or found, exactly 100 when the four sections are empty, and
    exactly 0 when every section is non-empty and fully failing. *)
Theorem calculateScore_extremes (report : Report) :
  report_ok report ->
  (tips (searchability report) <> [] -> skills (hardSkills report) <> [] ->
   skills (softSkills report) <> [] -> tips (recruiterTips report) <> [] ->
   Forall (fun t => tip_passed t = true) (tips (searchability report)) ->
   Forall (fun s => skill_found s = true) (skills (hardSkills report)) ->
   Forall (fun s => skill_found s = true) (skills (softSkills report)) ->
   Forall (fun t => tip_passed t = true) (tips (recruiterTips report)) ->
   calculateScore report = number_of_Z 100)
  /\ (tips (searchability report) = [] -> skills (hardSkills report) = [] ->
      skills (softSkills report) = [] -> tips (recruiterTips report) = [] ->
      calculateScore report = number_of_Z 100)
  /\ (tips (searchability report) <> [] -> skills (hardSkills report) <> [] ->
      skills (softSkills report) <> [] -> tips (recruiterTips report) <> [] ->
      Forall (fun t => tip_passed t = false) (tips (searchability report)) ->
      Forall (fun s => skill_found s = false) (skills (hardSkills report)) ->
      Forall (fun s => skill_found s = false) (skills (softSkills report)) ->
      Forall (fun t => tip_passed t = false) (tips (recruiterTips report)) ->
      calculateScore report = number_of_Z 0).
Proof.
  intros (H1 & H2 & H3 & H4). rewrite calculateScore_ratios. repeat split.
  - intros _ _ _ _ F1 F2 F3 F4.
    rewrite (filter_all _ _ F1), (filter_all _ _ F2), (filter_all _ _ F3), (filter_all _ _ F4).
    rewrite !ratio_full by done. apply weighted_score_full.
  - intros -> -> -> ->. apply weighted_score_full.
  - intros N1 N2 N3 N4 F1 F2 F3 F4.
    rewrite (filter_none _ _ F1), (filter_none _ _ F2), (filter_none _ _ F3), (filter_none _ _ F4).
    cbn [length].
    assert (L : forall (A : Type) (l : list A), l <> [] -> 0 < length l).
    { intros A [|a l] N; [done|cbn; lia]. }
    rewrite (ratio_none _ (L _ _ N1) H1), (ratio_none _ (L _ _ N2) H2),
      (ratio_none _ (L _ _ N3) H3), (ratio_none _ (L _ _ N4) H4).
    apply weighted_score_none.
Qed.

Lemma report_ok_passing : report_ok passing_report.
Proof. repeat split. Qed.

Lemma calculateScore_extremes_witness :
  report_ok passing_report /\ calculateScore passing_report = number_of_Z 100.
Proof.
  split; [exact report_ok_passing|].
  destruct (calculateScore_extremes passing_report report_ok_passing) as [H _].
  apply H; clear H.
  - discriminate.
  - discriminate.
  - discriminate.
  - discriminate.
  - repeat constructor.
  - repeat constructor.
  - repeat constructor.
  - repeat constructor.
Defined.

(** C6.  For every keyword list and every text, [highlightKeywords] returns
    a node, and the texts of its segments, concatenated in order, are the
    text.  With no keyword, or with the empty text, the node is the text
    itself: one plain segment. *)
Theorem highlightKeywords_concat (keywords : list jsstring) (text : jsstring) :
  (exists node : ReactNode,
      highlightKeywords keywords text = Returns node
      /\ concat (map segment_text (node_segments node)) = text)
  /\ highlightKeywords [] text = Returns (NodeText text)
  /\ highlightKeywords keywords [] = Returns (NodeText [])
  /\ node_segments (NodeText text) = [Plain (Some text)].
Proof.
  split; [exact (highlightKeywords_text keywords text)|].
  split; [apply highlightKeywords_trivial; by left|].
  split; [apply highlightKeywords_trivial; by right|done].
Qed.

(** C7, on an input where the code does not do what the claim says.  With
    the keyword "excel" and a text that ends in the Portuguese word
    "excelencia" (e with a circumflex after "excel"), the keyword does not
    occur in the text as a whole word, and the highlighter marks "excel"
    inside the longer word.  On the example of the claim it does as the
    claim says: with the keyword "Java", the text
    "I know Java and JavaScript" is rendered as the plain "I know ", the
    marked "Java" and the plain " and JavaScript"; letter case does not
    matter, and the marked piece keeps the case of the text. *)
Theorem highlightKeywords_inside_word :
  occurs_as_whole_word (str "excel") busca_excelencia = false
  /\ highlightKeywords [str "excel"] busca_excelencia
     = Returns (Fragment [Plain (Some (str "Busca de ")); Mark (Some (str "excel"));
                          Plain (Some ("234"%char :: str "ncia"))])
  /\ highlightKeywords [str "Java"] (str "I know Java and JavaScript")
     = Returns (Fragment [Plain (Some (str "I know ")); Mark (Some (str "Java"));
                          Plain (Some (str " and JavaScript"))])
  /\ highlightKeywords [str "java"] (str "I know JAVA and JavaScript")
     = Returns (Fragment [Plain (Some (str "I know ")); Mark (Some (str "JAVA"));
                          Plain (Some (str " and JavaScript"))]).
Proof. repeat split; vm_compute; reflexivity. Qed.

(** C8.  For every number [x] that is the integer [z], [getScoreColor x] is
    green exactly when [z >= 90], yellow exactly when [75 <= z < 90] and red
    exactly when [z < 75]; 90 is green, 89 and 75 are yellow, 74 is red. *)
Theorem getScoreColor_thresholds (x : number) (z : Z) :
  valid_binary prec emax x = true -> Z_of_number x = Some z ->
  (getScoreColor x = green <-> (90 <= z)%Z)
  /\ (getScoreColor x = yellow <-> (75 <= z < 90)%Z)
  /\ (getScoreColor x = red <-> (z < 75)%Z)
  /\ getScoreColor (number_of_Z 90) = green
  /\ getScoreColor (number_of_Z 89) = yellow
  /\ getScoreColor (number_of_Z 75) = yellow
  /\ getScoreColor (number_of_Z 74) = red.
Proof.
  intros Hv Hz. rewrite (getScoreColor_cases x z Hv Hz).
  destruct (Z.leb_spec 90 z) as [H90|H90]; [|destruct (Z.leb_spec 75 z) as [H75|H75]];
    (split; [split; [intros E; (discriminate E || lia) | intros E; (reflexivity || lia)]|]);
    (split; [split; [intros E; (discriminate E || lia) | intros E; (reflexivity || lia)]|]);
    (split; [split; [intros E; (discriminate E || lia) | intros E; (reflexivity || lia)]|]);
    repeat split.
Qed.

Lemma getScoreColor_thresholds_witness :
  valid_binary prec emax (number_of_Z 90) = true
  /\ Z_of_number (number_of_Z 90) = Some 90%Z
  /\ (getScoreColor (number_of_Z 90) = green <-> (90 <= 90)%Z).
Proof.
  split; [reflexivity|]. split; [reflexivity|].
  exact (proj1 (getScoreColor_thresholds (number_of_Z 90) 90 eq_refl eq_refl)).
Defined.

(** C9.  Whatever integers the count fields hold ([issues], [resumeCount],
    [jdCount], negative ones included), [calculateScore] and
    [calculateOptimizedScore] return, the second without throwing, and each
    returns an integer between 0 and 100.  The only assumption is that the
    arrays have a length an array can have. *)
Theorem scores_total_in_range (report : Report) (text : jsstring) :
  report_ok report ->
  exists z z' : Z,
    calculateScore report = number_of_Z z
    /\ calculateOptimizedScore report text = Returns (number_of_Z z')
    /\ (0 <= z <= 100)%Z /\ (0 <= z' <= 100)%Z.
Proof.
  intros Hok. destruct (scores_ordered report text Hok) as (z & z' & H1 & H2 & H3 & H4).
  exists z, z'. repeat split; try done; lia.
Qed.

Lemma report_ok_negative : report_ok negative_report.
Proof. repeat split. Qed.

Lemma scores_total_in_range_witness :
  report_ok negative_report
  /\ exists z z' : Z,
       calculateScore negative_report = number_of_Z z
       /\ calculateOptimizedScore negative_report (str "SQL and Python") = Returns (number_of_Z z')
       /\ (0 <= z <= 100)%Z /\ (0 <= z' <= 100)%Z.
Proof.
  split; [exact report_ok_negative|].
  exact (scores_total_in_range negative_report (str "SQL and Python") report_ok_negative).
Defined.

(** C10.  For every report and every text, the optimized score is at least
    the original score: both are integers, [z] for [calculateScore] and [z']
    for [calculateOptimizedScore], and [z <= z']. *)
Theorem optimized_score_not_below (report : Report) (text : jsstring) :
  report_ok report ->
  exists z z' : Z,
    calculateScore report = number_of_Z z
    /\ calculateOptimizedScore report text = Returns (number_of_Z z')
    /\ (z <= z')%Z
    /\ fge (number_of_Z z') (number_of_Z z) = true.
Proof.
  intros Hok. destruct (scores_ordered report text Hok) as (z & z' & H1 & H2 & H3 & H4).
  exists z, z'. repeat split; try done; try lia.
  apply fge_number_of_Z; [lia|lia|]. change (2 ^ 53)%Z with 9007199254740992%Z. lia.
Qed.

Lemma optimized_score_not_below_witness :
  report_ok half_report
  /\ exists z z' : Z,
       calculateScore half_report = number_of_Z z
       /\ calculateOptimizedScore half_report (str "nothing") = Returns (number_of_Z z')
       /\ (z <= z')%Z
       /\ fge (number_of_Z z') (number_of_Z z) = true.
Proof.
  split; [exact report_ok_half|].
  exact (optimized_score_not_below half_report (str "nothing") report_ok_half).
Defined.

(** * Further properties of the score *)

Section MoreScores.
Local Open Scope Z_scope.

Lemma within_inj lo hi x y : within lo hi x -> within lo hi y -> fval x = fval y -> x = y.
Proof.
  intros [->|[Hx _]] [->|[Hy _]] E; [done| | |by apply fval_inj].
  - pose proof (fval_pos y Hy). cbn [fval] in E. lia.
  - pose proof (fval_pos x Hx). cbn [fval] in E. lia.
Qed.

(** The ratio of a section depends on the proportion only. *)
Lemma ratio_scale c k n :
  (0 < c)%nat -> (k <= n)%nat -> Z.of_nat (c * n) < 2 ^ 32 -> ratio (c * k) (c * n) = ratio k n.
Proof.
  intros Hc Hk Hn.
  assert (Hn' : Z.of_nat n < 2 ^ 32) by nia.
  destruct (ratio_within (c * k) (c * n) ltac:(nia) Hn) as [W1 V1].
  destruct (ratio_within k n Hk Hn') as [W2 V2].
  apply (within_inj _ _ _ _ W1 W2). rewrite V1, V2.
  destruct n as [|n'].
  - by rewrite Nat.mul_0_r.
  - destruct (c * S n')%nat as [|m] eqn:E; [lia|]. cbn [Nat.eqb]. rewrite <- E.
    pose proof (pow2_pos BIAS ltac:(blia)).
    apply RND_ratio; nia.
Qed.

Lemma filter_length_Permutation {A} (f : A -> bool) (l l' : list A) :
  Permutation l l' -> length (List.filter f l) = length (List.filter f l').
Proof.
  induction 1 as [|a l l' _ IH|a b l|l l' l'' _ IH1 _ IH2]; cbn [List.filter].
  - done.
  - destruct (f a); cbn [length]; by rewrite IH.
  - by destruct (f a), (f b).
  - by rewrite IH1.
Qed.

Lemma length_repeated {A} c (l : list A) : length (repeated c l) = (c * length l)%nat.
Proof.
  unfold repeated. induction l as [|a l IH]; cbn [flat_map length]; [lia|].
  rewrite length_app, repeat_length, IH. lia.
Qed.

Lemma filter_repeat {A} (f : A -> bool) a c :
  List.filter f (repeat a c) = if f a then repeat a c else [].
Proof.
  induction c as [|c IH]; cbn [repeat List.filter]; [by destruct (f a)|].
  rewrite IH. by destruct (f a).
Qed.

Lemma filter_repeated {A} (f : A -> bool) c (l : list A) :
  List.filter f (repeated c l) = repeated c (List.filter f l).
Proof.
  unfold repeated. induction l as [|a l IH]; cbn [flat_map List.filter]; [done|].
  rewrite List.filter_app, IH, filter_repeat. by destruct (f a).
Qed.

Lemma filter_improved {A} (f : A -> bool) (l l' : list A) :
  Forall2 (fun a a' => f a = true -> f a' = true) l l' ->
  (length (List.filter f l) <= length (List.filter f l'))%nat /\ length l = length l'.
Proof.
  induction 1 as [|a a' l l' Ha _ [IH1 IH2]]; cbn [List.filter length]; [done|].
  split; [|lia]. destruct (f a) eqn:E.
  - rewrite (Ha eq_refl). cbn [length]. lia.
  - destruct (f a'); cbn [length]; lia.
Qed.

(** The score of a report between two others, section by section. *)
Lemma calculateScore_le r r' :
  report_ok r ->
  length (tips (searchability r')) = length (tips (searchability r)) ->
  length (skills (hardSkills r')) = length (skills (hardSkills r)) ->
  length (skills (softSkills r')) = length (skills (softSkills r)) ->
  length (tips (recruiterTips r')) = length (tips (recruiterTips r)) ->
  (length (List.filter tip_passed (tips (searchability r)))
   <= length (List.filter tip_passed (tips (searchability r'))))%nat ->
  (length (List.filter skill_found (skills (hardSkills r)))
   <= length (List.filter skill_found (skills (hardSkills r'))))%nat ->
  (length (List.filter skill_found (skills (softSkills r)))
   <= length (List.filter skill_found (skills (softSkills r'))))%nat ->
  (length (List.filter tip_passed (tips (recruiterTips r)))
   <= length (List.filter tip_passed (tips (recruiterTips r'))))%nat ->
  exists z z', calculateScore r = number_of_Z z /\ calculateScore r' = number_of_Z z'
               /\ 0 <= z <= z' /\ z' <= 100.
Proof.
  intros (H1 & H2 & H3 & H4) L1 L2 L3 L4 F1 F2 F3 F4.
  assert (H1' : array_ok (tips (searchability r'))) by (unfold array_ok; by rewrite L1).
  assert (H2' : array_ok (skills (hardSkills r'))) by (unfold array_ok; by rewrite L2).
  assert (H3' : array_ok (skills (softSkills r'))) by (unfold array_ok; by rewrite L3).
  assert (H4' : array_ok (tips (recruiterTips r'))) by (unfold array_ok; by rewrite L4).
  rewrite !calculateScore_ratios.
  destruct (ratio_within_filter tip_passed _ H1) as [W1 _].
  destruct (ratio_within_filter skill_found _ H2) as [W2 _].
  destruct (ratio_within_filter skill_found _ H3) as [W3 _].
  destruct (ratio_within_filter tip_passed _ H4) as [W4 _].
  destruct (ratio_within_filter tip_passed _ H1') as [W1' _].
  destruct (ratio_within_filter skill_found _ H2') as [W2' _].
  destruct (ratio_within_filter skill_found _ H3') as [W3' _].
  destruct (ratio_within_filter tip_passed _ H4') as [W4' _].
  pose proof (filter_length_le tip_passed (tips (searchability r'))) as B1.
  pose proof (filter_length_le skill_found (skills (hardSkills r'))) as B2.
  pose proof (filter_length_le skill_found (skills (softSkills r'))) as B3.
  pose proof (filter_length_le tip_passed (tips (recruiterTips r'))) as B4.
  apply (weighted_score_mono _ _ _ _ _ _ _ _ W1 W2 W3 W4 W1' W2' W3' W4').
  - rewrite L1. apply ratio_le; [exact F1|lia|exact H1].
  - rewrite L2. apply ratio_le; [exact F2|lia|exact H2].
  - rewrite L3. apply ratio_le; [exact F3|lia|exact H3].
  - rewrite L4. apply ratio_le; [exact F4|lia|exact H4].
Qed.

Lemma filter_found_marked lower l :
  Forall (fun s => resumeCount s = -1 ->
                   fst (RegExp_test (skill_regex (skill s)) lower) = true) l ->
  List.filter skill_found (map (marked lower) l) = map (marked lower) l.
Proof.
  intros H. apply filter_all. apply Forall_map.
  eapply Forall_impl; [exact H|]. intros s Hs. cbn beta.
  unfold marked, skill_found.
  destruct (Z.eqb_spec (resumeCount s) (-1)) as [E|E]; cbn [andb].
  - rewrite (Hs E). reflexivity.
  - by apply negb_true_iff, Z.eqb_neq.
Qed.

Lemma marked_idempotent lower s : marked lower (marked lower s) = marked lower s.
Proof.
  destruct (Z.eqb_spec (resumeCount s) (-1)) as [E|E].
  - destruct (fst (RegExp_test (skill_regex (skill s)) lower)) eqn:T.
    + assert (M : marked lower s = set_resumeCount s 1).
      { unfold marked. by rewrite E, T. }
      rewrite M. reflexivity.
    + assert (M : marked lower s = s).
      { unfold marked. by rewrite T, andb_false_r. }
      by rewrite !M.
  - assert (M : marked lower s = s).
    { unfold marked. apply Z.eqb_neq in E. by rewrite E. }
    by rewrite !M.
Qed.

End MoreScores.

Section ScoreFacts.
Local Open Scope Z_scope.

Lemma number_of_Z_inj z z' :
  0 <= z < 2 ^ 53 -> 0 <= z' < 2 ^ 53 -> number_of_Z z = number_of_Z z' -> z = z'.
Proof.
  intros Hz Hz' E. pose proof (Z_of_number_of_Z z Hz) as H. rewrite E in H.
  rewrite (Z_of_number_of_Z z' Hz') in H. congruence.
Qed.

Lemma weighted_score_tips_only :
  weighted_score (number_of_Z 1) (number_of_Z 0) (number_of_Z 0) (number_of_Z 1)
  = number_of_Z 45.
Proof. vm_compute. reflexivity. Qed.

(** Letters that the pattern takes for the same are both word characters or
    both not. *)
Lemma same_letter_word a b : same_letter a b -> WordCharacters a = WordCharacters b.
Proof.
  unfold same_letter. intros H.
  assert (G : forall c, WordCharacters c
                = (let n := Canonicalize true c in
                   (between 65 90 n || between 48 57 n || (n =? 95))%N)).
  { intros c. destruct c as [[] [] [] [] [] [] [] []]; reflexivity. }
  by rewrite (G a), (G b), H.
Qed.

Lemma optimized_tips_ratio (l : list Tip) :
  array_ok l ->
  ratio (length (List.filter tip_passed (map (fun tip => set_status tip pass) l)))
        (length (map (fun tip => set_status tip pass) l))
  = number_of_Z 1.
Proof.
  intros H. rewrite filter_passed. apply ratio_full. by rewrite length_map.
Qed.

End ScoreFacts.

(** The order of the entries of a section, and its issue count, do not
    matter to the score: reports whose four arrays are permutations of each
    other have the same score. *)
Theorem calculateScore_order_irrelevant (r r' : Report) :
  Permutation (tips (searchability r)) (tips (searchability r')) ->
  Permutation (skills (hardSkills r)) (skills (hardSkills r')) ->
  Permutation (skills (softSkills r)) (skills (softSkills r')) ->
  Permutation (tips (recruiterTips r)) (tips (recruiterTips r')) ->
  calculateScore r = calculateScore r'.
Proof.
  intros P1 P2 P3 P4. rewrite !calculateScore_ratios.
  rewrite (filter_length_Permutation tip_passed _ _ P1), (Permutation_length P1).
  rewrite (filter_length_Permutation skill_found _ _ P2), (Permutation_length P2).
  rewrite (filter_length_Permutation skill_found _ _ P3), (Permutation_length P3).
  rewrite (filter_length_Permutation tip_passed _ _ P4), (Permutation_length P4).
  reflexivity.
Qed.

Lemma calculateScore_order_irrelevant_witness :
  calculateScore (example_report 0 1 0 0) = calculateScore swapped_report.
Proof.
  apply calculateScore_order_irrelevant.
  - apply Permutation_refl.
  - apply perm_swap.
  - apply Permutation_refl.
  - apply Permutation_refl.
Defined.

(** The score depends on the proportions only: listing every entry of
    every section [c] times leaves the score as it is. *)
Theorem calculateScore_repeated (c : nat) (r : Report) :
  (0 < c)%nat -> report_ok (repeated_report c r) ->
  calculateScore (repeated_report c r) = calculateScore r.
Proof.
  intros Hc (H1 & H2 & H3 & H4). rewrite !calculateScore_ratios.
  unfold array_ok in *.
  cbn [repeated_report searchability hardSkills softSkills recruiterTips tips skills] in *.
  rewrite !filter_repeated, !length_repeated in *.
  rewrite !ratio_scale; try done; apply filter_length_le.
Qed.

Lemma calculateScore_repeated_witness :
  calculateScore (repeated_report 3 half_report) = calculateScore half_report.
Proof.
  apply calculateScore_repeated; [lia|repeat split].
Defined.

(** Improving entries never lowers the score: when every entry that counts
    in [r] (a tip that is pass or info, a skill that is found) still counts
    in [r'], entry by entry, the score of [r'] is at least the score of [r]. *)
Theorem calculateScore_monotone (r r' : Report) :
  report_ok r ->
  Forall2 tip_improved (tips (searchability r)) (tips (searchability r')) ->
  Forall2 skill_improved (skills (hardSkills r)) (skills (hardSkills r')) ->
  Forall2 skill_improved (skills (softSkills r)) (skills (softSkills r')) ->
  Forall2 tip_improved (tips (recruiterTips r)) (tips (recruiterTips r')) ->
  exists z z' : Z,
    calculateScore r = number_of_Z z /\ calculateScore r' = number_of_Z z'
    /\ (0 <= z)%Z /\ (z <= z')%Z /\ (z' <= 100)%Z.
Proof.
  intros Hok F1 F2 F3 F4.
  destruct (filter_improved tip_passed _ _ F1) as [C1 L1].
  destruct (filter_improved skill_found _ _ F2) as [C2 L2].
  destruct (filter_improved skill_found _ _ F3) as [C3 L3].
  destruct (filter_improved tip_passed _ _ F4) as [C4 L4].
  destruct (calculateScore_le r r' Hok) as (z & z' & E & E' & Hz & Hz'); try done.
  exists z, z'. repeat split; try done; lia.
Qed.

Lemma calculateScore_monotone_witness :
  exists z z' : Z,
    calculateScore half_report = number_of_Z z
    /\ calculateScore (optimized_copy half_report (str "Rust")) = number_of_Z z'
    /\ (0 <= z)%Z /\ (z <= z')%Z /\ (z' <= 100)%Z.
Proof.
  apply calculateScore_monotone.
  - repeat split.
  - constructor.
  - repeat constructor; intros H; vm_compute in H; discriminate H.
  - constructor.
  - repeat constructor.
Defined.

(** The optimized score is never below 45: searchability and recruiter
    tips are taken as passed, which is worth 0.30 + 0.15. *)
Theorem calculateOptimizedScore_at_least_45 (report : Report) (text : jsstring) :
  report_ok report ->
  exists z : Z,
    calculateOptimizedScore report text = Returns (number_of_Z z) /\ (45 <= z <= 100)%Z.
Proof.
  intros Hok. pose proof (optimized_copy_ok report text Hok) as (H1 & H2 & H3 & H4).
  rewrite calculateOptimizedScore_copy, calculateScore_ratios.
  destruct (ratio_within_filter skill_found _ H2) as [W2 _].
  destruct (ratio_within_filter skill_found _ H3) as [W3 _].
  destruct Hok as (K1 & _ & _ & K4).
  cbn [optimized_copy searchability hardSkills softSkills recruiterTips tips skills] in *.
  rewrite (optimized_tips_ratio _ K1), (optimized_tips_ratio _ K4).
  destruct one_within as [W1 _].
  assert (W0 : within (-32) 0 (number_of_Z 0)) by (by left).
  destruct (weighted_score_mono _ _ _ _ _ _ _ _ W1 W0 W0 W1 W1 W2 W3 W1)
    as (z & z' & E & E' & Hz & Hz').
  - lia.
  - apply (within_nonneg _ _ _ W2).
  - apply (within_nonneg _ _ _ W3).
  - lia.
  - exists z'. split; [by rewrite E'|].
    rewrite weighted_score_tips_only in E.
    assert (z = 45%Z); [|lia].
    symmetry. apply number_of_Z_inj; [| |exact E].
    + change (2 ^ 53)%Z with 9007199254740992%Z. lia.
    + change (2 ^ 53)%Z with 9007199254740992%Z. lia.
Qed.

Lemma calculateOptimizedScore_at_least_45_witness :
  exists z : Z,
    calculateOptimizedScore negative_report (str "nothing") = Returns (number_of_Z z)
    /\ (45 <= z <= 100)%Z.
Proof.
  apply calculateOptimizedScore_at_least_45. repeat split.
Defined.

(** Optimizing twice is optimizing once: the optimized score of the copy
    that [calculateOptimizedScore] scores is the optimized score of the
    report. *)
Theorem calculateOptimizedScore_idempotent (report : Report) (text : jsstring) :
  calculateOptimizedScore (optimized_copy report text) text
  = calculateOptimizedScore report text.
Proof.
  rewrite !calculateOptimizedScore_copy. f_equal. f_equal.
  unfold optimized_copy.
  cbn [searchability hardSkills softSkills recruiterTips tips skills tips_issues skills_issues].
  rewrite !map_map.
  f_equal; f_equal; apply map_ext; intros a; try apply marked_idempotent; reflexivity.
Qed.

(** A skill whose name ends in a character that is not a word character
    (C++, C#) is found only where a word character follows the name: the
    closing \b asks for it. *)
Theorem skill_ending_in_symbol (kw text : jsstring) (c : ascii) :
  last kw = Some c -> WordCharacters c = false ->
  fst (RegExp_test (skill_regex kw) (toLowerCase text)) = true ->
  exists i : nat, boundary_match_at kw text i /\ IsWordChar text (i + length kw) = true.
Proof.
  intros Hlast Hc Ht. apply test_skill_spec in Ht as (i & Hi). exists i. split; [done|].
  destruct Hi as (_ & Hl & Hb).
  assert (Hbefore : IsWordChar_before text (i + length kw) = false).
  { destruct kw as [|k kw _] using rev_ind; [done|].
    rewrite last_snoc in Hlast. injection Hlast as ->.
    rewrite length_app in *. cbn [length] in *.
    replace (i + (length kw + 1)) with (Datatypes.S (i + length kw)) in * by lia.
    cbn [IsWordChar_before]. unfold IsWordChar.
    apply Forall2_app_inv_r in Hl as (s1 & s2 & H1 & H2 & E).
    inversion H2 as [|a b ? ? Hab Hnil]; subst. inversion Hnil; subst.
    assert (Hn : nth_error text (i + length kw) = Some a).
    { pose proof (Forall2_length _ _ _ H1) as L1.
      assert (Hs : skipn i text = (s1 ++ [a]) ++ skipn (Datatypes.S (length kw)) (skipn i text)).
      { unfold substring in E. rewrite <- E.
        replace (Datatypes.S (i + length kw) - i) with (Datatypes.S (length kw)) by lia.
        symmetry. apply firstn_skipn. }
      rewrite <- (firstn_skipn i text) at 1.
      assert (Li : length (firstn i text) = i).
      { apply firstn_length_le.
        destruct (Nat.le_gt_cases i (length text)) as [|Hgt]; [done|].
        rewrite skipn_all2 in Hs by lia. by destruct s1. }
      rewrite nth_error_app2 by lia. rewrite Li, Hs.
      replace (i + length kw - i) with (length kw) by lia.
      rewrite <- app_assoc. rewrite nth_error_app2 by lia.
      by rewrite L1, Nat.sub_diag. }
    rewrite Hn, (same_letter_word _ _ Hab). exact Hc. }
  unfold is_boundary in Hb. rewrite Hbefore in Hb. exact Hb.
Qed.

Lemma skill_ending_in_symbol_witness :
  (fst (RegExp_test (skill_regex (str "C++")) (toLowerCase (str "We use C++ daily"))) = false)
  /\ exists i : nat,
       boundary_match_at (str "C++") (str "We use C++11 daily") i
       /\ IsWordChar (str "We use C++11 daily") (i + length (str "C++")) = true.
Proof.
  split; [vm_compute; reflexivity|].
  apply (skill_ending_in_symbol (str "C++") (str "We use C++11 daily") "+"%char).
  - reflexivity.
  - reflexivity.
  - vm_compute. reflexivity.
Defined.

(** * The results page *)

Lemma ring_rows :
  forallb (fun z => ring_row_ok large z && ring_row_ok small z) (seq 0 101) = true.
Proof. vm_compute. reflexivity. Qed.

Lemma color_rows : forallb color_row_ok (seq 0 101) = true.
Proof. vm_compute. reflexivity. Qed.

Lemma number_of_nat_to_nat z : (0 <= z)%Z -> number_of_nat (Z.to_nat z) = number_of_Z z.
Proof. intros H. unfold number_of_nat. by rewrite Z2Nat.id. Qed.

Lemma ring_row (size : Size) (z : Z) :
  (0 <= z <= 100)%Z -> ring_row_ok size (Z.to_nat z) = true.
Proof.
  intros Hz. pose proof ring_rows as H. rewrite forallb_forall in H.
  specialize (H (Z.to_nat z)). rewrite in_seq in H.
  apply andb_true_iff in H; [|lia]. destruct size; tauto.
Qed.

Lemma getScoreColor_score (z : Z) :
  (0 <= z <= 100)%Z ->
  getScoreColor (number_of_Z z)
  = if (90 <=? z)%Z then green else if (75 <=? z)%Z then yellow else red.
Proof.
  intros Hz. pose proof color_rows as H. rewrite forallb_forall in H.
  specialize (H (Z.to_nat z)). rewrite in_seq in H. specialize (H ltac:(lia)).
  unfold color_row_ok in H. rewrite (number_of_nat_to_nat z) in H by lia.
  destruct (getScoreColor (number_of_Z z)).
  - apply Nat.leb_le in H. destruct (Z.leb_spec 90 z); [done|lia].
  - apply andb_true_iff in H as [H1 H2]. apply Nat.leb_le in H1. apply Nat.ltb_lt in H2.
    destruct (Z.leb_spec 90 z); [lia|]. destruct (Z.leb_spec 75 z); [done|lia].
  - apply Nat.ltb_lt in H.
    destruct (Z.leb_spec 90 z); [lia|]. destruct (Z.leb_spec 75 z); [lia|done].
Qed.

Lemma ring_offset_range (size : Size) (z : Z) :
  (0 <= z <= 100)%Z ->
  fge (offset (CircularProgressBar (number_of_Z z) size)) (number_of_Z 0) = true
  /\ fge (circumference (CircularProgressBar (number_of_Z z) size))
         (offset (CircularProgressBar (number_of_Z z) size)) = true.
Proof.
  intros Hz. pose proof (ring_row size z Hz) as H.
  cbv beta zeta delta [ring_row_ok] in H. rewrite (number_of_nat_to_nat z) in H by lia.
  apply andb_true_iff in H as [H _]. by apply andb_true_iff in H.
Qed.

(** The ring of the progress bar, for the scores the page shows (integers
    from 0 to 100) and both sizes: the dash offset lies between 0 and the
    circumference, a higher score never has a larger offset, the offset of
    the score 0 is the whole circumference and the offset of 100 is 0. *)
Theorem CircularProgressBar_offset (size : Size) (z z' : Z) :
  (0 <= z)%Z -> (z <= z')%Z -> (z' <= 100)%Z ->
  fge (offset (CircularProgressBar (number_of_Z z) size)) (number_of_Z 0) = true
  /\ fge (circumference (CircularProgressBar (number_of_Z z) size))
         (offset (CircularProgressBar (number_of_Z z) size)) = true
  /\ fge (offset (CircularProgressBar (number_of_Z z) size))
         (offset (CircularProgressBar (number_of_Z z') size)) = true
  /\ circumference (CircularProgressBar (number_of_Z z') size)
     = circumference (CircularProgressBar (number_of_Z z) size)
  /\ offset (CircularProgressBar (number_of_Z 0) size)
     = circumference (CircularProgressBar (number_of_Z z) size)
  /\ offset (CircularProgressBar (number_of_Z 100) size) = S754_zero false.
Proof.
  intros H0 Hle H100.
  destruct (ring_offset_range size z ltac:(lia)) as [R1 R2].
  split; [exact R1|]. split; [exact R2|]. split; [|split; [|split]].
  - pose proof (ring_row size z ltac:(lia)) as H.
    cbv beta zeta delta [ring_row_ok] in H. rewrite (number_of_nat_to_nat z) in H by lia.
    apply andb_true_iff in H as [_ H]. rewrite forallb_forall in H.
    specialize (H (Z.to_nat z')). rewrite in_seq in H. specialize (H ltac:(lia)).
    by rewrite (number_of_nat_to_nat z') in H by lia.
  - reflexivity.
  - unfold CircularProgressBar. cbn [offset circumference].
    destruct size; vm_compute; reflexivity.
  - destruct size; vm_compute; reflexivity.
Qed.

Lemma CircularProgressBar_offset_witness :
  fge (offset (CircularProgressBar (number_of_Z 62) small))
      (offset (CircularProgressBar (number_of_Z 80) small)) = true.
Proof.
  destruct (CircularProgressBar_offset small 62 80) as (_ & _ & H & _); [lia|lia|lia|].
  exact H.
Defined.

(** What the page shows for an analysis result, or for none: both scores
    are integers, 0 <= original <= optimized <= 100 (both 0 when there is no
    result); the original score is printed in red exactly when it is below
    75; the ring of the optimized score has the colour of its thresholds and
    a dash offset between 0 and the circumference. *)
Theorem ResultsStep_scores (analysisResult : option AnalysisResult) :
  analysis_ok analysisResult ->
  exists z z' : Z,
    originalScore analysisResult = number_of_Z z
    /\ optimizedScore analysisResult = Returns (number_of_Z z')
    /\ (0 <= z)%Z /\ (z <= z')%Z /\ (z' <= 100)%Z
    /\ (analysisResult = None -> z = 0%Z /\ z' = 0%Z)
    /\ (originalScore_class (number_of_Z z) = str "text-red-500" <-> (z < 75)%Z)
    /\ color (CircularProgressBar (number_of_Z z') large)
       = (if (90 <=? z')%Z then green else if (75 <=? z')%Z then yellow else red)
    /\ fge (offset (CircularProgressBar (number_of_Z z') large)) (number_of_Z 0) = true
    /\ fge (circumference (CircularProgressBar (number_of_Z z') large))
           (offset (CircularProgressBar (number_of_Z z') large)) = true.
Proof.
  intros Hok.
  assert (S : exists z z' : Z,
             originalScore analysisResult = number_of_Z z
             /\ optimizedScore analysisResult = Returns (number_of_Z z')
             /\ (0 <= z)%Z /\ (z <= z')%Z /\ (z' <= 100)%Z
             /\ (analysisResult = None -> z = 0%Z /\ z' = 0%Z)).
  { destruct analysisResult as [a|]; cbn [originalScore optimizedScore analysis_ok] in *.
    - destruct (scores_ordered (report a) (optimizedResume a) Hok) as (z & z' & E & E' & Hz & Hz').
      exists z, z'. repeat split; try done; lia.
    - exists 0%Z, 0%Z. repeat split; done. }
  destruct S as (z & z' & E & E' & H0 & Hle & H100 & HN).
  exists z, z'. split; [exact E|]. split; [exact E'|].
  split; [exact H0|]. split; [exact Hle|]. split; [exact H100|]. split; [exact HN|].
  split; [|split].
  - unfold originalScore_class. rewrite (getScoreColor_score z) by lia.
    destruct (Z.leb_spec 90 z); [|destruct (Z.leb_spec 75 z)];
      (split; [intros X; (discriminate X || lia)|intros X; (reflexivity || lia)]).
  - unfold CircularProgressBar. cbn [color]. apply getScoreColor_score. lia.
  - apply ring_offset_range. lia.
Qed.

Lemma ResultsStep_scores_witness :
  exists z z' : Z,
    originalScore (Some example_analysis) = number_of_Z z
    /\ optimizedScore (Some example_analysis) = Returns (number_of_Z z')
    /\ (0 <= z)%Z /\ (z <= z')%Z /\ (z' <= 100)%Z.
Proof.
  destruct (ResultsStep_scores (Some example_analysis)) as (z & z' & H1 & H2 & H3 & H4 & H5 & _).
  - repeat split.
  - exists z, z'. repeat split; assumption.
Defined.

Lemma strict_equal_spec a b : strict_equal a b = true <-> a = b.
Proof. unfold strict_equal. by destruct (List.list_eq_dec ascii_dec a b). Qed.

Lemma strict_equal_neq a b : strict_equal a b = false <-> a <> b.
Proof. unfold strict_equal. by destruct (List.list_eq_dec ascii_dec a b). Qed.

(** The icons agree with the score.  [StatusIcon] shows the green check
    exactly for the status strings that the filter of [calculateScore]
    counts, 'pass' and 'info', and renders nothing (the default branch)
    exactly for a string that is none of 'pass', 'info', 'fail' and
    'warning'.  So a tip shows the green check exactly when
    [calculateScore] counts it as passed, a skill row shows the green check
    exactly when [calculateScore] counts the skill as found, and the checks
    of a section are as many as the entries that count. *)
Theorem icons_agree_with_score (l : list Tip) (sk : list Skill) (given : jsstring) :
  shows_check (StatusIcon given)
  = strict_equal given (str "pass") || strict_equal given (str "info")
  /\ (StatusIcon given = None
      <-> given <> str "pass" /\ given <> str "info"
          /\ given <> str "fail" /\ given <> str "warning")
  /\ map shows_check (tip_icons l) = map tip_passed l
  /\ map (fun e => is_check (fst e)) (skill_icons sk) = map skill_found sk
  /\ length (List.filter shows_check (tip_icons l)) = length (List.filter tip_passed l)
  /\ length (List.filter (fun e => is_check (fst e)) (skill_icons sk))
     = length (List.filter skill_found sk).
Proof.
  unfold tip_icons, skill_icons.
  split; [|split; [|split; [|split; [|split]]]].
  - unfold StatusIcon.
    destruct (strict_equal given (str "pass") || strict_equal given (str "info")); [done|].
    by destruct (strict_equal given (str "fail")), (strict_equal given (str "warning")).
  - unfold StatusIcon. rewrite <- !strict_equal_neq.
    destruct (strict_equal given (str "pass")), (strict_equal given (str "info")),
      (strict_equal given (str "fail")), (strict_equal given (str "warning"));
      cbn [orb]; split; try done; intros (? & ? & ? & ?); done.
  - rewrite map_map. apply map_ext. intros t. unfold tip_passed. by destruct (status t).
  - rewrite map_map. apply map_ext. intros s. unfold skill_icon, skill_found.
    by destruct (resumeCount s =? -1)%Z.
  - induction l as [|t l IH]; [done|]. cbn [map List.filter].
    unfold tip_passed at 1.
    destruct (status t); cbn [status_text]; vm_compute (shows_check _);
      cbn [length]; by rewrite ?IH.
  - induction sk as [|s sk IH]; [done|]. cbn [map List.filter].
    unfold skill_icon at 1, skill_found at 1.
    destruct (resumeCount s =? -1)%Z; cbn [fst is_check negb length]; by rewrite ?IH.
Qed.

(** * Strings: [indexOf], [replace], [trim] *)

Lemma indexOf_head c d pat s :
  c <> d ->
  String_indexOf (d :: s) (c :: pat) = option_map Datatypes.S (String_indexOf s (c :: pat)).
Proof.
  intros H. cbn [String_indexOf starts_with].
  destruct (Ascii.eqb_spec c d) as [E|_]; [done|]. reflexivity.
Qed.

Lemma indexOf_skip_prefix c pat p m :
  Forall (fun x => x <> c) p ->
  String_indexOf (p ++ m) (c :: pat)
  = option_map (Nat.add (length p)) (String_indexOf m (c :: pat)).
Proof.
  induction 1 as [|x p Hx _ IH]; cbn [app length].
  - by destruct (String_indexOf m (c :: pat)).
  - rewrite indexOf_head by congruence. rewrite IH.
    by destruct (String_indexOf m (c :: pat)).
Qed.

(** A replacement by the empty string leaves alone a prefix in which the
    first character of the pattern does not occur. *)
Lemma replace_skip_prefix c pat p m :
  Forall (fun x => x <> c) p ->
  String_replace (p ++ m) (c :: pat) [] = p ++ String_replace m (c :: pat) [].
Proof.
  intros H. unfold String_replace. rewrite (indexOf_skip_prefix c pat p m H).
  destruct (String_indexOf m (c :: pat)) as [pos|]; cbn [option_map GetSubstitution app]; [|done].
  rewrite firstn_app_2, <- app_assoc. f_equal. f_equal.
  rewrite skipn_app, skipn_all2 by lia. cbn [app]. f_equal. lia.
Qed.

Lemma indexOf_None_replace s pat replacement :
  String_indexOf s pat = None -> String_replace s pat replacement = s.
Proof. intros H. unfold String_replace. by rewrite H. Qed.

(** The replacement of one code unit by another. *)
Lemma replace_unit_cons c d x s :
  d <> "$"%char ->
  String_replace (x :: s) [c] [d]
  = if Ascii.eqb c x then d :: s else x :: String_replace s [c] [d].
Proof.
  intros Hd. unfold String_replace. cbn [String_indexOf starts_with].
  destruct (Ascii.eqb_spec c x) as [->|Hx]; cbn [andb].
  - cbn [firstn length Nat.add skipn app GetSubstitution].
    destruct (Ascii.eqb_spec d "$"); [done|]. reflexivity.
  - destruct (String_indexOf s [c]) as [pos|]; cbn [option_map]; [|done].
    cbn [firstn Nat.add skipn app]. reflexivity.
Qed.

Lemma count_replace_unit c d s :
  d <> "$"%char -> c <> d ->
  count_unit c (String_replace s [c] [d]) = Nat.pred (count_unit c s).
Proof.
  intros Hd Hcd. unfold count_unit. induction s as [|x s IH]; [done|].
  rewrite replace_unit_cons by done. cbn [List.filter].
  destruct (Ascii.eqb_spec c x) as [->|Hx].
  - cbn [List.filter length Nat.pred]. destruct (Ascii.eqb_spec x d); [done|]. reflexivity.
  - cbn [List.filter]. destruct (Ascii.eqb_spec c x); [done|]. exact IH.
Qed.

Lemma count_space_lower s : count_unit " " (toLowerCase s) = count_unit " " s.
Proof.
  unfold count_unit, toLowerCase. induction s as [|x s IH]; [done|].
  cbn [map List.filter].
  assert (E : Ascii.eqb " " (toLowerCase_unit x) = Ascii.eqb " " x).
  { destruct x as [[] [] [] [] [] [] [] []]; reflexivity. }
  rewrite E. destruct (Ascii.eqb " " x); cbn [length]; by rewrite IH.
Qed.

Lemma trimStart_nil s : trimStart s = [] <-> Forall (fun c => isWhiteSpace c = true) s.
Proof.
  induction s as [|c s IH]; cbn [trimStart].
  - split; [constructor|done].
  - destruct (isWhiteSpace c) eqn:E.
    + rewrite IH. split; [by constructor|]. intros H. by inversion H.
    + split; [done|]. intros H. inversion H; congruence.
Qed.

Lemma trimStart_suffix s : exists ws, s = ws ++ trimStart s /\ Forall (fun c => isWhiteSpace c = true) ws.
Proof.
  induction s as [|c s (ws & E & H)]; cbn [trimStart].
  - by exists [].
  - destruct (isWhiteSpace c) eqn:Ec.
    + exists (c :: ws). split; [cbn; by rewrite <- E|by constructor].
    + by exists [].
Qed.

(** After [trim] nothing is left exactly when the string is white space. *)
Lemma trim_falsy s : falsy (trim s) = true <-> Forall (fun c => isWhiteSpace c = true) s.
Proof.
  assert (F : forall l : jsstring, falsy l = true <-> l = []) by (by intros []).
  rewrite F. unfold trim, trimEnd.
  split.
  - intros H. destruct (trimStart_suffix s) as (ws & E & Hws).
    assert (H1 : trimStart (rev (trimStart s)) = []).
    { apply (f_equal (@rev ascii)) in H. by rewrite rev_involutive in H. }
    apply trimStart_nil in H1. rewrite E. apply Forall_app. split; [done|].
    apply List.Forall_forall. intros c Hc. rewrite List.Forall_forall in H1. apply H1.
    by apply in_rev in Hc.
  - intros H. apply trimStart_nil in H. rewrite H. reflexivity.
Qed.

(** * The scan: progress, messages, inputs *)

Lemma progress_table :
  map (fun n => progress_after n (number_of_Z 0)) (seq 0 121) = map progress_spec (seq 0 121).
Proof. vm_compute. reflexivity. Qed.

Lemma progress_bounded_table :
  forallb (fun n => fge (number_of_Z 90) (fst (progress_spec n))) (seq 0 121) = true.
Proof. vm_compute. reflexivity. Qed.

Lemma progress_after_cleared a b : forall p,
  snd (progress_after a p) = true -> progress_after (a + b) p = progress_after a p.
Proof.
  induction a as [|a IH]; intros p; cbn [progress_after Nat.add]; [done|].
  destruct (progress_update p) as [p' c]. destruct c; [done|]. apply IH.
Qed.

Lemma progress_after_le n :
  n <= 120 -> progress_after n (number_of_Z 0) = progress_spec n.
Proof.
  intros Hn. pose proof progress_table as T.
  apply (f_equal (fun l => nth_error l n)) in T.
  rewrite !nth_error_map in T.
  assert (E : nth_error (seq 0 121) n = Some n).
  { rewrite nth_error_seq. destruct (Nat.ltb_spec n 121); [done|lia]. }
  rewrite E in T. cbn [option_map] in T. congruence.
Qed.

Lemma text_after_app a b s : text_after (a + b) s = text_after b (text_after a s).
Proof. revert s. induction a as [|a IH]; intros s; cbn [text_after Nat.add]; [done|]. apply IH. Qed.

Lemma text_after_cleared b s : text_cleared s = true -> text_after b s = s.
Proof.
  intros H. induction b as [|b IH]; cbn [text_after]; [done|].
  unfold text_tick. by rewrite H.
Qed.

Lemma pages_loop_join pages : forall i numPages textContent,
  i + length pages = Datatypes.S numPages ->
  pages_loop pages i numPages textContent
  = textContent ++ join ["010"%char; "010"%char] (map (join (str " ")) pages).
Proof.
  induction pages as [|items pages IH]; intros i n acc Hi; cbn [pages_loop map].
  - cbn [join]. by rewrite app_nil_r.
  - cbn [length] in Hi. rewrite IH by lia.
    destruct pages as [|items' pages'].
    + cbn [length] in Hi. destruct (Nat.ltb_spec i n); [lia|].
      cbn [map join]. by rewrite app_nil_r.
    + cbn [length] in Hi. destruct (Nat.ltb_spec i n); [|lia].
      cbn [map join]. by rewrite <- !app_assoc.
Qed.

(** The links of the side navigation.  Only the first space of a name is
    replaced: the link of an item has one space less than its name (none
    less when the name has none).  For the four items of the page this gives
    the [id]s of the first four section cards. *)
Theorem sideNav_links (item : NavItem) (report : Report) :
  count_unit " " (item_href item) = Nat.pred (count_unit " " (item_name item))
  /\ map item_href (sideNavItems report)
     = map (fun id => str "#" ++ id) (firstn 4 section_ids).
Proof.
  split; [|reflexivity].
  unfold item_href. change (str "#") with ["#"%char]. change (str " ") with [" "%char].
  change (str "-") with ["-"%char]. cbn [app].
  unfold count_unit at 1. cbn [List.filter Ascii.eqb Bool.eqb andb].
  fold (count_unit " " (String_replace (toLowerCase (item_name item)) [" "%char] ["-"%char])).
  rewrite count_replace_unit by done. by rewrite count_space_lower.
Qed.

(** The progress of the loading bar: after [n] periods of the interval it
    is three quarters of a point per period, exactly, until the 120th period
    reaches 90 and clears the interval; it never exceeds 90. *)
Theorem progress_simulation (n : nat) :
  progress_after n (number_of_Z 0) = progress_spec n
  /\ fge (number_of_Z 90) (fst (progress_after n (number_of_Z 0))) = true
  /\ (snd (progress_after n (number_of_Z 0)) = true <-> 120 <= n).
Proof.
  assert (E : progress_after n (number_of_Z 0) = progress_spec n).
  { destruct (Nat.le_gt_cases n 120) as [Hn|Hn]; [by apply progress_after_le|].
    replace n with (120 + (n - 120)) at 1 by lia.
    rewrite progress_after_cleared by (by rewrite progress_after_le by lia).
    rewrite progress_after_le by lia. unfold progress_spec.
    rewrite !Nat.min_r by lia. f_equal. by destruct (Nat.leb_spec 120 n); [|lia]. }
  split; [exact E|]. rewrite E. split.
  - pose proof progress_bounded_table as T. rewrite forallb_forall in T.
    assert (S : fst (progress_spec n) = fst (progress_spec (Nat.min n 120))).
    { unfold progress_spec. cbn [fst]. by rewrite <- Nat.min_assoc, Nat.min_id. }
    rewrite S. apply T. apply in_seq. lia.
  - unfold progress_spec. cbn [snd]. apply Nat.leb_le.
Qed.

(** The loading text: after [n] periods of its interval the text is the
    message of index [min n 6]; the index never leaves the list, so the text
    is never undefined, and the seventh period clears the interval. *)
Theorem loading_text_simulation (n : nat) :
  text_after n text_start = text_spec n
  /\ loadingText (text_after n text_start) <> None.
Proof.
  assert (E : text_after n text_start = text_spec n).
  { destruct (Nat.le_gt_cases n 7) as [Hn|Hn].
    - do 8 (destruct n as [|n]; [reflexivity|]). lia.
    - replace n with (7 + (n - 7)) at 1 by lia.
      rewrite text_after_app, text_after_cleared by reflexivity.
      unfold text_spec. rewrite !Nat.min_r by lia.
      by destruct (Nat.leb_spec 7 n); [|lia]. }
  split; [exact E|]. rewrite E. unfold text_spec. cbn [loadingText].
  destruct (Nat.min_spec n 6) as [[H ->]|[_ ->]]; [|done].
  do 6 (destruct n as [|n]; [done|]). lia.
Qed.

(** What the user reads when the request fails.  The error of the service
    always is an [Error]: the text is "Analysis failed. " and the message of
    the service, whose fixed beginning the replacement of "Error: " leaves
    alone; the fallback text of [handleScan] is never shown. *)
Theorem scan_error_text (error : thrown) :
  (forall m : jsstring, error = ErrorObject m ->
     scan_error_shown error
     = str "Analysis failed. " ++ details_prefix
       ++ (if String_includes m (str "JSON") then invalid_structure
           else if String_includes m (str "API_KEY") then invalid_key
           else String_replace m (str "Error: ") []))
  /\ (error = OtherValue ->
      scan_error_shown error
      = str "Analysis failed. An unknown error occurred while processing your request.")
  /\ scan_error_shown error <> str "Analysis failed. An unknown error occurred.".
Proof.
  assert (P : forall d, String_replace (details_prefix ++ d) (str "Error: ") []
                        = details_prefix ++ String_replace d (str "Error: ") []).
  { intros d. apply replace_skip_prefix. vm_compute. repeat constructor; discriminate. }
  assert (S : forall m, scan_error_shown (ErrorObject m)
     = str "Analysis failed. " ++ details_prefix
       ++ (if String_includes m (str "JSON") then invalid_structure
           else if String_includes m (str "API_KEY") then invalid_key
           else String_replace m (str "Error: ") [])).
  { intros m. unfold scan_error_shown, handleScan_catch, optimizeResume_catch.
    fold details_prefix invalid_structure invalid_key. rewrite P. f_equal. f_equal.
    destruct (String_includes m (str "JSON")); [reflexivity|].
    destruct (String_includes m (str "API_KEY")); reflexivity. }
  split; [by intros m ->|]. split; [by intros ->|].
  destruct error as [m|].
  - rewrite S. vm_compute. discriminate.
  - vm_compute. discriminate.
Qed.

Lemma scan_error_text_witness :
  scan_error_shown OtherValue
  = str "Analysis failed. An unknown error occurred while processing your request.".
Proof.
  destruct (scan_error_text OtherValue) as (_ & H & _). apply H. reflexivity.
Defined.

(** The Scan button and [handleScan]: the click calls [onScan] exactly when
    both texts have a character that is not white space (otherwise it sets
    the error), the button is disabled exactly when the click would set the
    error, and a call of [onScan] always passes the guard of [handleScan]. *)
Theorem scan_click (resumeText jobDescription : jsstring) (jobLanguage : Language) :
  (handleScanClick resumeText jobDescription jobLanguage
   = OnScan jobDescription resumeText jobLanguage
   <-> Exists (fun c => isWhiteSpace c = false) resumeText
       /\ Exists (fun c => isWhiteSpace c = false) jobDescription)
  /\ (scan_disabled resumeText jobDescription = true
      <-> handleScanClick resumeText jobDescription jobLanguage
          = SetError (str "Please provide both a resume and a job description."))
  /\ (forall jd r l, handleScanClick resumeText jobDescription jobLanguage = OnScan jd r l ->
        handleScan_starts jd r = true).
Proof.
  assert (N : forall s : jsstring,
             falsy (trim s) = false <-> Exists (fun c => isWhiteSpace c = false) s).
  { intros s. rewrite <- not_true_iff_false, trim_falsy. split.
    - intros H. apply List.Exists_exists.
      apply List.neg_Forall_Exists_neg in H; [|intros c; destruct (isWhiteSpace c); auto].
      apply List.Exists_exists in H as (c & Hc & Hw). exists c. split; [done|].
      by apply not_true_iff_false.
    - intros H F. apply List.Exists_exists in H as (c & Hc & Hw).
      rewrite List.Forall_forall in F. specialize (F c Hc). congruence. }
  unfold handleScanClick, scan_disabled, handleScan_starts.
  rewrite <- !N.
  destruct (falsy (trim resumeText)) eqn:E1, (falsy (trim jobDescription)) eqn:E2;
    cbn [orb]; (split; [split; [done || (intros [? ?]; done) | done || (intros [? ?]; done)]|]);
    (split; [split; done|]); intros jd r l H; try discriminate H.
  injection H as <- <- <-.
  assert (F : forall s : jsstring, falsy (trim s) = false -> falsy s = false).
  { intros [|c s]; [done|done]. }
  by rewrite (F _ E1), (F _ E2).
Qed.

(** The text of a PDF file: the loop over the pages gives the texts of the
    items of every page joined by a space, and the pages joined by an empty
    line; nothing precedes the first page or follows the last one. *)
Theorem pdf_text_join (pages : list (list jsstring)) :
  pdf_text pages = join ["010"%char; "010"%char] (map (join (str " ")) pages).
Proof.
  unfold pdf_text. rewrite pages_loop_join by lia. reflexivity.
Qed.

(** [JSON.parse(JSON.stringify(report))]: the copy reads as the same
    report, every object of it is new (no reference of the copy is used by
    the store before), the objects are pairwise distinct even where the
    original lists one object twice, and the store before is kept. *)
Theorem deep_copy_independent (h : gmap positive object) (r : ReportRef) (v : Report) :
  load_report h r = Returns v ->
  exists (r' : ReportRef) (h' : gmap positive object),
    deep_copy h r = Returns (r', h')
    /\ h ⊆ h'
    /\ load_report h' r' = Returns v
    /\ load_report h' r = Returns v
    /\ NoDup (refs_of r')
    /\ Forall (fun l => h !! l = None) (refs_of r').
Proof.
  intros Hload. unfold deep_copy. rewrite Hload. cbn [bind].
  destruct (JSON_parse h v) as [r' h'] eqn:E. exists r', h'.
  destruct (JSON_parse_spec _ _ _ _ E)
    as (Hsub & C1 & C2 & C3 & C4 & Hnd & Hfresh & I1 & I2 & I3 & I4).
  split; [done|]. split; [done|]. split; [by apply load_report_cells|].
  split; [exact (load_report_weaken _ _ _ _ Hsub Hload)|]. split; done.
Qed.

Lemma deep_copy_independent_witness :
  exists (r' : ReportRef) (h' : gmap positive object),
    deep_copy example_heap example_ref = Returns (r', h')
    /\ NoDup (refs_of r').
Proof.
  destruct (deep_copy_independent example_heap example_ref _ load_example)
    as (r' & h' & H1 & _ & _ & _ & H2 & _).
  exists r', h'. split; [exact H1|exact H2].
Defined.

(** * The marks of the highlighter *)

Lemma close_literals done k :
  close (rev (map literal done)) (rev (map Char k)) = alts_of (done ++ [k]).
Proof.
  unfold close. rewrite !rev_involutive. fold (literal k).
  destruct done as [|a done]; [done|]. cbn [map app alts_of]. by rewrite map_app.
Qed.

(** The keywords, escaped and joined by [|], are read back as the
    disjunction of their literal patterns. *)
Lemma parse_keywords ks : forall k done,
  exists alts cur, close alts cur = alts_of (done ++ k :: ks) /\
    forall rest stack n,
      parse_pattern (join (str "|") (map escapeRegExp (k :: ks)) ++ rest) stack n
        (rev (map literal done)) []
      = parse_pattern rest stack n alts cur.
Proof.
  induction ks as [|k2 ks IH]; intros k done.
  - exists (rev (map literal done)), (rev (map Char k)). split; [apply close_literals|].
    intros rest stack n. cbn [map join]. rewrite parse_escaped. by rewrite app_nil_r.
  - destruct (IH k2 (done ++ [k])) as (alts & cur & Hc & Hp).
    exists alts, cur. split; [by rewrite <- app_assoc in Hc|].
    intros rest stack n.
    change (join (str "|") (map escapeRegExp (k :: k2 :: ks)))
      with (escapeRegExp k ++ str "|" ++ join (str "|") (map escapeRegExp (k2 :: ks))).
    rewrite <- !app_assoc, parse_escaped.
    change (str "|" ++ join (str "|") (map escapeRegExp (k2 :: ks)) ++ rest)
      with ("|"%char :: (join (str "|") (map escapeRegExp (k2 :: ks)) ++ rest)).
    cbn [parse_pattern]. change (Ascii.eqb "|" "\") with false.
    change (Ascii.eqb "|" "(") with false. change (Ascii.eqb "|" ")") with false.
    change (Ascii.eqb "|" "|") with true. cbv iota.
    rewrite app_nil_r, rev_involutive. fold (literal k).
    rewrite <- Hp. by rewrite map_app, rev_app_distr.
Qed.

Lemma new_RegExp_keywords_exact ks :
  ks <> [] -> new_RegExp (keywords_pattern ks) (str "gi") = Returns (keywords_regex ks).
Proof.
  intros Hks. destruct ks as [|k ks]; [done|].
  destruct (parse_keywords ks k []) as (alts & cur & Hc & Hp).
  unfold new_RegExp, keywords_pattern.
  change (str "\b(" ++ join (str "|") (map escapeRegExp (k :: ks)) ++ str ")\b")
    with ("\"%char :: "b"%char :: "("%char
            :: (join (str "|") (map escapeRegExp (k :: ks)) ++ str ")\b")).
  cbn [parse_pattern]. change (Ascii.eqb "\" "\") with true. change (Ascii.eqb "b" "b") with true.
  change (Ascii.eqb "(" "\") with false. change (Ascii.eqb "(" "(") with true. cbv iota.
  change (@nil regex) with (rev (map literal [])) at 1.
  rewrite Hp. cbn [str list_ascii_of_string parse_pattern].
  change (Ascii.eqb ")" "\") with false. change (Ascii.eqb ")" "(") with false.
  change (Ascii.eqb ")" ")") with true. change (Ascii.eqb "\" "\") with true.
  change (Ascii.eqb "b" "b") with true. cbv iota.
  rewrite Hc. reflexivity.
Qed.

Lemma matcher_one_literal ic kw S i caps k :
  matcher ic (literal kw) S i caps k
  = if literal_at ic kw S i then k (i + length kw) caps else None.
Proof.
  unfold literal. rewrite <- (app_nil_r (map Char kw)). by rewrite matcher_literal.
Qed.

Lemma matcher_alt_of S i caps k rest : forall a,
  matcher true (alt_of (literal a) (map literal rest)) S i caps k
  = first_match (a :: rest) S i (fun j => k j caps).
Proof.
  induction rest as [|b rest IH]; intros a; cbn [map alt_of first_match].
  - rewrite matcher_one_literal. unfold try_kw.
    by destruct (literal_at true a S i); [destruct (k _ caps)|].
  - cbn [matcher]. rewrite matcher_one_literal, IH. reflexivity.
Qed.

Lemma matcher_alts ks S i caps k :
  ks <> [] -> matcher true (alts_of ks) S i caps k = first_match ks S i (fun j => k j caps).
Proof. destruct ks as [|a rest]; [done|]. intros _. apply matcher_alt_of. Qed.

Lemma first_match_map {X Y} (F : X -> Y) ks S i (k : nat -> option X) :
  first_match ks S i (fun j => option_map F (k j)) = option_map F (first_match ks S i k).
Proof.
  induction ks as [|kw ks IH]; cbn [first_match]; [done|]. unfold try_kw.
  destruct (literal_at true kw S i); [|exact IH].
  destruct (k (i + length kw)); [done|exact IH].
Qed.

Lemma first_match_ext {X} ks S i (k k' : nat -> option X) :
  (forall j, k j = k' j) -> first_match ks S i k = first_match ks S i k'.
Proof.
  intros H. induction ks as [|kw ks IH]; cbn [first_match]; [done|]. unfold try_kw.
  by rewrite H, IH.
Qed.

(** One attempt of the pattern of the keywords. *)
Lemma match_at_keywords R ks S q :
  pattern R = pattern (keywords_regex ks) -> ngroups R = 1 -> ignoreCase R = true ->
  ks <> [] ->
  match_at R S q
  = match kw_match ks S q with
    | Some e => Some (e, [Some (substring S q e)])
    | None => None
    end.
Proof.
  intros Hp Hn Hi Hks. unfold match_at, kw_match. rewrite Hp, Hn, Hi.
  cbn [keywords_regex pattern repeat matcher]. fold (is_boundary S q).
  destruct (is_boundary S q); [|done].
  rewrite matcher_alts by done. cbn [insert list_insert].
  rewrite (first_match_ext ks S q _
             (fun j => option_map (fun e => (e, [Some (substring S q e)]))
                         (if is_boundary S j then Some j else None))).
  - rewrite first_match_map. by destruct (first_match _ _ _ _).
  - intros j. fold (is_boundary S j). by destruct (is_boundary S j).
Qed.

Lemma length_substring (S : jsstring) p q :
  p <= q -> q <= length S -> length (substring S p q) = q - p.
Proof.
  intros Hpq Hq. unfold substring. rewrite length_firstn, length_skipn. lia.
Qed.

Lemma nth_error_substring (S : jsstring) p q i :
  i < q - p -> nth_error (substring S p q) i = nth_error S (p + i).
Proof.
  intros Hi. unfold substring. rewrite nth_error_firstn.
  destruct (Nat.ltb_spec i (q - p)); [|lia]. apply nth_error_skipn.
Qed.

Lemma nth_error_substring_out (S : jsstring) p q i :
  p <= q -> q <= length S -> q - p <= i -> nth_error (substring S p q) i = None.
Proof.
  intros Hpq Hq Hi. apply nth_error_None. rewrite length_substring by done. lia.
Qed.

Lemma IsWordChar_substring S p q i :
  i < q - p -> IsWordChar (substring S p q) i = IsWordChar S (p + i).
Proof. intros Hi. unfold IsWordChar. by rewrite nth_error_substring. Qed.

Lemma IsWordChar_substring_out S p q i :
  p <= q -> q <= length S -> q - p <= i -> IsWordChar (substring S p q) i = false.
Proof. intros Hpq Hq Hi. unfold IsWordChar. by rewrite nth_error_substring_out. Qed.

(** Inside a piece the word boundaries are those of the text. *)
Lemma is_boundary_substring S p q a :
  0 < a -> a < q - p -> is_boundary (substring S p q) a = is_boundary S (p + a).
Proof.
  intros Ha Hq. unfold is_boundary. destruct a as [|a]; [lia|].
  replace (p + Datatypes.S a) with (Datatypes.S (p + a)) by lia.
  cbn [IsWordChar_before]. rewrite !IsWordChar_substring by lia.
  by replace (p + Datatypes.S a) with (Datatypes.S (p + a)) by lia.
Qed.

Lemma literal_at_length ic kw : forall S i,
  literal_at ic kw S i = true -> kw <> [] -> i + length kw <= length S.
Proof.
  induction kw as [|c kw IH]; intros S i H Hne; [done|]. cbn [literal_at length] in *.
  destruct (nth_error S i) as [d|] eqn:E; [|done].
  apply andb_true_iff in H as [_ H].
  assert (i < length S) by (apply nth_error_Some; by rewrite E).
  destruct kw as [|c' kw']; [cbn; lia|]. specialize (IH S (Datatypes.S i) H ltac:(done)).
  cbn [length] in *. lia.
Qed.

Lemma literal_at_substring ic kw : forall S p q a,
  a + length kw <= q - p ->
  literal_at ic kw (substring S p q) a = literal_at ic kw S (p + a).
Proof.
  induction kw as [|c kw IH]; intros S p q a Ha; [done|]. cbn [literal_at length] in *.
  rewrite nth_error_substring by lia.
  destruct (nth_error S (p + a)) as [d|]; [|done].
  rewrite IH by lia. by replace (p + Datatypes.S a) with (Datatypes.S (p + a)) by lia.
Qed.

Lemma literal_at_app ic k1 : forall k2 S i,
  literal_at ic (k1 ++ k2) S i = literal_at ic k1 S i && literal_at ic k2 S (i + length k1).
Proof.
  induction k1 as [|c k1 IH]; intros k2 S i; cbn [app literal_at length].
  - by rewrite Nat.add_0_r.
  - destruct (nth_error S i) as [d|]; [|done].
    rewrite IH, andb_assoc. by replace (Datatypes.S i + length k1) with (i + Datatypes.S (length k1)) by lia.
Qed.

(** Where a keyword with word characters at both ends stands, the text has
    word characters at both ends of the occurrence. *)
Lemma literal_at_edges kw S i :
  word_edges kw -> literal_at true kw S i = true ->
  kw <> [] /\ IsWordChar S i = true /\ IsWordChar_before S (i + length kw) = true.
Proof.
  intros [(c & Hc & Wc) (d & Hd & Wd)] H.
  destruct kw as [|c' kw1]; [done|]. injection Hc as ->.
  split; [done|]. split.
  - cbn [literal_at] in H. unfold IsWordChar.
    destruct (nth_error S i) as [x|]; [|done].
    apply andb_true_iff in H as [H _]. apply N.eqb_eq in H.
    by rewrite (same_letter_word x c H).
  - destruct (c :: kw1) as [|y kw2 _] using rev_ind; [done|].
    rewrite last_snoc in Hd. injection Hd as ->.
    rewrite literal_at_app in H. apply andb_true_iff in H as [_ H].
    rewrite length_app. cbn [length].
    replace (i + (length kw2 + 1)) with (Datatypes.S (i + length kw2)) by lia.
    cbn [IsWordChar_before literal_at] in *. unfold IsWordChar.
    destruct (nth_error S (i + length kw2)) as [x|]; [|done].
    apply andb_true_iff in H as [H _]. apply N.eqb_eq in H.
    by rewrite (same_letter_word x d H).
Qed.

Lemma first_match_None {X} ks S i (k : nat -> option X) :
  first_match ks S i k = None <-> Forall (fun kw => try_kw kw S i k = None) ks.
Proof.
  induction ks as [|kw ks IH]; cbn [first_match].
  - split; [constructor|done].
  - destruct (try_kw kw S i k) eqn:E.
    + split; [done|]. intros H. inversion H; congruence.
    + rewrite IH. split; [by constructor|]. intros H. by inversion H.
Qed.

Lemma first_match_Some {X} ks S i (k : nat -> option X) z :
  first_match ks S i k = Some z <->
  exists ks1 kw ks2, ks = ks1 ++ kw :: ks2
    /\ Forall (fun kw' => try_kw kw' S i k = None) ks1 /\ try_kw kw S i k = Some z.
Proof.
  induction ks as [|kw ks IH]; cbn [first_match].
  - split; [done|]. intros (ks1 & kw & ks2 & E & _). by destruct ks1.
  - destruct (try_kw kw S i k) as [z'|] eqn:E.
    + split.
      * intros [= <-]. exists [], kw, ks. by repeat split.
      * intros (ks1 & kw' & ks2 & Eq & F & T). destruct ks1 as [|a ks1].
        -- injection Eq as -> ->. congruence.
        -- injection Eq as -> ->. inversion F; congruence.
    + rewrite IH. split.
      * intros (ks1 & kw' & ks2 & -> & F & T). exists (kw :: ks1), kw', ks2.
        split; [done|]. split; [by constructor|done].
      * intros (ks1 & kw' & ks2 & Eq & F & T). destruct ks1 as [|a ks1].
        -- injection Eq as -> ->. congruence.
        -- injection Eq as -> ->. exists ks1, kw', ks2. split; [done|].
           split; [by inversion F|done].
Qed.

(** A match of the keywords: a boundary, the first keyword in their order
    that stands there and ends on a boundary, and that boundary. *)
Lemma kw_match_Some ks S q e :
  kw_match ks S q = Some e <->
  is_boundary S q = true /\
  exists ks1 kw ks2, ks = ks1 ++ kw :: ks2
    /\ Forall (fun kw' => literal_at true kw' S q && is_boundary S (q + length kw') = false) ks1
    /\ literal_at true kw S q = true /\ is_boundary S e = true /\ e = q + length kw.
Proof.
  unfold kw_match. destruct (is_boundary S q); [|split; [done|by intros [? _]]].
  rewrite first_match_Some. split.
  - intros (ks1 & kw & ks2 & -> & F & T). split; [done|]. exists ks1, kw, ks2.
    split; [done|]. split.
    + eapply Forall_impl; [exact F|]. intros kw' H. unfold try_kw in H. cbn beta.
      destruct (literal_at true kw' S q); [|done].
      by destruct (is_boundary S (q + length kw')).
    + unfold try_kw in T. destruct (literal_at true kw S q); [|done].
      destruct (is_boundary S (q + length kw)) eqn:B; [|done].
      injection T as <-. by repeat split.
  - intros (_ & ks1 & kw & ks2 & -> & F & L & B & ->). exists ks1, kw, ks2.
    split; [done|]. split.
    + eapply Forall_impl; [exact F|]. intros kw' H. unfold try_kw. cbn beta in H.
      destruct (literal_at true kw' S q); [|done].
      by destruct (is_boundary S (q + length kw')).
    + unfold try_kw. by rewrite L, B.
Qed.

Lemma kw_match_None ks S q :
  kw_match ks S q = None <->
  forall kw, In kw ks ->
    is_boundary S q && literal_at true kw S q && is_boundary S (q + length kw) = false.
Proof.
  unfold kw_match. destruct (is_boundary S q); [|split; [by intros _ kw _|done]].
  rewrite first_match_None, List.Forall_forall. cbn [andb].
  split; intros H kw Hkw; specialize (H kw Hkw); unfold try_kw in *;
    destruct (literal_at true kw S q); try done;
    by destruct (is_boundary S (q + length kw)).
Qed.

(** Matches are not empty and end inside the text. *)
Lemma kw_match_range ks S q e :
  Forall word_edges ks -> kw_match ks S q = Some e ->
  q < e <= length S /\ IsWordChar S q = true /\ IsWordChar_before S q = false
  /\ IsWordChar_before S e = true /\ IsWordChar S e = false.
Proof.
  intros Hw H. apply kw_match_Some in H as (Bq & ks1 & kw & ks2 & -> & _ & L & Be & ->).
  apply Forall_app in Hw as [_ Hw]. inversion Hw as [|? ? Hkw _]; subst.
  destruct (literal_at_edges kw S q Hkw L) as (Hne & W1 & W2).
  pose proof (literal_at_length _ _ _ _ L Hne) as Hlen.
  assert (0 < length kw) by (destruct kw; [done|cbn; lia]).
  unfold is_boundary in Bq, Be. rewrite W1 in Bq. rewrite W2 in Be.
  repeat split; try lia; try done.
  - by destruct (IsWordChar_before S q).
  - by destruct (IsWordChar S (q + length kw)).
Qed.

Lemma IsWordChar_before_substring S p q b :
  0 < b -> b <= q - p -> IsWordChar_before (substring S p q) b = IsWordChar_before S (p + b).
Proof.
  intros Hb Hq. destruct b as [|b]; [lia|].
  replace (p + Datatypes.S b) with (Datatypes.S (p + b)) by lia.
  cbn [IsWordChar_before]. apply IsWordChar_substring. lia.
Qed.

(** The loop of [split] for the pattern of the keywords: the pieces it adds
    are those of [split_from]. *)
Lemma split_loop_from ks S : forall fuel R p q A,
  sticky R = true -> pattern R = pattern (keywords_regex ks) -> ngroups R = 1 ->
  ignoreCase R = true -> ks <> [] -> Forall word_edges ks ->
  p <= q -> q <= length S ->
  (forall q', p <= q' < q -> kw_match ks S q' = None) ->
  2 * (length S - q) + (if p <? q then 1 else 0) < fuel ->
  exists parts, split_loop R S fuel p q A = Returns (A ++ parts) /\ split_from ks S p parts.
Proof.
  induction fuel as [|fuel IH]; intros R p q A Hs Hp Hn Hi Hks Hw Hpq Hq Hnone Hfuel; [lia|].
  cbn [split_loop]. destruct (Nat.ltb_spec q (length S)) as [Hlt|Hge].
  - rewrite exec_sticky by (done || lia).
    rewrite (match_at_keywords R ks S q Hp Hn Hi Hks).
    destruct (kw_match ks S q) as [e|] eqn:E.
    + destruct (kw_match_range ks S q e Hw E) as (He & _).
      cbn [set_lastIndex lastIndex]. rewrite Nat.min_l by lia.
      destruct (Nat.eqb_spec e p) as [Hep|_]; [lia|].
      destruct (IH (set_lastIndex R e) e e
                  (A ++ [Some (substring S p q)] ++ [Some (substring S q e)]))
        as (parts & Hparts & Hfrom);
        [done|done|done|done|done|done|lia|lia|intros q' Hq'; lia| |].
      { rewrite Nat.ltb_irrefl. destruct (Nat.ltb_spec p q); lia. }
      exists (Some (substring S p q) :: Some (substring S q e) :: parts).
      split; [by rewrite Hparts, <- !app_assoc|].
      by apply split_step with (q := q) (e := e).
    + destruct (IH (set_lastIndex R 0) p (Datatypes.S q) A) as (parts & Hparts & Hfrom);
        [done|done|done|done|done|done|lia|lia| | |].
      { intros q' Hq'. destruct (Nat.eq_dec q' q) as [->|]; [done|]. apply Hnone. lia. }
      { destruct (p <? q); destruct (p <? Datatypes.S q); lia. }
      by exists parts.
  - exists [Some (substring S p (length S))]. split; [done|].
    apply split_end. intros q' Hq'. apply Hnone. lia.
Qed.

Lemma String_split_from ks S :
  S <> [] -> ks <> [] -> Forall word_edges ks ->
  exists parts, String_split S (keywords_regex ks) = Returns parts /\ split_from ks S 0 parts.
Proof.
  intros HS Hks Hw. unfold String_split.
  destruct (Nat.eqb_spec (length S) 0) as [Hz|Hnz]; [by destruct S|].
  destruct (split_loop_from ks S (2 * length S + 2)
              {| pattern := pattern (keywords_regex ks); ngroups := ngroups (keywords_regex ks);
                 global := global (keywords_regex ks);
                 ignoreCase := ignoreCase (keywords_regex ks); sticky := true;
                 lastIndex := 0 |} 0 0 [])
    as (parts & Hparts & Hfrom);
    [done|done|done|done|done|done|lia|lia|intros q' Hq'; lia|cbn; lia|].
  by exists parts.
Qed.

(** The test of the keywords' RegExp object, which has the flag g. *)
Lemma test_keywords_false ks T L :
  ks <> [] -> (forall a, kw_match ks T a = None) ->
  RegExp_test (set_lastIndex (keywords_regex ks) L) T
  = (false, set_lastIndex (keywords_regex ks) 0).
Proof.
  intros Hks Hnone. unfold RegExp_test, RegExpBuiltinExec.
  cbn [set_lastIndex keywords_regex global sticky lastIndex orb].
  destruct (length T <? L); [done|].
  match goal with |- context [search ?R T ?n L] => destruct (search R T n L) as [[[i e] caps]|] eqn:E end;
    [|done].
  apply search_Some in E as [_ E].
  rewrite (match_at_keywords _ ks T i) in E by done. by rewrite Hnone in E.
Qed.

Lemma test_keywords_true ks T e :
  ks <> [] -> kw_match ks T 0 = Some e ->
  RegExp_test (set_lastIndex (keywords_regex ks) 0) T
  = (true, set_lastIndex (keywords_regex ks) e).
Proof.
  intros Hks Hm. unfold RegExp_test, RegExpBuiltinExec.
  cbn [set_lastIndex keywords_regex global sticky lastIndex orb].
  change (length T <? 0) with false. cbv iota. rewrite Nat.sub_0_r. cbn [search].
  match goal with |- context [match_at ?R T 0] =>
    rewrite (match_at_keywords R ks T 0) by done end.
  by rewrite Hm.
Qed.

(** A piece of plain text, taken by itself, has no match of the keywords. *)
Lemma isolated_text ks S p q :
  Forall word_edges ks -> start_ok S p -> p <= q -> q <= length S ->
  (q = length S \/ (IsWordChar S q = true /\ IsWordChar_before S q = false)) ->
  (forall q', p <= q' < q -> kw_match ks S q' = None) ->
  forall a, kw_match ks (substring S p q) a = None.
Proof.
  intros Hw Hstart Hpq Hq Hend Hnone a.
  destruct (kw_match ks (substring S p q) a) as [e|] eqn:E; [exfalso|done].
  apply kw_match_Some in E as (Ba & ks1 & kw & ks2 & -> & _ & L & Be & ->).
  assert (Hkw : word_edges kw).
  { apply Forall_app in Hw as [_ Hw]. by inversion Hw. }
  destruct (literal_at_edges kw _ a Hkw L) as (Hne & W1 & W2).
  pose proof (literal_at_length _ _ _ _ L Hne) as Hlen.
  rewrite length_substring in Hlen by done.
  assert (Hk : 0 < length kw) by (destruct kw; [done|cbn; lia]).
  specialize (Hnone (p + a) ltac:(lia)).
  rewrite kw_match_None in Hnone. specialize (Hnone kw ltac:(apply in_elt)).
  rewrite literal_at_substring in L by lia. rewrite L, andb_true_r in Hnone.
  rewrite IsWordChar_substring in W1 by lia.
  rewrite IsWordChar_before_substring in W2 by lia.
  assert (B1 : is_boundary S (p + a) = true).
  { destruct (Nat.eq_dec a 0) as [->|Ha].
    - rewrite Nat.add_0_r in *. unfold is_boundary. rewrite W1.
      destruct Hstart as [->|[_ Hs]]; [done|congruence].
    - rewrite <- (is_boundary_substring S p q a) by lia. exact Ba. }
  assert (B2 : is_boundary S (p + a + length kw) = true).
  { destruct (Nat.eq_dec (a + length kw) (q - p)) as [Heq|Hneq].
    - replace (p + a + length kw) with q in * by lia.
      replace (p + (a + length kw)) with q in W2 by lia.
      destruct Hend as [->|[_ He]]; [|congruence].
      unfold is_boundary. rewrite W2. unfold IsWordChar.
      assert (N : nth_error S (length S) = None) by (by apply nth_error_None).
      by rewrite N.
    - rewrite (is_boundary_substring S p q (a + length kw)) in Be by lia.
      by replace (p + a + length kw) with (p + (a + length kw)) by lia. }
  rewrite B1, B2 in Hnone. done.
Qed.

(** A matched piece, taken by itself, is matched from its start to its end. *)
Lemma isolated_match ks S q e :
  Forall word_edges ks -> kw_match ks S q = Some e ->
  kw_match ks (substring S q e) 0 = Some (e - q).
Proof.
  intros Hw E. destruct (kw_match_range ks S q e Hw E) as (He & W1 & _ & W2 & _).
  apply kw_match_Some in E as (Bq & ks1 & kw & ks2 & -> & F & L & Be & ->).
  assert (Hlen : length (substring S q (q + length kw)) = length kw).
  { rewrite length_substring by lia. lia. }
  apply kw_match_Some. split.
  - unfold is_boundary. cbn [IsWordChar_before]. rewrite IsWordChar_substring by lia.
    by rewrite Nat.add_0_r, W1.
  - exists ks1, kw, ks2. split; [done|]. split; [|split; [|split]].
    + apply Forall_app in Hw as [Hw1 _].
      rewrite List.Forall_forall in *. intros kw' Hin. specialize (F kw' Hin).
      specialize (Hw1 kw' Hin). cbn beta in *.
      destruct (literal_at true kw' (substring S q (q + length kw)) 0) eqn:L'; [|done].
      cbn [andb]. destruct (literal_at_edges kw' _ 0 Hw1 L') as (Hne' & _).
      pose proof (literal_at_length _ _ _ _ L' Hne') as Hlen'. rewrite Hlen in Hlen'.
      assert (0 < length kw') by (destruct kw'; [done|cbn; lia]).
      rewrite literal_at_substring in L' by lia. rewrite Nat.add_0_r in L'.
      rewrite L' in F. cbn [andb] in F.
      destruct (Nat.eq_dec (length kw') (length kw)) as [Heq|Hneq].
      * rewrite Heq in F. congruence.
      * rewrite is_boundary_substring by lia. exact F.
    + rewrite literal_at_substring by lia. by rewrite Nat.add_0_r.
    + replace (q + length kw - q) with (length kw) by lia.
      unfold is_boundary. rewrite IsWordChar_before_substring by lia.
      rewrite W2. rewrite IsWordChar_substring_out by lia. reflexivity.
    + lia.
Qed.

(** The tests of [mark_parts] mark the matches and nothing else, whatever
    [lastIndex] the RegExp object starts with. *)
Lemma mark_parts_from ks S :
  Forall word_edges ks -> ks <> [] ->
  forall p parts, split_from ks S p parts -> start_ok S p -> p <= length S ->
  forall L, mark_parts (set_lastIndex (keywords_regex ks) L) parts = marks parts.
Proof.
  intros Hw Hks p parts H.
  induction H as [p Hnone|p q e parts Hq Hnone E Hfrom IH]; intros Hstart Hp L.
  - cbn [mark_parts marks part_ToString].
    rewrite test_keywords_false; [done|done|].
    apply isolated_text; try done. by left.
  - destruct (kw_match_range ks S q e Hw E) as (He & W1 & W2 & W3 & W4).
    cbn [mark_parts marks part_ToString].
    rewrite test_keywords_false; [|done|].
    2:{ apply isolated_text; try done; try lia. by right. }
    rewrite (test_keywords_true ks _ (e - q)) by (done || by apply isolated_match).
    f_equal. f_equal. apply IH; [by right|lia].
Qed.

Lemma no_match_no_keyword ks t : (forall a, kw_match ks t a = None) -> no_keyword ks t.
Proof.
  intros Hnone kw Hin (a & Ba & Hl & Be). specialize (Hnone a).
  rewrite kw_match_None in Hnone. specialize (Hnone kw Hin).
  apply literal_at_Forall2 in Hl. by rewrite Ba, Hl, Be in Hnone.
Qed.

(** The pieces of [split_from], read as plain text and keyword in turn. *)
Lemma split_from_pieces ks S :
  Forall word_edges ks ->
  forall p parts, split_from ks S p parts -> start_ok S p -> p <= length S ->
  exists pieces rest,
    marks parts = pieces_segments pieces rest
    /\ Forall (fun tm => no_keyword ks (fst tm) /\ is_keyword ks (snd tm)) pieces
    /\ no_keyword ks rest
    /\ concat (flat_map (fun tm => [fst tm; snd tm]) pieces) ++ rest = skipn p S.
Proof.
  intros Hw p parts H.
  induction H as [p Hnone|p q e parts Hq Hnone E Hfrom IH]; intros Hstart Hp.
  - exists [], (substring S p (length S)). split; [done|]. split; [constructor|]. split.
    + apply no_match_no_keyword, isolated_text; try done. by left.
    + cbn. apply substring_end.
  - destruct (kw_match_range ks S q e Hw E) as (He & W1 & W2 & W3 & W4).
    destruct IH as (pieces & rest & Hm & Hf & Hr & Hc); [by right|lia|].
    exists ((substring S p q, substring S q e) :: pieces), rest.
    split; [cbn [marks]; by rewrite Hm|]. split; [|split; [done|]].
    + constructor; [|done]. cbn [fst snd]. split.
      * apply no_match_no_keyword, isolated_text; try done; try lia. by right.
      * apply kw_match_Some in E as (_ & ks1 & kw & ks2 & -> & _ & L & _ & ->).
        exists kw. split; [apply in_elt|]. by apply literal_at_Forall2.
    + cbn [flat_map fst snd app concat]. rewrite <- !app_assoc, Hc.
      rewrite (substring_skipn S q e) by lia. apply substring_skipn. lia.
Qed.


(** * The pattern of a skill and the whole word *)

Section WholeWord.

(** Lower-casing and the pattern's [Canonicalize] agree on which characters
    are the same letter. *)
Lemma same_ignoring_case_letter a b : same_ignoring_case a b = true <-> same_letter a b.
Proof.
  unfold same_ignoring_case, same_letter. rewrite Ascii.eqb_eq.
  set (back := fun n : N =>
         if (n =? 376)%N then "255"%char
         else if (n =? 924)%N then "181"%char
         else toLowerCase_unit (ascii_of_N n)).
  assert (B : forall c, toLowerCase_unit c = back (Canonicalize true c)).
  { intros c. destruct c as [[] [] [] [] [] [] [] []]; reflexivity. }
  split; intros H.
  - by rewrite <- (canonicalize_lower a), <- (canonicalize_lower b), H.
  - by rewrite (B a), (B b), H.
Qed.

Lemma reads_as_Forall2 kw : forall t,
  reads_as t kw = true <-> Forall2 same_letter (firstn (length kw) t) kw.
Proof.
  induction kw as [|k kw IH]; intros t.
  - cbn [reads_as length]. rewrite firstn_O. split; [intros _; constructor|done].
  - destruct t as [|c t]; cbn [reads_as length firstn].
    + split; [done|]. intros H. inversion H.
    + rewrite andb_true_iff, same_ignoring_case_letter, IH. split.
      * intros [H1 H2]. by constructor.
      * intros H. by inversion H; subst.
Qed.

Lemma reads_as_substring kw text i :
  reads_as (skipn i text) kw = true
  <-> Forall2 same_letter (substring text i (i + length kw)) kw.
Proof.
  rewrite reads_as_Forall2. unfold substring.
  by replace (i + length kw - i) with (length kw) by lia.
Qed.

Lemma outside_before text i :
  outside WordCharacters (unit_before text i) = negb (IsWordChar_before text i).
Proof.
  destruct i as [|i]; [done|]. cbn [unit_before IsWordChar_before]. unfold IsWordChar.
  by destruct (nth_error text i).
Qed.

Lemma outside_at text j :
  outside WordCharacters (nth_error text j) = negb (IsWordChar text j).
Proof. unfold IsWordChar. by destruct (nth_error text j). Qed.

(** A letter, a digit or an underscore of ASCII is one in the wider sense
    too. *)
Lemma WordCharacters_word_unit c : WordCharacters c = true -> is_word_unit c = true.
Proof. destruct c as [[] [] [] [] [] [] [] []]; cbv; congruence. Qed.

Lemma outside_weaken o :
  outside is_word_unit o = true -> outside WordCharacters o = true.
Proof.
  destruct o as [c|]; [|done]. cbn [outside]. rewrite !negb_true_iff. intros H.
  destruct (WordCharacters c) eqn:E; [|done]. apply WordCharacters_word_unit in E. congruence.
Qed.

Lemma occurs_delimited_spec w kw text :
  occurs_delimited w kw text = true
  <-> exists i, i <= length text /\ delimited_at w kw text i = true.
Proof.
  unfold occurs_delimited. rewrite existsb_exists. split.
  - intros (i & Hi & H). exists i. apply in_seq in Hi. split; [lia|done].
  - intros (i & Hi & H). exists i. split; [apply in_seq; lia|done].
Qed.

(** For a name that begins and ends with a word character, \b at both ends
    of an occurrence says that no word character stands right before or
    right after it. *)
Lemma boundary_match_delimited kw text i :
  word_edges kw ->
  boundary_match_at kw text i <-> delimited_at WordCharacters kw text i = true.
Proof.
  intros Hw. unfold boundary_match_at, delimited_at, is_boundary.
  rewrite !andb_true_iff, reads_as_substring, outside_before, outside_at, !negb_true_iff.
  split.
  - intros (B1 & F & B2).
    destruct (literal_at_edges kw text i Hw (proj2 (literal_at_Forall2 kw text i) F))
      as (_ & E1 & E2).
    rewrite E1 in B1. rewrite E2 in B2.
    split; [split; [done|]|].
    + by destruct (IsWordChar_before text i).
    + by destruct (IsWordChar text (i + length kw)).
  - intros [[F B1] B2].
    destruct (literal_at_edges kw text i Hw (proj2 (literal_at_Forall2 kw text i) F))
      as (_ & E1 & E2).
    by rewrite B1, B2, E1, E2.
Qed.

Lemma occurs_between_ascii_spec kw text :
  word_edges kw ->
  occurs_between_ascii kw text = true <-> occurs_between_boundaries kw text.
Proof.
  intros Hw. unfold occurs_between_ascii, occurs_between_boundaries.
  rewrite occurs_delimited_spec. split.
  - intros (i & _ & H). exists i. by apply boundary_match_delimited.
  - intros (i & H). exists i. split.
    + destruct H as (H & _). by apply is_boundary_length.
    + by apply boundary_match_delimited.
Qed.

(** A whole word is, all the more, between characters that are not ASCII
    word characters. *)
Lemma whole_word_between_ascii kw text :
  occurs_as_whole_word kw text = true -> occurs_between_ascii kw text = true.
Proof.
  unfold occurs_as_whole_word, occurs_between_ascii. rewrite !occurs_delimited_spec.
  intros (i & Hi & H). exists i. split; [done|].
  unfold delimited_at in *. rewrite !andb_true_iff in *.
  destruct H as [[H1 H2] H3]. by repeat split; try apply outside_weaken.
Qed.

(** The test of a name with word characters at both ends. *)
Lemma test_skill_ascii kw text :
  word_edges kw ->
  fst (RegExp_test (skill_regex kw) (toLowerCase text)) = occurs_between_ascii kw text.
Proof.
  intros Hw. apply eq_true_iff_eq. by rewrite test_skill_spec, occurs_between_ascii_spec.
Qed.

Lemma test_skill_whole_word kw text :
  word_edges kw -> occurs_as_whole_word kw text = true ->
  fst (RegExp_test (skill_regex kw) (toLowerCase text)) = true.
Proof.
  intros Hw H. rewrite test_skill_ascii by done. by apply whole_word_between_ascii.
Qed.

Lemma test_skill_unchanged kw text :
  snd (RegExp_test (skill_regex kw) (toLowerCase text)) = skill_regex kw.
Proof.
  unfold RegExp_test, RegExpBuiltinExec. cbn [global sticky skill_regex orb].
  change (length (toLowerCase text) <? 0) with false. cbv iota.
  by destruct (search _ _ _ _) as [[[i e] caps]|].
Qed.

Lemma marked_searched text s : skill_searched text s (marked (toLowerCase text) s).
Proof.
  unfold skill_searched, marked. intros E Hw.
  rewrite (proj2 (Z.eqb_eq _ _) E). cbn [andb].
  rewrite (test_skill_ascii _ _ Hw).
  by destruct (occurs_between_ascii (skill s) text).
Qed.

End WholeWord.





(** * The accuracy of the score *)

Section AccuracyZ.
Local Open Scope Z_scope.

Lemma rne_near N D : 0 < D -> - D <= 2 * (rne N D * D - N) <= D.
Proof.
  intros HD. unfold rne.
  pose proof (Z.div_mod N D ltac:(lia)) as Hdm.
  pose proof (Z.mod_pos_bound N D HD) as Hb.
  destruct (Z.compare_spec (2 * (N mod D)) D); try destruct (Z.even (N / D)); nia.
Qed.

(** The relative error of a rounding is at most [2 ^ -53]. *)
Lemma RND_rel A B :
  0 < B -> A = 0 \/ 2 ^ 52 * B <= A -> - A <= 2 ^ 53 * (RND A B * B - A) <= A.
Proof.
  intros HB [->|HA]. { rewrite RND_0 by done. lia. }
  unfold RND.
  assert (Hq : 2 ^ 52 <= A / B) by (apply Z.div_le_lower_bound; lia).
  pose proof (div_bounds A B HB) as Hd.
  set (q := A / B) in *.
  assert (H52 : 0 < 2 ^ 52) by (by apply pow2_pos).
  assert (Hl : 52 <= Z.log2 q) by (apply Z.log2_le_pow2; lia).
  rewrite Z.max_r by lia. set (k := Z.log2 q - 52).
  assert (Hk : 2 ^ k * 2 ^ 52 <= q).
  { rewrite <- (pow2_split k 52) by lia. replace (k + 52) with (Z.log2 q) by lia.
    apply Z.log2_spec. lia. }
  assert (HP : 0 < 2 ^ k) by (apply pow2_pos; lia).
  set (D := B * 2 ^ k).
  assert (HD : 0 < D) by (unfold D; nia).
  pose proof (rne_near A D HD) as Hn.
  assert (HA' : 2 ^ 52 * D <= A) by (unfold D; nia).
  replace (rne A D * 2 ^ k * B) with (rne A D * D) by (unfold D; ring).
  change (2 ^ 53) with (2 * 2 ^ 52). set (c := 2 ^ 52) in *.
  set (t := rne A D * D) in *. nia.
Qed.

Lemma RND_big lo A B :
  0 < B -> 0 <= lo -> A = 0 \/ 2 ^ lo * B <= A -> RND A B = 0 \/ 2 ^ lo <= RND A B.
Proof.
  intros HB Hlo [->|HA]; [left; by apply RND_0|right].
  rewrite <- (RND_pow2 lo B HB Hlo). apply RND_mono; try lia.
  assert (0 < 2 ^ lo) by (by apply pow2_pos). nia.
Qed.

Lemma bigz_52 v : bigz v -> v = 0 \/ 2 ^ 52 * 1 <= v.
Proof.
  intros [->|H]; [by left|right].
  assert (2 ^ 52 <= 2 ^ (BIAS - 36)) by (apply pow2_le; blia). lia.
Qed.

Lemma bigz_nonneg v : bigz v -> 0 <= v.
Proof.
  intros [->|H]; [done|]. assert (0 < 2 ^ (BIAS - 36)) by (apply pow2_pos; blia). lia.
Qed.

Lemma bigz_sum a b : bigz a -> bigz b -> bigz (RND (a + b) 1).
Proof.
  intros Ha Hb. pose proof (bigz_nonneg _ Ha). pose proof (bigz_nonneg _ Hb).
  apply RND_big; [lia|blia|].
  destruct Ha as [->|Ha]; destruct Hb as [->|Hb]; [by left|right; lia|right; lia|right; lia].
Qed.

Lemma bigz_sum_52 a b : bigz a -> bigz b -> a + b = 0 \/ 2 ^ 52 * 1 <= a + b.
Proof.
  intros Ha Hb. pose proof (bigz_nonneg _ Ha). pose proof (bigz_nonneg _ Hb).
  assert (2 ^ 52 <= 2 ^ (BIAS - 36)) by (apply pow2_le; blia).
  destruct Ha as [->|Ha]; destruct Hb as [->|Hb]; [by left|right; lia|right; lia|right; lia].
Qed.

(** A product with a factor of at least one sixteenth. *)
Lemma bigz_prod r w :
  (r = 0 \/ 2 ^ (BIAS - 32) <= r) -> 2 ^ (BIAS - 4) <= w ->
  (r * w = 0 \/ 2 ^ 52 * 2 ^ BIAS <= r * w) /\ bigz (RND (r * w) (2 ^ BIAS)).
Proof.
  intros Hr Hw.
  assert (HB : 0 < 2 ^ BIAS) by (apply pow2_pos; blia).
  assert (H1 : 0 < 2 ^ (BIAS - 32)) by (apply pow2_pos; blia).
  assert (H2 : 0 < 2 ^ (BIAS - 4)) by (apply pow2_pos; blia).
  assert (E : 2 ^ (BIAS - 32) * 2 ^ (BIAS - 4) = 2 ^ (BIAS - 36) * 2 ^ BIAS).
  { rewrite <- !pow2_split by blia. f_equal; lia. }
  assert (L : 2 ^ 52 <= 2 ^ (BIAS - 36)) by (apply pow2_le; blia).
  assert (P : r * w = 0 \/ 2 ^ (BIAS - 36) * 2 ^ BIAS <= r * w).
  { destruct Hr as [->|Hr]; [by left|right]. rewrite <- E. nia. }
  split.
  - destruct P as [P|P]; [by left|right]. nia.
  - apply RND_big; [done|blia|done].
Qed.

Lemma weight_values :
  fval WEIGHTS.searchability * 2 ^ 54 = 5404319552844595 * 2 ^ BIAS
  /\ fval WEIGHTS.hardSkills * 2 ^ 54 = 8106479329266893 * 2 ^ BIAS
  /\ fval WEIGHTS.softSkills * 2 ^ 56 = 7205759403792794 * 2 ^ BIAS
  /\ fval WEIGHTS.recruiterTips * 2 ^ 55 = 5404319552844595 * 2 ^ BIAS
  /\ fval (number_of_Z 100) = 100 * 2 ^ BIAS.
Proof.
  unfold WEIGHTS.searchability, WEIGHTS.hardSkills, WEIGHTS.softSkills, WEIGHTS.recruiterTips,
    lit_0_30, lit_0_45, lit_0_10, lit_0_15. cbn [fval].
  rewrite <- !Z.mul_assoc, <- !pow2_split by blia.
  split; [do 2 f_equal; lia|]. split; [do 2 f_equal; lia|].
  split; [do 2 f_equal; lia|]. split; [do 2 f_equal; lia|].
  destruct (number_of_Z_normal 100) as [_ H]; [|exact H].
  change (2 ^ 53) with 9007199254740992. lia.
Qed.

Lemma weight_big w :
  In w [WEIGHTS.searchability; WEIGHTS.hardSkills; WEIGHTS.softSkills; WEIGHTS.recruiterTips] ->
  2 ^ (BIAS - 4) <= fval w.
Proof.
  intros H. destruct (weight_within w H) as [->|[_ [Hlo _]]].
  - cbn in H. intuition discriminate.
  - by replace (BIAS - 4) with (-4 + BIAS) by lia.
Qed.

Lemma ratio_value_big k n :
  (k <= n)%nat -> Z.of_nat n < 2 ^ 32 ->
  (ratio_value k n = 0 \/ 2 ^ (BIAS - 32) <= ratio_value k n)
  /\ (n <> 0%nat ->
      - (Z.of_nat k * 2 ^ BIAS)
      <= 2 ^ 53 * (ratio_value k n * Z.of_nat n - Z.of_nat k * 2 ^ BIAS)
      <= Z.of_nat k * 2 ^ BIAS).
Proof.
  intros Hk Hn. unfold ratio_value.
  assert (HB : 0 < 2 ^ BIAS) by (apply pow2_pos; blia).
  assert (E : 2 ^ BIAS = 2 ^ (BIAS - 32) * 2 ^ 32).
  { rewrite <- pow2_split by blia. f_equal; lia. }
  assert (H1 : 0 < 2 ^ (BIAS - 32)) by (apply pow2_pos; blia).
  destruct n as [|n']; cbn [Nat.eqb].
  - split; [right; apply pow2_le; lia|done].
  - set (n := Datatypes.S n') in *.
    assert (C : Z.of_nat k * 2 ^ BIAS = 0 \/ 2 ^ (BIAS - 32) * Z.of_nat n <= Z.of_nat k * 2 ^ BIAS).
    { destruct k as [|k']; [by left|right]. rewrite E. nia. }
    split.
    + apply RND_big; [lia|blia|exact C].
    + intros _. apply RND_rel; [lia|].
      destruct C as [C|C]; [by left|right].
      assert (2 ^ 52 <= 2 ^ (BIAS - 32)) by (apply pow2_le; blia). nia.
Qed.

End AccuracyZ.

From Stdlib Require Import Lqa.

Section AccuracyQ.
Local Open Scope Q_scope.

Lemma inject_Z_pos z : (0 < z)%Z -> 0 < inject_Z z.
Proof. intros H. change 0 with (inject_Z 0). by rewrite <- Zlt_Qlt. Qed.

Lemma cancel_r (U a b : Q) : 0 < U -> a * U <= b * U -> a <= b.
Proof. intros HU H. by apply (Qmult_le_r a b U HU). Qed.

Lemma cancel_lt_r (U a b : Q) : 0 < U -> a * U < b * U -> a < b.
Proof. intros HU H. by apply (Qmult_lt_r a b U HU). Qed.

(** One rounding, on rationals. *)
Lemma RND_Q A B :
  (0 < B)%Z -> (A = 0 \/ 2 ^ 52 * B <= A)%Z ->
  (1 - eps) * inject_Z A <= inject_Z (RND A B) * inject_Z B
  /\ inject_Z (RND A B) * inject_Z B <= (1 + eps) * inject_Z A.
Proof.
  intros HB HA. destruct (RND_rel A B HB HA) as [H1 H2].
  replace (RND A B * B - A)%Z with (RND A B * B + - A)%Z in * by lia.
  rewrite Zle_Qle in H1, H2.
  rewrite ?inject_Z_mult, ?inject_Z_plus, ?inject_Z_opp, ?inject_Z_mult in H1, H2.
  change (inject_Z (2 ^ 53)) with (9007199254740992 # 1) in *.
  unfold eps. split; lra.
Qed.

Lemma prod_step (r w p omega U : Q) :
  0 < U -> w == omega * U ->
  (1 - eps) * (r * w) <= p * U /\ p * U <= (1 + eps) * (r * w) ->
  (1 - eps) * omega * r <= p /\ p <= (1 + eps) * omega * r.
Proof.
  intros HU Hw [H1 H2]. rewrite Hw in H1, H2. split; apply (cancel_r U); try done.
  - by setoid_replace ((1 - eps) * omega * r * U)
        with ((1 - eps) * (r * (omega * U))) using relation Qeq by ring.
  - by setoid_replace ((1 + eps) * omega * r * U)
        with ((1 + eps) * (r * (omega * U))) using relation Qeq by ring.
Qed.

(** The value of a ratio against the exact ratio. *)
Lemma ratio_Q k n :
  (k <= n)%nat -> (Z.of_nat n < 2 ^ 32)%Z ->
  (1 - eps) * (exact_ratio k n * inject_Z (2 ^ BIAS)) <= inject_Z (ratio_value k n)
  /\ inject_Z (ratio_value k n) <= (1 + eps) * (exact_ratio k n * inject_Z (2 ^ BIAS))
  /\ 0 <= exact_ratio k n * inject_Z (2 ^ BIAS)
  /\ exact_ratio k n * inject_Z (2 ^ BIAS) <= inject_Z (2 ^ BIAS).
Proof.
  intros Hk Hn.
  assert (HU : 0 < inject_Z (2 ^ BIAS)) by (apply inject_Z_pos, pow2_pos; blia).
  destruct (ratio_value_big k n Hk Hn) as [_ Hrel].
  unfold exact_ratio. unfold ratio_value in *.
  set (U := inject_Z (2 ^ BIAS)) in *.
  destruct n as [|n']; cbn [Nat.eqb] in *.
  - fold U. unfold eps. repeat split; lra.
  - specialize (Hrel ltac:(done)).
    set (r := RND (Z.of_nat k * 2 ^ BIAS) (Z.of_nat (Datatypes.S n'))) in *.
    destruct Hrel as [H1 H2].
    replace (r * Z.of_nat (Datatypes.S n') - Z.of_nat k * 2 ^ BIAS)%Z
      with (r * Z.of_nat (Datatypes.S n') + - (Z.of_nat k * 2 ^ BIAS))%Z in * by lia.
    rewrite Zle_Qle in H1, H2.
    rewrite ?inject_Z_mult, ?inject_Z_plus, ?inject_Z_opp, ?inject_Z_mult in H1, H2.
    change (inject_Z (2 ^ 53)) with (9007199254740992 # 1) in *. fold U in H1, H2.
    set (N := inject_Z (Z.of_nat (Datatypes.S n'))) in *.
    set (K := inject_Z (Z.of_nat k)) in *.
    assert (HN : 0 < N) by (apply inject_Z_pos; lia).
    assert (HK : 0 <= K) by (unfold K; change 0 with (inject_Z 0); rewrite <- Zle_Qle; lia).
    assert (HKN : K <= N) by (unfold K, N; rewrite <- Zle_Qle; lia).
    assert (E : (Z.of_nat k # Pos.of_nat (Datatypes.S n')) * N == K).
    { rewrite Qmake_Qdiv. fold K.
      replace (Z.pos (Pos.of_nat (Datatypes.S n'))) with (Z.of_nat (Datatypes.S n'))
        by (rewrite <- Pos.of_nat_succ; reflexivity).
      fold N. field. lra. }
    set (rho := Z.of_nat k # Pos.of_nat (Datatypes.S n')) in *.
    assert (HKU : 0 <= K * U) by (apply Qmult_le_0_compat; lra).
    assert (EU : rho * U * N == K * U).
    { setoid_replace (rho * U * N)
        with (rho * N * U) using relation Qeq by ring. by rewrite E. }
    unfold eps in *. repeat split.
    + apply (cancel_r N); [done|].
      setoid_replace ((1 - (1 # 9007199254740992)) * (rho * U) * N)
        with ((1 - (1 # 9007199254740992)) * (rho * U * N)) using relation Qeq by ring.
      rewrite EU. lra.
    + apply (cancel_r N); [done|].
      setoid_replace ((1 + (1 # 9007199254740992)) * (rho * U) * N)
        with ((1 + (1 # 9007199254740992)) * (rho * U * N)) using relation Qeq by ring.
      rewrite EU. lra.
    + apply (cancel_r N); [done|]. rewrite EU. lra.
    + apply (cancel_r N); [done|]. rewrite EU.
      assert ((N - K) * U >= 0); [|lra].
      apply Qmult_le_0_compat; lra.
Qed.

End AccuracyQ.

Section AccuracyChain.
Local Open Scope Q_scope.

Lemma inject_Z_eq_mult a b c d :
  (a * b = c * d)%Z -> inject_Z a * inject_Z b == inject_Z c * inject_Z d.
Proof. intros H. rewrite <- !inject_Z_mult. by rewrite H. Qed.

(** The weights, and the factor 100, as rationals. *)
Lemma weight_Q :
  inject_Z (fval WEIGHTS.searchability)
  == (5404319552844595 # 18014398509481984) * inject_Z (2 ^ BIAS)
  /\ inject_Z (fval WEIGHTS.hardSkills)
     == (8106479329266893 # 18014398509481984) * inject_Z (2 ^ BIAS)
  /\ inject_Z (fval WEIGHTS.softSkills)
     == (7205759403792794 # 72057594037927936) * inject_Z (2 ^ BIAS)
  /\ inject_Z (fval WEIGHTS.recruiterTips)
     == (5404319552844595 # 36028797018963968) * inject_Z (2 ^ BIAS)
  /\ inject_Z (fval (number_of_Z 100)) == 100 * inject_Z (2 ^ BIAS).
Proof.
  destruct weight_values as (H1 & H2 & H3 & H4 & H5).
  apply inject_Z_eq_mult in H1, H2, H3, H4.
  change (inject_Z (2 ^ 54)) with (18014398509481984 # 1) in *.
  change (inject_Z (2 ^ 55)) with (36028797018963968 # 1) in *.
  change (inject_Z (2 ^ 56)) with (72057594037927936 # 1) in *.
  change (inject_Z 5404319552844595) with (5404319552844595 # 1) in *.
  change (inject_Z 8106479329266893) with (8106479329266893 # 1) in *.
  change (inject_Z 7205759403792794) with (7205759403792794 # 1) in *.
  rewrite H5, inject_Z_mult. change (inject_Z 100) with 100.
  set (U := inject_Z (2 ^ BIAS)) in *.
  repeat split; lra.
Qed.

Lemma product_Q r w omega :
  (r = 0 \/ 2 ^ (BIAS - 32) <= r)%Z -> (2 ^ (BIAS - 4) <= w)%Z ->
  inject_Z w == omega * inject_Z (2 ^ BIAS) ->
  (1 - eps) * omega * inject_Z r <= inject_Z (RND (r * w) (2 ^ BIAS))
  /\ inject_Z (RND (r * w) (2 ^ BIAS)) <= (1 + eps) * omega * inject_Z r
  /\ bigz (RND (r * w) (2 ^ BIAS)).
Proof.
  intros Hr Hw Hq.
  assert (HB : (0 < 2 ^ BIAS)%Z) by (apply pow2_pos; blia).
  destruct (bigz_prod r w Hr Hw) as [A B].
  destruct (RND_Q (r * w) (2 ^ BIAS) HB A) as [H1 H2].
  rewrite inject_Z_mult in H1, H2.
  destruct (prod_step (inject_Z r) (inject_Z w) (inject_Z (RND (r * w) (2 ^ BIAS))) omega
              (inject_Z (2 ^ BIAS)) (inject_Z_pos _ HB) Hq (conj H1 H2)) as [G1 G2].
  by repeat split.
Qed.

Lemma sum_Q a b :
  bigz a -> bigz b ->
  (1 - eps) * (inject_Z a + inject_Z b) <= inject_Z (RND (a + b) 1)
  /\ inject_Z (RND (a + b) 1) <= (1 + eps) * (inject_Z a + inject_Z b)
  /\ bigz (RND (a + b) 1) /\ 0 <= inject_Z a /\ 0 <= inject_Z b.
Proof.
  intros Ha Hb.
  destruct (RND_Q (a + b) 1 ltac:(lia) (bigz_sum_52 a b Ha Hb)) as [H1 H2].
  rewrite inject_Z_plus in H1, H2. change (inject_Z 1) with 1 in *.
  rewrite Qmult_1_r in H1, H2.
  pose proof (bigz_nonneg _ Ha) as Na. pose proof (bigz_nonneg _ Hb) as Nb.
  rewrite Zle_Qle in Na, Nb. change (inject_Z 0) with 0 in *.
  split; [done|]. split; [done|]. split; [by apply bigz_sum|done].
Qed.

Lemma final_Q s :
  bigz s ->
  (1 - eps) * 100 * inject_Z s
  <= inject_Z (RND (s * fval (number_of_Z 100)) (2 ^ BIAS))
  /\ inject_Z (RND (s * fval (number_of_Z 100)) (2 ^ BIAS)) <= (1 + eps) * 100 * inject_Z s.
Proof.
  intros Hs. destruct weight_Q as (_ & _ & _ & _ & Hh).
  destruct weight_values as (_ & _ & _ & _ & Hz).
  assert (HB : (0 < 2 ^ BIAS)%Z) by (apply pow2_pos; blia).
  assert (A : (s * fval (number_of_Z 100) = 0 \/ 2 ^ 52 * 2 ^ BIAS <= s * fval (number_of_Z 100))%Z).
  { rewrite Hz. destruct Hs as [->|Hs]; [by left|right].
    assert (2 ^ 52 <= 2 ^ (BIAS - 36))%Z by (apply pow2_le; blia). nia. }
  destruct (RND_Q _ (2 ^ BIAS) HB A) as [H1 H2].
  rewrite inject_Z_mult in H1, H2.
  exact (prod_step _ _ _ 100 _ (inject_Z_pos _ HB) Hh (conj H1 H2)).
Qed.

(** The weighted sum times 100, against the exact one: the error is below
    [accuracy]. *)
Lemma weighted_value_Q r1 r2 r3 r4 (T1 T2 T3 T4 : Q) :
  (r1 = 0 \/ 2 ^ (BIAS - 32) <= r1)%Z -> (r2 = 0 \/ 2 ^ (BIAS - 32) <= r2)%Z ->
  (r3 = 0 \/ 2 ^ (BIAS - 32) <= r3)%Z -> (r4 = 0 \/ 2 ^ (BIAS - 32) <= r4)%Z ->
  (1 - eps) * T1 <= inject_Z r1 /\ inject_Z r1 <= (1 + eps) * T1
    /\ 0 <= T1 /\ T1 <= inject_Z (2 ^ BIAS) ->
  (1 - eps) * T2 <= inject_Z r2 /\ inject_Z r2 <= (1 + eps) * T2
    /\ 0 <= T2 /\ T2 <= inject_Z (2 ^ BIAS) ->
  (1 - eps) * T3 <= inject_Z r3 /\ inject_Z r3 <= (1 + eps) * T3
    /\ 0 <= T3 /\ T3 <= inject_Z (2 ^ BIAS) ->
  (1 - eps) * T4 <= inject_Z r4 /\ inject_Z r4 <= (1 + eps) * T4
    /\ 0 <= T4 /\ T4 <= inject_Z (2 ^ BIAS) ->
  30 * T1 + 45 * T2 + 10 * T3 + 15 * T4 - accuracy * inject_Z (2 ^ BIAS)
  <= inject_Z (weighted_value r1 r2 r3 r4)
  /\ inject_Z (weighted_value r1 r2 r3 r4)
     <= 30 * T1 + 45 * T2 + 10 * T3 + 15 * T4 + accuracy * inject_Z (2 ^ BIAS).
Proof.
  intros B1 B2 B3 B4 (L1 & U1 & N1 & M1) (L2 & U2 & N2 & M2) (L3 & U3 & N3 & M3)
    (L4 & U4 & N4 & M4).
  destruct weight_Q as (W1 & W2 & W3 & W4 & _).
  unfold weighted_value. cbv zeta.
  destruct (product_Q r1 (fval WEIGHTS.searchability) _ B1 (weight_big WEIGHTS.searchability ltac:(cbn [In]; tauto)) W1)
    as (P1 & Q1 & G1).
  destruct (product_Q r2 (fval WEIGHTS.hardSkills) _ B2 (weight_big WEIGHTS.hardSkills ltac:(cbn [In]; tauto)) W2)
    as (P2 & Q2 & G2).
  destruct (product_Q r3 (fval WEIGHTS.softSkills) _ B3 (weight_big WEIGHTS.softSkills ltac:(cbn [In]; tauto)) W3)
    as (P3 & Q3 & G3).
  destruct (product_Q r4 (fval WEIGHTS.recruiterTips) _ B4 (weight_big WEIGHTS.recruiterTips ltac:(cbn [In]; tauto)) W4)
    as (P4 & Q4 & G4).
  set (p1 := RND (r1 * fval WEIGHTS.searchability) (2 ^ BIAS)) in *.
  set (p2 := RND (r2 * fval WEIGHTS.hardSkills) (2 ^ BIAS)) in *.
  set (p3 := RND (r3 * fval WEIGHTS.softSkills) (2 ^ BIAS)) in *.
  set (p4 := RND (r4 * fval WEIGHTS.recruiterTips) (2 ^ BIAS)) in *.
  destruct (sum_Q p1 p2 G1 G2) as (S1 & S1' & GS1 & Np1 & Np2).
  set (s1 := RND (p1 + p2) 1) in *.
  destruct (sum_Q s1 p3 GS1 G3) as (S2 & S2' & GS2 & Ns1 & Np3).
  set (s2 := RND (s1 + p3) 1) in *.
  destruct (sum_Q s2 p4 GS2 G4) as (S3 & S3' & GS3 & Ns2 & Np4).
  set (s3 := RND (s2 + p4) 1) in *.
  destruct (final_Q s3 GS3) as (F1 & F2).
  set (f := RND (s3 * fval (number_of_Z 100)) (2 ^ BIAS)) in *.
  assert (HU : 0 < inject_Z (2 ^ BIAS)) by (apply inject_Z_pos, pow2_pos; blia).
  set (U := inject_Z (2 ^ BIAS)) in *.
  unfold eps, accuracy in *.
  split; lra.
Qed.

End AccuracyChain.

Section AccuracyScore.
Local Open Scope Q_scope.

Lemma exact_value_units report :
  30 * (exact_ratio (length (List.filter tip_passed (tips (searchability report))))
                    (length (tips (searchability report))) * inject_Z (2 ^ BIAS))
  + 45 * (exact_ratio (length (List.filter skill_found (skills (hardSkills report))))
                      (length (skills (hardSkills report))) * inject_Z (2 ^ BIAS))
  + 10 * (exact_ratio (length (List.filter skill_found (skills (softSkills report))))
                      (length (skills (softSkills report))) * inject_Z (2 ^ BIAS))
  + 15 * (exact_ratio (length (List.filter tip_passed (tips (recruiterTips report))))
                      (length (tips (recruiterTips report))) * inject_Z (2 ^ BIAS))
  == exact_value report * inject_Z (2 ^ BIAS).
Proof. unfold exact_value. cbv zeta. ring. Qed.

Lemma round_near (zq fq U x : Q) :
  0 < U -> zq * (U * 2) <= 2 * fq + U -> 2 * fq + U < (zq + 1) * (U * 2) ->
  x * U - accuracy * U <= fq -> fq <= x * U + accuracy * U ->
  zq <= x + (1 # 2) + accuracy /\ x + (1 # 2) - accuracy < zq + 1.
Proof.
  intros HU D1 D2 F1 F2. split.
  - apply (cancel_r U); [done|].
    assert (E : (x + (1 # 2) + accuracy) * U == x * U + (1 # 2) * U + accuracy * U) by ring.
    rewrite E. unfold accuracy in *.
    assert (E2 : zq * (U * 2) == 2 * (zq * U)) by ring. rewrite E2 in D1. lra.
  - apply (cancel_lt_r U); [done|].
    assert (E : (x + (1 # 2) - accuracy) * U == x * U + (1 # 2) * U - accuracy * U) by ring.
    rewrite E. unfold accuracy in *.
    assert (E2 : (zq + 1) * (U * 2) == 2 * ((zq + 1) * U)) by ring. rewrite E2 in D2. lra.
Qed.

Lemma round_value_Q f :
  inject_Z (round_value f) * (inject_Z (2 ^ BIAS) * 2) <= 2 * inject_Z f + inject_Z (2 ^ BIAS)
  /\ 2 * inject_Z f + inject_Z (2 ^ BIAS)
     < (inject_Z (round_value f) + 1) * (inject_Z (2 ^ BIAS) * 2).
Proof.
  assert (HB : (0 < 2 ^ BIAS)%Z) by (apply pow2_pos; blia).
  unfold round_value.
  rewrite (pow2_split BIAS 1) by blia. change (2 ^ 1)%Z with 2%Z.
  destruct (div_bounds (2 * f + 2 ^ BIAS) (2 ^ BIAS * 2) ltac:(lia)) as [D1 D2].
  set (z := ((2 * f + 2 ^ BIAS) / (2 ^ BIAS * 2))%Z) in *.
  rewrite Zle_Qle in D1. rewrite Zlt_Qlt in D2.
  rewrite !inject_Z_mult, !inject_Z_plus, !inject_Z_mult in D1.
  rewrite !inject_Z_mult, !inject_Z_plus, !inject_Z_mult in D2.
  change (inject_Z 2) with 2 in *. change (inject_Z 1) with 1 in *.
  by split.
Qed.

(** The value that [Math.round] rounds is within [accuracy] of the exact
    one: the integer [z] it gives has [z <= x + 1/2 + accuracy] and
    [x + 1/2 - accuracy < z + 1]. *)
Lemma score_near report z :
  report_ok report ->
  z = round_value
        (weighted_value
           (ratio_value (length (List.filter tip_passed (tips (searchability report))))
                        (length (tips (searchability report))))
           (ratio_value (length (List.filter skill_found (skills (hardSkills report))))
                        (length (skills (hardSkills report))))
           (ratio_value (length (List.filter skill_found (skills (softSkills report))))
                        (length (skills (softSkills report))))
           (ratio_value (length (List.filter tip_passed (tips (recruiterTips report))))
                        (length (tips (recruiterTips report))))) ->
  inject_Z z <= exact_value report + (1 # 2) + accuracy
  /\ exact_value report + (1 # 2) - accuracy < inject_Z z + 1.
Proof.
  intros (K1 & K2 & K3 & K4) ->.
  pose proof (filter_length_le tip_passed (tips (searchability report))) as C1.
  pose proof (filter_length_le skill_found (skills (hardSkills report))) as C2.
  pose proof (filter_length_le skill_found (skills (softSkills report))) as C3.
  pose proof (filter_length_le tip_passed (tips (recruiterTips report))) as C4.
  destruct (ratio_value_big _ _ C1 K1) as [B1 _].
  destruct (ratio_value_big _ _ C2 K2) as [B2 _].
  destruct (ratio_value_big _ _ C3 K3) as [B3 _].
  destruct (ratio_value_big _ _ C4 K4) as [B4 _].
  destruct (weighted_value_Q _ _ _ _ _ _ _ _ B1 B2 B3 B4
              (ratio_Q _ _ C1 K1) (ratio_Q _ _ C2 K2) (ratio_Q _ _ C3 K3) (ratio_Q _ _ C4 K4))
    as [F1 F2].
  rewrite exact_value_units in F1, F2.
  assert (HU : 0 < inject_Z (2 ^ BIAS)) by (apply inject_Z_pos, pow2_pos; blia).
  destruct (round_value_Q
              (weighted_value
                 (ratio_value (length (List.filter tip_passed (tips (searchability report))))
                    (length (tips (searchability report))))
                 (ratio_value (length (List.filter skill_found (skills (hardSkills report))))
                    (length (skills (hardSkills report))))
                 (ratio_value (length (List.filter skill_found (skills (softSkills report))))
                    (length (skills (softSkills report))))
                 (ratio_value (length (List.filter tip_passed (tips (recruiterTips report))))
                    (length (tips (recruiterTips report)))))) as [D1 D2].
  exact (round_near _ _ _ _ HU D1 D2 F1 F2).
Qed.

End AccuracyScore.

(** How far [calculateScore] is from the score in exact arithmetic: it is
    an integer that differs from the round-half-up of the exact value by at
    most one, and it lies between the floors of the exact value plus one
    half, moved down and up by [accuracy] (2 ^ -40); so the two scores agree
    unless the exact value is within 2 ^ -40 of a half-integer. *)
Theorem calculateScore_near_exact (report : Report) :
  report_ok report ->
  exists z : Z,
    calculateScore report = number_of_Z z
    /\ (spec_computeScore report - 1 <= z)%Z /\ (z <= spec_computeScore report + 1)%Z
    /\ (Qfloor (exact_value report + (1 # 2) - accuracy) <= z)%Z
    /\ (z <= Qfloor (exact_value report + (1 # 2) + accuracy))%Z
    /\ (Qfloor (exact_value report + (1 # 2) - accuracy)
        = Qfloor (exact_value report + (1 # 2) + accuracy) ->
        z = spec_computeScore report).
Proof.
  intros Hok. destruct (calculateScore_value report Hok) as (z & E & _ & Hv).
  exists z. split; [exact E|].
  destruct (score_near report z Hok Hv) as [A1 A2].
  change (spec_computeScore report) with (Qfloor (exact_value report + (1 # 2))%Q).
  set (x := exact_value report) in *.
  pose proof (Qfloor_le (x + (1 # 2))%Q) as S1.
  pose proof (Qlt_floor (x + (1 # 2))%Q) as S2.
  pose proof (Qfloor_le (x + (1 # 2) - accuracy)%Q) as L1.
  pose proof (Qlt_floor (x + (1 # 2) + accuracy)%Q) as L2.
  rewrite inject_Z_plus in S2, L2. change (inject_Z 1) with 1%Q in *.
  set (s := Qfloor (x + (1 # 2))%Q) in *.
  set (lo := Qfloor (x + (1 # 2) - accuracy)%Q) in *.
  set (hi := Qfloor (x + (1 # 2) + accuracy)%Q) in *.
  assert (G1 : (s - 1 <= z)%Z).
  { assert (H : (s < z + 2)%Z); [|lia]. rewrite Zlt_Qlt, inject_Z_plus.
    change (inject_Z 2) with 2%Q. unfold accuracy in *. lra. }
  assert (G2 : (z <= s + 1)%Z).
  { assert (H : (z < s + 2)%Z); [|lia]. rewrite Zlt_Qlt, inject_Z_plus.
    change (inject_Z 2) with 2%Q. unfold accuracy in *. lra. }
  assert (G3 : (lo <= z)%Z).
  { assert (H : (lo < z + 1)%Z); [|lia]. rewrite Zlt_Qlt, inject_Z_plus.
    change (inject_Z 1) with 1%Q. lra. }
  assert (G4 : (z <= hi)%Z).
  { rewrite <- (Qfloor_Z z). by apply Qfloor_resp_le. }
  assert (G5 : (lo <= s)%Z) by (apply Qfloor_resp_le; unfold accuracy; lra).
  assert (G6 : (s <= hi)%Z) by (apply Qfloor_resp_le; unfold accuracy; lra).
  repeat split; try done. intros Heq. lia.
Qed.

Lemma calculateScore_near_exact_witness :
  exists z : Z,
    calculateScore half_report = number_of_Z z
    /\ (spec_computeScore half_report - 1 <= z)%Z /\ (z <= spec_computeScore half_report + 1)%Z.
Proof.
  destruct (calculateScore_near_exact half_report report_ok_half) as (z & H1 & H2 & H3 & _).
  exists z. split; [exact H1|]. split; [exact H2|exact H3].
Defined.
